(** * create_vulkan_wrapper.py: a shallow embedding and its properties

    The script reads an XML description of the Vulkan API (vk.xml) with
    [xml.etree.ElementTree] and writes a ctypes wrapper.  Everything the
    script does after the document is parsed is modelled here:

    - the document is an [Element] tree with the accessors the script uses
      ([find], [iter], [get], [text], [tail], truth value);
    - the four things the script mutates (the output file, [print],
      [DEFINED_IDENTIFIERS], [HANDLE_NAMES]) are all append-only, so the
      state is one chronological list of [Effect]s from which each of them
      is a projection;
    - a Python exception is an [Outcome] of the computation.

    Characters are bytes ([ascii]); the templates are those of the script
    after [prepare_templates] has run. *)

From Stdlib Require Import String Ascii List ZArith Lia Bool Arith.
From Stdlib Require Import Permutation Sorted FunInd.
Import ListNotations.
Local Open Scope string_scope.
Set Warnings "-register-all".

(** ** Python built-ins used by the script *)

Module Py.

Definition nl : string := String (ascii_of_nat 10) EmptyString.

(** [s.startswith(p)] *)
Fixpoint startswith (s p : string) {struct p} : bool :=
  match p with
  | EmptyString => true
  | String a p' =>
      match s with
      | String b s' => Ascii.eqb a b && startswith s' p'
      | EmptyString => false
      end
  end.

(** [s[n:]] *)
Fixpoint drop (n : nat) (s : string) : string :=
  match n, s with
  | S n', String _ r => drop n' r
  | _, _ => s
  end.

(** [s[0:n]] *)
Fixpoint take (n : nat) (s : string) : string :=
  match n, s with
  | S n', String c r => String c (take n' r)
  | _, _ => EmptyString
  end.

(** [s.endswith(suffix)] *)
Definition endswith (s suffix : string) : bool :=
  (String.length suffix <=? String.length s)%nat
  && String.eqb (drop (String.length s - String.length suffix) s) suffix.

Definition rev (s : string) : string :=
  string_of_list_ascii (List.rev (list_ascii_of_string s)).

Fixpoint mem_char (c : ascii) (chars : string) : bool :=
  match chars with
  | EmptyString => false
  | String d r => Ascii.eqb c d || mem_char c r
  end.

Fixpoint lstrip_chars (chars s : string) : string :=
  match s with
  | String c r => if mem_char c chars then lstrip_chars chars r else s
  | EmptyString => EmptyString
  end.

(** [s.strip(chars)] *)
Definition strip_chars (chars s : string) : string :=
  rev (lstrip_chars chars (rev (lstrip_chars chars s))).

(** The characters below 128 that [str.strip()] and [str.lstrip()] remove:
    space, tab, line feed, vertical tab, form feed, carriage return and the
    four separators 28 to 31. *)
Definition whitespace : string :=
  String " " (String (ascii_of_nat 9) (String (ascii_of_nat 10)
  (String (ascii_of_nat 11) (String (ascii_of_nat 12)
  (String (ascii_of_nat 13) (String (ascii_of_nat 28)
  (String (ascii_of_nat 29) (String (ascii_of_nat 30)
  (String (ascii_of_nat 31) EmptyString))))))))).

Definition lstrip (s : string) : string := lstrip_chars whitespace s.
Definition strip (s : string) : string := strip_chars whitespace s.

(** [s.replace(old, new)] for a non-empty [old]: occurrences are replaced
    from the left and do not overlap.  [skip] counts the characters of a
    matched [old] that are still to be passed over. *)
Fixpoint replace_from (old new : string) (skip : nat) (s : string) : string :=
  match s with
  | EmptyString => EmptyString
  | String c r =>
      match skip with
      | S k => replace_from old new k r
      | O =>
          if startswith s old
          then new ++ replace_from old new (String.length old - 1) r
          else String c (replace_from old new 0 r)
      end
  end.

Definition replace (old new s : string) : string := replace_from old new 0 s.

(** ['sep'.join(parts)] with the empty separator *)
Definition join (parts : list string) : string := String.concat "" parts.

(** [template.splitlines(True)], for texts whose only line boundary is the
    line feed (true of every template of the script). *)
Fixpoint splitlines_keep (cur : string) (s : string) : list string :=
  match s with
  | EmptyString => match cur with EmptyString => [] | _ => [rev cur] end
  | String c r =>
      if Ascii.eqb c (ascii_of_nat 10)
      then rev (String c cur) :: splitlines_keep EmptyString r
      else splitlines_keep (String c cur) r
  end.

Definition is_upper (c : ascii) : bool :=
  (65 <=? nat_of_ascii c)%nat && (nat_of_ascii c <=? 90)%nat.

(** [c.lower()] for one of the letters A-Z *)
Definition lower (c : ascii) : ascii :=
  if is_upper c then ascii_of_nat (nat_of_ascii c + 32) else c.

Definition is_digit (c : ascii) : bool :=
  (48 <=? nat_of_ascii c)%nat && (nat_of_ascii c <=? 57)%nat.

(** The characters that [int()] skips around the digits of a string of
    characters below 128: space, tab, line feed, vertical tab, form feed
    and carriage return (not the separators 28 to 31). *)
Definition int_whitespace : string :=
  String " " (String (ascii_of_nat 9) (String (ascii_of_nat 10)
  (String (ascii_of_nat 11) (String (ascii_of_nat 12)
  (String (ascii_of_nat 13) EmptyString))))).

(** The value of what follows a digit: digits, each possibly after one
    underscore *)
Fixpoint digits_value (acc : Z) (s : string) : option Z :=
  match s with
  | EmptyString => Some acc
  | String c r =>
      if is_digit c
      then digits_value (10 * acc + Z.of_nat (nat_of_ascii c - 48)) r
      else if Ascii.eqb c "_" then
        match r with
        | String d _ => if is_digit d then digits_value acc r else None
        | EmptyString => None
        end
      else None
  end.

(** At least one digit, with single underscores between digits *)
Definition digits (s : string) : option Z :=
  match s with
  | String c _ => if is_digit c then digits_value 0 s else None
  | EmptyString => None
  end.

(** [int(s)] on the decimal spellings: surrounding whitespace, an optional
    sign, and digits with single underscores between them (as Python 3.6
    and later accept).  [None] stands for ValueError. *)
Definition int_of_str (s : string) : option Z :=
  match strip_chars int_whitespace s with
  | EmptyString => None
  | String c r =>
      if Ascii.eqb c "-" then option_map Z.opp (digits r)
      else if Ascii.eqb c "+" then digits r
      else digits (String c r)
  end.

Definition digit_char (n : nat) : ascii := ascii_of_nat (48 + n).

(** The decimal digits of a natural number, most significant first;
    [fuel] bounds the number of digits. *)
Fixpoint nat_digits (fuel : nat) (n : N) (acc : string) : string :=
  match fuel with
  | O => acc
  | S f =>
      let acc' := String (digit_char (N.to_nat (n mod 10))) acc in
      if (n <? 10)%N then acc' else nat_digits f (n / 10)%N acc'
  end.

(** [str(z)] for an integer *)
Definition str_of_int (z : Z) : string :=
  let n := Z.abs_N z in
  let body := nat_digits (S (N.to_nat (N.log2 n))) n EmptyString in
  if (z <? 0)%Z then String "-" body else body.

End Py.

(** ** The parsed document: [xml.etree.ElementTree.Element] *)

Inductive Element : Type :=
  mkElement (tag : string) (attrib : list (string * string))
            (text tail : option string) (children : list Element).

Definition tag (e : Element) : string :=
  match e with mkElement t _ _ _ _ => t end.
Definition attrib (e : Element) : list (string * string) :=
  match e with mkElement _ a _ _ _ => a end.
Definition text (e : Element) : option string :=
  match e with mkElement _ _ x _ _ => x end.
Definition tail (e : Element) : option string :=
  match e with mkElement _ _ _ x _ => x end.
Definition children (e : Element) : list Element :=
  match e with mkElement _ _ _ _ cs => cs end.

(** [e.get(key)] *)
Fixpoint lookup (key : string) (kvs : list (string * string)) : option string :=
  match kvs with
  | [] => None
  | (k, v) :: r => if String.eqb k key then Some v else lookup key r
  end.

Definition get (e : Element) (key : string) : option string :=
  lookup key (attrib e).

(** [e.find(tag)]: the first child with that tag *)
Definition find (e : Element) (t : string) : option Element :=
  List.find (fun c => String.eqb (tag c) t) (children e).

(** [e.iter()]: the element and all its descendants, in document order *)
Fixpoint descendants (e : Element) : list Element :=
  match e with
  | mkElement _ _ _ _ cs => e :: flat_map descendants cs
  end.

(** [e.iter(tag)] *)
Definition iter (e : Element) (t : string) : list Element :=
  filter (fun d => String.eqb (tag d) t) (descendants e).

(** [bool(e)]: an element without children is false *)
Definition truth (e : Element) : bool :=
  match children e with [] => false | _ => true end.

(** [x == 'literal'] for an [x] that may be [None] *)
Definition is_str (x : option string) (s : string) : bool :=
  match x with Some v => String.eqb v s | None => false end.

(** ['{}'.format(x)] for an [x] that may be [None] *)
Definition str_of (x : option string) : string :=
  match x with Some v => v | None => "None" end.

(** [x or y]: [None] and the empty string are false *)
Definition truthy (x : option string) : option string :=
  match x with
  | Some EmptyString => None
  | _ => x
  end.

(** ** Outcomes, exceptions and the two monads *)

Inductive Exn : Type :=
  AttributeError | TypeError | IndexError | ValueError | StopIteration.

(** [OutOfFuel] is not a Python outcome: it is what the recursion of
    [parse_struct_or_enum] gives when the bound on its depth is reached. *)
Inductive Outcome (A : Type) : Type :=
| Ok (a : A)
| Raise (e : Exn)
| OutOfFuel.
Arguments Ok {A} a.
Arguments Raise {A} e.
Arguments OutOfFuel {A}.

Definition bindE {A B} (m : Outcome A) (k : A -> Outcome B) : Outcome B :=
  match m with
  | Ok a => k a
  | Raise e => Raise e
  | OutOfFuel => OutOfFuel
  end.

(** [x] unless it is [None], where the script's next attribute access or
    call raises [e] *)
Definition some_or {A} (e : Exn) (x : option A) : Outcome A :=
  match x with Some a => Ok a | None => Raise e end.

Fixpoint mapE {A B} (f : A -> Outcome B) (xs : list A) : Outcome (list B) :=
  match xs with
  | [] => Ok []
  | x :: r => bindE (f x) (fun y => bindE (mapE f r) (fun ys => Ok (y :: ys)))
  end.

Declare Scope py_scope.
Delimit Scope py_scope with py.
Notation "x <~ m ;; k" := (bindE m (fun x => k))
  (at level 61, m at next level, right associativity) : py_scope.
Notation "' p <~ m ;; k" := (bindE m (fun x => match x with p => k end))
  (at level 61, p pattern, m at next level, right associativity) : py_scope.
Local Open Scope py_scope.

(** ** Module constants *)

Definition INDENT : nat := 4.

(** [TYPES_SUFFIX.items()], in the order of the dictionary display *)
Definition TYPES_SUFFIX : list (string * string) :=
  [("U", "c_uint"); ("ULL", "c_uint64"); ("f", "c_float")].

(** [DEFINED_IDENTIFIERS] as the module creates it *)
Definition DEFINED_IDENTIFIERS_0 : list string :=
  ["HINSTANCE"; "HWND"; "None"; "c_void_p"; "c_float"; "c_uint8"; "c_cuint";
   "c_uint64"; "c_int"; "c_uint"; "c_size_t"; "c_char"; "c_char_p";
   "xcb_connection_t"; "xcb_window_t"; "xcb_visualid_t";
   "MirConnection"; "MirSurface"; "wl_display"; "wl_surface"; "Display";
   "Window"; "VisualID"; "ANativeWindow"].

Definition TYPES_MAP : list (string * string) :=
  [("void", "None");
   ("void*", "c_void_p");
   ("float", "c_float");
   ("uint8_t", "c_uint8");
   ("uint32_t", "c_uint");
   ("uint64_t", "c_uint64");
   ("int32_t", "c_int");
   ("size_t", "c_size_t");
   ("char", "c_char");
   ("char*", "c_char_p")].

(** [TYPES_MAP[key]] for a key of the table *)
Definition TYPES_MAP_at (key : string) : string :=
  match lookup key TYPES_MAP with Some v => v | None => EmptyString end.

(** ** Utility functions *)

(** [re.sub('[^A-Z]([A-Z])[^A-Z]|[^A-Z]([A-Z])', lower, name)]: at each
    position the three-character alternative is tried first, then the
    two-character one; the scan resumes after the match. *)
Fixpoint to_snake_case (name : string) : string :=
  match name with
  | String a (String b t2 as t1) =>
      if negb (Py.is_upper a) && Py.is_upper b then
        match t2 with
        | String c t3 =>
            if negb (Py.is_upper c)
            then String a (String "_" (String (Py.lower b)
                   (String c (to_snake_case t3))))
            else String a (String "_" (String b (to_snake_case t2)))
        | EmptyString => String a (String "_" (String b EmptyString))
        end
      else String a (to_snake_case t1)
  | _ => name
  end.

(** [lstrip_t] *)
Definition lstrip_t (template : string) : string :=
  Py.join (map Py.lstrip (Py.splitlines_keep EmptyString template)).

Fixpoint spaces (n : nat) : string :=
  match n with O => EmptyString | S k => String " " (spaces k) end.

(** [expand] *)
Definition expand (template : string) : string :=
  Py.replace "$" Py.nl (Py.replace "?" "" (Py.replace "`" (spaces INDENT) template)).

(** What [prepare_templates] stores back for a template *)
Definition prepared (template : string) : string := expand (lstrip_t template).

(** [pythonize_value], iterating over the given [items] of [TYPES_SUFFIX] *)
Fixpoint pythonize_suffix (items : list (string * string)) (value : string) : string :=
  match items with
  | [] => value
  | (suffix, type_) :: r =>
      if Py.endswith value suffix
      then type_ ++ "(" ++ Py.take (String.length value - String.length suffix) value ++ ")"
      else pythonize_suffix r value
  end.

Definition pythonize_value_with (items : list (string * string)) (value : string) : string :=
  pythonize_suffix items (Py.strip_chars "()" value).

Definition pythonize_value : string -> string := pythonize_value_with TYPES_SUFFIX.

Definition pythonize_field_name (_name : string) : string :=
  fold_left
    (fun name p => if Py.startswith name p then Py.drop (String.length p) name else name)
    ["p_"; "pp_"; "pfn_"]
    (to_snake_case _name).

Fixpoint first_prefix (prefixes : list string) (name : string) : option string :=
  match prefixes with
  | [] => None
  | p :: r => if Py.startswith name p then Some p else first_prefix r name
  end.

Definition remove_prefix (name : string) : string :=
  match first_prefix ["Vk"; "VK_"; "vk"] name with
  | Some prefix => Py.drop (String.length prefix) name
  | None =>
      match first_prefix ["PFN_vk"; to_snake_case "PFN_vk"] name with
      | Some _ => Py.replace "PFN_vk" "fn_" name
      | None => name
      end
  end.

(** [first(iterator)] and [second(iterator)] *)
Definition first {A} (xs : list A) : option A := hd_error xs.

Definition second {A} (xs : list A) : Outcome A :=
  match xs with
  | _ :: x :: _ => Ok x
  | _ => Raise StopIteration
  end.

(** [map_ctypes] on a string *)
Definition map_ctypes (type_name : string) : string :=
  match lookup type_name TYPES_MAP with
  | Some py_type => py_type
  | None => remove_prefix type_name
  end.

(** [map_ctypes] on what may be [None]: [None] is not a string, and has no
    [tail] *)
Definition map_ctypes_text (x : option string) : Outcome string :=
  match x with
  | Some type_name => Ok (map_ctypes type_name)
  | None => Raise AttributeError
  end.

(** [s[0]] *)
Definition head_char (s : string) : Outcome string :=
  match s with
  | String c _ => Ok (String c EmptyString)
  | EmptyString => Raise IndexError
  end.

(** [map_ctypes] on an element *)
Definition map_ctypes_elem (type_item : Element) : Outcome string :=
  tail_ <~ match tail type_item with
           | Some t => head_char t
           | None => Ok EmptyString
           end ;;
  txt <~ some_or TypeError (text type_item) ;;
  Ok (map_ctypes (Py.strip (txt ++ tail_))).

(** [filter_types]; iterating over [None] is a TypeError *)
Definition filter_types (root : Element) (category : string) : Outcome (list Element) :=
  types <~ some_or TypeError (find root "types") ;;
  Ok (filter (fun t => is_str (get t "category") category) (children types)).

Definition format_array (_type length : string) : string :=
  "(" ++ _type ++ "*" ++ length ++ ")".

Definition format_pointer (_type : string) : string :=
  if String.eqb _type "None" then TYPES_MAP_at "void*"
  else if String.eqb _type "c_char" then TYPES_MAP_at "char*"
  else "POINTER(" ++ _type ++ ")".

(** [int(x)]: TypeError on [None], ValueError on a string that is not an
    integer *)
Definition int_ (x : option string) : Outcome Z :=
  s <~ some_or TypeError x ;;
  some_or ValueError (Py.int_of_str s).

Definition parse_offset (elem : Element) (base_offset : Z) : Outcome string :=
  offset <~ int_ (get elem "offset") ;;
  let offset := (offset + base_offset)%Z in
  let offset := if is_str (get elem "dir") "-" then (- offset)%Z else offset in
  Ok (Py.str_of_int offset).

(** ** Templates

    [format] is [str.format] with keyword arguments, for templates whose
    braces only delimit field names. *)

Fixpoint format_from (kw : list (string * string)) (field : option string)
         (template : string) : string :=
  match template with
  | EmptyString => EmptyString
  | String c r =>
      match field with
      | None =>
          if Ascii.eqb c "{" then format_from kw (Some EmptyString) r
          else String c (format_from kw None r)
      | Some name =>
          if Ascii.eqb c "}"
          then match lookup (Py.rev name) kw with
               | Some v => v
               | None => EmptyString
               end ++ format_from kw None r
          else format_from kw (Some (String c name)) r
      end
  end.

Definition format (template : string) (kw : list (string * string)) : string :=
  format_from kw None template.

(** A triple-quoted template that starts on the line after the quotes *)
Definition block (lines : list string) : string :=
  Py.nl ++ Py.join (map (fun l => l ++ Py.nl) lines).

Definition IMPORTS_TEMPLATE : string := prepared (block
  ["# -*- coding: utf-8 -*-";
   "from ctypes import (c_void_p, c_float, c_uint8, c_uint, c_uint64, c_int, c_size_t, c_char, c_char_p, cast, Structure, Union, POINTER)";
   "from platform import system"]).

Definition INITIALIZATION_TEMPLATE : string := prepared (block
  ["# Sysem initialization";
   "system_name = system()";
   "if system_name == 'Windows':";
   "`from ctypes import WINFUNCTYPE, windll";
   "`FUNCTYPE = WINFUNCTYPE";
   "`vk = windll.LoadLibrary('vulkan-1')";
   "elif system_name == 'Linux':";
   "`from ctypes import CFUNCTYPE, cdll";
   "`FUNCTYPE = CFUNCTYPE";
   "`vk = cdll.LoadLibrary('libvulkan.so.1')";
   "?";
   "# System types";
   "HINSTANCE = c_void_p";
   "HWND = c_void_p";
   "xcb_connection_t = c_void_p";
   "xcb_window_t = c_uint";
   "xcb_visualid_t = c_uint";
   "MirConnection = c_void_p";
   "MirSurface = c_void_p";
   "wl_display = c_void_p";
   "wl_surface = c_void_p";
   "Display = c_void_p";
   "Window = c_uint";
   "VisualID = c_uint";
   "ANativeWindow = c_void_p";
   "?";
   "def MAKE_VERSION(major, minor, patch):";
   "`return (major<<22) | (minor<<12) | patch";
   "?";
   "def define_structure(name, *args):";
   "`return type(name, (Structure,), {'_fields_': args})";
   "?";
   "def define_union(name, *args):";
   "`return type(name, (Union,), {'_fields_': args})";
   "?";
   "def load_functions(vk_object, functions_list, loader):";
   "`functions = []";
   "`for name, return_type, *args in functions_list:";
   "``py_name = name.decode()[2::]";
   "``fn_ptr = loader(vk_object, name)";
   "``fn_ptr = cast(fn_ptr, c_void_p)";
   "``if fn_ptr:";
   "```fn = (FUNCTYPE(return_type, *args))(fn_ptr.value)";
   "```functions.append((py_name, fn))";
   "``elif __debug__ == True:";
   "```print('Function {} could not be loaded. (__debug__ == True)'.format(py_name))";
   "`return functions";
   "?";
   "API_VERSION_1_0 = MAKE_VERSION(1,0,0)"]).

Definition HANDLE_TEMPLATE : string := prepared "{HANDLE_NAME} = {HANDLE_TYPE}$".

Definition FLAG_TEMPLATE : string := prepared "{FLAG_NAME} = c_uint$".

Definition BASETYPE_TEMPLATE : string := prepared "{BASETYPE_NAME} = {BASETYPE_TYPE}$".

Definition ENUM_LINE_TEMPLATE : string := prepared "{ENUM_NAME} = {ENUM_VALUE}$".
Definition ENUM_TEMPLATE : string := prepared (block
  ["{ENUM_NAME} = c_uint";
   "{ENUM_LINES}"]).

Definition STRUCTURE_ARGS_TEMPLATE : string :=
  prepared "`('{MEMBER_NAME}', {MEMBER_TYPE}),$".
Definition STRUCTURE_TEMPLATE : string := prepared (block
  ["{NAME} = define_structure('{NAME}',${ARGS})$"]).

Definition UNION_ARGS_TEMPLATE : string :=
  prepared "`('{MEMBER_NAME}', {MEMBER_TYPE}),$".
Definition UNION_TEMPLATE : string := prepared (block
  ["{NAME} = define_union('{NAME}',${ARGS})$"]).

Definition FUNCTIONS_PROTOTYPE_ARGS_TEMPLATE : string :=
  prepared "{PROTOTYPE_ARG_TYPE}, ".
Definition FUNCTIONS_PROTOTYPE_TEMPLATE : string :=
  prepared "{PROTOTYPE_NAME} = FUNCTYPE( {PROTOTYPE_RETURN}, {PROTOTYPE_ARGS})$".

Definition COMMAND_ARGS_TEMPLATE : string := prepared "{COMMAND_ARG_TYPE}, ".
Definition COMMAND_DEFINITION_TEMPLATE : string :=
  prepared "`(b'{COMMAND_NAME}', {COMMAND_RETURN}, {COMMAND_ARGS}),$".
Definition COMMAND_TEMPLATE : string :=
  prepared "{COMMAND_FAMILY_NAME}Functions = (${COMMAND_DEFINITIONS})$$".

Definition GET_INSTANCE_PROC_ADDR_TEMPLATE : string := prepared (block
  ["{COMMAND_NAME} = vk.vk{COMMAND_NAME}";
   "{COMMAND_NAME}.restype = {COMMAND_RETURN}";
   "{COMMAND_NAME}.argtypes = ({COMMAND_ARGS})"]).

Definition EXTENSION_TEMPLATE : string := prepared (block
  ["#{EXTENSION_NAME}";
   "{EXTENSION_ENUMS}"]).

Definition POST_INITIALIZATION_TEMPLATE : string := prepared (block
  ["# Load the loader functions in the module namespace";
   "loc = locals()";
   "for name, fnptr in load_functions(Instance(0), LoaderFunctions, GetInstanceProcAddr):";
   "`loc[name] = fnptr";
   "del loc"]).

(** ** What is written

    One [Chunk] is the argument of one call of [o.write]: a literal text,
    or a template with the arguments it is formatted with.  [render] gives
    the characters.  A [StructDecl] also keeps the [member] elements its
    arguments were computed from; they are not rendered. *)

Inductive Chunk : Type :=
| Text (s : string)
| HandleDecl (HANDLE_NAME HANDLE_TYPE : string)
| BasetypeDecl (BASETYPE_NAME BASETYPE_TYPE : string)
| FlagDecl (FLAG_NAME : string)
| EnumDecl (ENUM_NAME : string) (enum_mems : list (string * string))
| PrototypeDecl (PROTOTYPE_NAME : string) (ptrs_args_types : list string)
                (PROTOTYPE_RETURN : string)
| StructDecl (is_struct : bool) (NAME : string) (members : list Element)
             (struct_mems : list (string * string))
| CommandFamily (COMMAND_FAMILY_NAME : string) (cmds : list string)
| GetInstanceProcAddr (COMMAND_NAME COMMAND_RETURN COMMAND_ARGS : string)
| ExtensionDecl (EXTENSION_NAME : string) (enum_mems : list (string * string)).

Definition enum_line (nv : string * string) : string :=
  format ENUM_LINE_TEMPLATE [("ENUM_NAME", fst nv); ("ENUM_VALUE", snd nv)].

Definition render (c : Chunk) : string :=
  match c with
  | Text s => s
  | HandleDecl n t =>
      format HANDLE_TEMPLATE [("HANDLE_NAME", n); ("HANDLE_TYPE", t)]
  | BasetypeDecl n t =>
      format BASETYPE_TEMPLATE [("BASETYPE_NAME", n); ("BASETYPE_TYPE", t)]
  | FlagDecl n => format FLAG_TEMPLATE [("FLAG_NAME", n)]
  | EnumDecl n mems =>
      format ENUM_TEMPLATE
        [("ENUM_NAME", n); ("ENUM_LINES", Py.join (map enum_line mems))]
  | PrototypeDecl n args r =>
      format FUNCTIONS_PROTOTYPE_TEMPLATE
        [("PROTOTYPE_NAME", n);
         ("PROTOTYPE_ARGS",
          Py.join (map (fun t => format FUNCTIONS_PROTOTYPE_ARGS_TEMPLATE
                                   [("PROTOTYPE_ARG_TYPE", t)]) args));
         ("PROTOTYPE_RETURN", r)]
  | StructDecl is_struct n _ mems =>
      let MEMBER_TEMPLATE :=
        if is_struct then STRUCTURE_ARGS_TEMPLATE else UNION_ARGS_TEMPLATE in
      let MAIN_TEMPLATE :=
        if is_struct then STRUCTURE_TEMPLATE else UNION_TEMPLATE in
      format MAIN_TEMPLATE
        [("NAME", n);
         ("ARGS",
          Py.join (map (fun nt => format MEMBER_TEMPLATE
                          [("MEMBER_NAME", fst nt); ("MEMBER_TYPE", snd nt)]) mems))]
  | CommandFamily f cmds =>
      format COMMAND_TEMPLATE
        [("COMMAND_FAMILY_NAME", f); ("COMMAND_DEFINITIONS", Py.join cmds)]
  | GetInstanceProcAddr n t params =>
      format GET_INSTANCE_PROC_ADDR_TEMPLATE
        [("COMMAND_NAME", n); ("COMMAND_RETURN", t); ("COMMAND_ARGS", params)]
  | ExtensionDecl n mems =>
      format EXTENSION_TEMPLATE
        [("EXTENSION_NAME", n); ("EXTENSION_ENUMS", Py.join (map enum_line mems))]
  end.

(** ** Effects and state *)

Inductive Effect : Type :=
| Write (c : Chunk)                 (* o.write(...) *)
| Print (s : string)                (* print(...) *)
| Defined (name : string)           (* DEFINED_IDENTIFIERS.append(name) *)
| HandleName (name : string).       (* HANDLE_NAMES.append(name) *)

Definition Log : Type := list Effect.

Definition written (log : Log) : list Chunk :=
  flat_map (fun e => match e with Write c => [c] | _ => [] end) log.

Definition printed (log : Log) : list string :=
  flat_map (fun e => match e with Print s => [s] | _ => [] end) log.

Definition defined_in (log : Log) : list string :=
  flat_map (fun e => match e with Defined n => [n] | _ => [] end) log.

Definition DEFINED_IDENTIFIERS (log : Log) : list string :=
  (DEFINED_IDENTIFIERS_0 ++ defined_in log)%list.

Definition HANDLE_NAMES (log : Log) : list string :=
  flat_map (fun e => match e with HandleName n => [n] | _ => [] end) log.

(** The characters of the output file *)
Definition file_contents (log : Log) : string :=
  Py.join (map render (written log)).

(** [x in xs] *)
Definition In_ (x : string) (xs : list string) : bool :=
  existsb (String.eqb x) xs.

Definition M (A : Type) : Type := Log -> Outcome A * Log.

Definition ret {A} (a : A) : M A := fun log => (Ok a, log).

Definition bind {A B} (m : M A) (k : A -> M B) : M B :=
  fun log =>
    match m log with
    | (Ok a, log') => k a log'
    | (Raise e, log') => (Raise e, log')
    | (OutOfFuel, log') => (OutOfFuel, log')
    end.

Definition lift {A} (x : Outcome A) : M A := fun log => (x, log).

Definition effect (e : Effect) : M unit := fun log => (Ok tt, (log ++ [e])%list).

Definition state : M Log := fun log => (Ok log, log).

Notation "x <- m ;; k" := (bind m (fun x => k))
  (at level 61, m at next level, right associativity) : py_scope.
Notation "m ;; k" := (bind m (fun _ => k))
  (at level 61, right associativity) : py_scope.

(** [for x in xs: body] *)
Fixpoint for_each {A} (xs : list A) (body : A -> M unit) : M unit :=
  match xs with
  | [] => ret tt
  | x :: r => body x ;; for_each r body
  end.

Definition write (c : Chunk) : M unit := effect (Write c).

(** The section titles the parsing functions write first *)
Definition handles_header : Chunk := Text (Py.nl ++ "# HANDLES" ++ Py.nl ++ Py.nl).
Definition basetypes_header : Chunk := Text (Py.nl ++ "# BASETYPES" ++ Py.nl ++ Py.nl).
Definition flags_header : Chunk := Text (Py.nl ++ "# FLAGS" ++ Py.nl ++ Py.nl).
Definition enums_header : Chunk := Text ("# ENUMS" ++ Py.nl ++ Py.nl).
Definition funcpointers_header : Chunk := Text (Py.nl ++ "# FUNC POINTERS" ++ Py.nl ++ Py.nl).
Definition structures_header : Chunk := Text (Py.nl ++ "# STRUCTURES" ++ Py.nl ++ Py.nl).
Definition commands_header : Chunk := Text (Py.nl ++ "# FUNCTIONS " ++ Py.nl ++ Py.nl).
Definition extensions_header : Chunk := Text (Py.nl ++ "# EXTENSIONS " ++ Py.nl ++ Py.nl).

(** ** Parsing functions *)

Definition add_imports : M unit := write (Text IMPORTS_TEMPLATE).

Definition add_initialization : M unit :=
  write (Text (Py.nl ++ Py.nl ++ INITIALIZATION_TEMPLATE ++ Py.nl)).

(** [remove_prefix(first(e.iter('name')).text)] *)
Definition name_of (e : Element) : Outcome string :=
  name_node <~ some_or AttributeError (first (iter e "name")) ;;
  name <~ some_or AttributeError (text name_node) ;;
  Ok (remove_prefix name).

Definition parse_handles (root : Element) : M unit :=
  write handles_header ;;
  handles <- lift (filter_types root "handle") ;;
  for_each handles (fun handle =>
    type_node <- lift (some_or AttributeError (find handle "type")) ;;
    let handle_type :=
      if is_str (text type_node) "VK_DEFINE_HANDLE"
      then TYPES_MAP_at "size_t" else TYPES_MAP_at "uint64_t" in
    handle_name <- lift (name_of handle) ;;
    write (HandleDecl handle_name handle_type) ;;
    effect (HandleName handle_name) ;;
    effect (Defined handle_name)) ;;
  write (Text Py.nl).

Definition parse_basetypes (root : Element) : M unit :=
  write basetypes_header ;;
  basetypes <- lift (filter_types root "basetype") ;;
  for_each basetypes (fun basetype =>
    type_node <- lift (second (iter basetype "type")) ;;
    basetype_type <- lift (map_ctypes_elem type_node) ;;
    basetype_name <- lift (name_of basetype) ;;
    write (BasetypeDecl basetype_name basetype_type) ;;
    effect (Defined basetype_name)) ;;
  write (Text Py.nl).

Definition parse_flags (root : Element) : M unit :=
  write flags_header ;;
  flags <- lift (filter_types root "bitmask") ;;
  for_each flags (fun flag =>
    flag_name <- lift (name_of flag) ;;
    write (FlagDecl flag_name) ;;
    effect (Defined flag_name)) ;;
  write (Text Py.nl).

(** [x.get('value') or "1<<"+x.get('bitpos')] *)
Definition value_or_bitpos (x : Element) : Outcome string :=
  match truthy (get x "value") with
  | Some v => Ok v
  | None => bitpos <~ some_or TypeError (get x "bitpos") ;; Ok ("1<<" ++ bitpos)
  end.

Definition enum_member (items : list (string * string)) (enum_mem : Element)
  : Outcome (string * string) :=
  v <~ value_or_bitpos enum_mem ;;
  n <~ some_or AttributeError (get enum_mem "name") ;;
  Ok (remove_prefix n, pythonize_value_with items v).

Definition parse_enums_with (items : list (string * string)) (root : Element) : M unit :=
  write enums_header ;;
  for_each (iter root "enums") (fun enum =>
    name <- lift (some_or AttributeError (get enum "name")) ;;
    let enum_name := remove_prefix (Py.replace " " "_" name) in
    enum_mems <- lift (mapE (enum_member items)
                        (filter (fun m => String.eqb (tag m) "enum") (children enum))) ;;
    write (EnumDecl enum_name enum_mems) ;;
    effect (Defined enum_name)).

Definition parse_enums : Element -> M unit := parse_enums_with TYPES_SUFFIX.

Definition extract_return_type (text : string) : string :=
  map_ctypes (Py.strip (Py.replace "(VKAPI_PTR *" "" (Py.replace "typedef" "" text))).

Definition parse_funcpointers (root : Element) : M unit :=
  write funcpointers_header ;;
  ptrs <- lift (filter_types root "funcpointer") ;;
  for_each ptrs (fun ptr =>
    name <- lift (name_of ptr) ;;
    match iter ptr "type" with
    | [] => lift (Raise StopIteration)
    | return_node :: ptrs_args_types =>
        return_text <- lift (some_or AttributeError (text return_node)) ;;
        let return_v := extract_return_type return_text in
        ptrs_args_types <- lift (mapE map_ctypes_elem ptrs_args_types) ;;
        write (PrototypeDecl name ptrs_args_types return_v) ;;
        effect (Defined name)
    end) ;;
  write (Text Py.nl).

Fixpoint count_char (c : ascii) (s : string) : nat :=
  match s with
  | EmptyString => 0
  | String d r => (if Ascii.eqb c d then 1 else 0) + count_char c r
  end.

Definition parse_structure_member (struct_mem : Element) : Outcome (string * string) :=
  let type_node := find struct_mem "type" in
  let name_node := find struct_mem "name" in
  type_node <~ some_or AttributeError type_node ;;
  mem_type <~ map_ctypes_text (text type_node) ;;
  name_node <~ some_or AttributeError name_node ;;
  name_text <~ some_or TypeError (text name_node) ;;
  let mem_name := pythonize_field_name name_text in
  let mem_type :=
    match tail type_node with
    | Some tl => Nat.iter (count_char "*" tl) format_pointer mem_type
    | None => mem_type
    end in
  let name_tail := match truthy (tail name_node) with Some tl => tl | None => " " end in
  match find struct_mem "enum" with
  | Some array_length =>
      (* the array length is an enum *)
      array_length <~ some_or AttributeError (text array_length) ;;
      Ok (mem_name, format_array mem_type (remove_prefix array_length))
  | None =>
      if Py.startswith name_tail "["
      then (* the array length is a literal *)
           Ok (mem_name,
               format_array mem_type (Py.replace "]" "" (Py.replace "[" "" name_tail)))
      else Ok (mem_name, mem_type)
  end.

(** [map_ctypes(mem.find('type').text)], the name line 479 tests *)
Definition member_type (mem : Element) : Outcome string :=
  type_node <~ some_or AttributeError (find mem "type") ;;
  map_ctypes_text (text type_node).

(** [first( (s for s in filter_types(category) if s.get('name') == 'Vk'+t) )] *)
Definition declaration (root : Element) (category t : string) : Outcome (option Element) :=
  types <~ filter_types root category ;;
  Ok (first (filter (fun s => is_str (get s "name") ("Vk" ++ t)) types)).

(** [struct or union] *)
Definition or_ (struct union : option Element) : option Element :=
  match struct with
  | Some s => if truth s then struct else union
  | None => union
  end.

Definition is_None {A} (x : option A) : bool :=
  match x with None => true | Some _ => false end.

(** Lines 480-485, for a type name [t] that is not defined; [rec] is
    [parse_struct_or_enum] itself. *)
Definition resolve_dependency (rec : option Element -> bool -> M unit)
           (root : Element) (t : string) : M unit :=
  struct <- lift (declaration root "struct" t) ;;
  union <- lift (declaration root "union" t) ;;
  if is_None struct && is_None union
  then effect (Print (t ++ " was not found"))
  else rec (or_ struct union) (is_None union).

(** The loop of lines 478-485 *)
Fixpoint resolve_dependencies (rec : option Element -> bool -> M unit)
         (root : Element) (members : list Element) : M unit :=
  match members with
  | [] => ret tt
  | mem :: rest =>
      t <- lift (member_type mem) ;;
      log <- state ;;
      (if In_ t (DEFINED_IDENTIFIERS log) then ret tt
       else resolve_dependency rec root t) ;;
      resolve_dependencies rec root rest
  end.

(** [parse_struct_or_enum(struct, o, is_struct)]; [fuel] bounds the depth
    of the recursion.  The argument is [None] when line 485 passes the
    value of [struct or union] for a childless [struct] and no [union]. *)
Fixpoint parse_struct_or_enum (fuel : nat) (root : Element)
         (struct : option Element) (is_struct : bool) : M unit :=
  match fuel with
  | O => lift OutOfFuel
  | S fuel' =>
      struct <- lift (some_or AttributeError struct) ;;
      name <- lift (some_or AttributeError (get struct "name")) ;;
      let struct_name := remove_prefix name in
      log <- state ;;
      if In_ struct_name (DEFINED_IDENTIFIERS log) then ret tt
      else
        effect (Defined struct_name) ;;
        let members := iter struct "member" in
        resolve_dependencies (parse_struct_or_enum fuel' root) root members ;;
        struct_mems <- lift (mapE parse_structure_member members) ;;
        write (StructDecl is_struct struct_name members struct_mems)
  end.

(** The [struct] and [union] declarations of the document *)
Definition structures_and_unions (root : Element) : list Element :=
  match find root "types" with
  | Some types =>
      filter (fun t => is_str (get t "category") "struct"
                       || is_str (get t "category") "union") (children types)
  | None => []
  end.

(** A depth the recursion of [parse_struct_or_enum] cannot reach: each
    call below the first registers a declared structure or union that was
    not registered.  (The interpreter's own limit on the depth of
    recursion is not modelled.) *)
Definition depth_bound (root : Element) : nat :=
  S (S (List.length (structures_and_unions root))).

Definition parse_structures_and_unions (root : Element) : M unit :=
  write structures_header ;;
  structs <- lift (filter_types root "struct") ;;
  for_each structs (fun struct =>
    parse_struct_or_enum (depth_bound root) root (Some struct) true) ;;
  unions <- lift (filter_types root "union") ;;
  for_each unions (fun union =>
    parse_struct_or_enum (depth_bound root) root (Some union) true).

Definition parse_command_argument_type (argtype : Element) : Outcome string :=
  cmd_arg_type <~ map_ctypes_text (text argtype) ;;
  is_pointer <~ match tail argtype with
                | Some tl => c <~ head_char tl ;; Ok (String.eqb c "*")
                | None => Ok false
                end ;;
  let cmd_arg_type := if is_pointer then format_pointer cmd_arg_type else cmd_arg_type in
  Ok (format COMMAND_ARGS_TEMPLATE [("COMMAND_ARG_TYPE", cmd_arg_type)]).

(** [[p.find('type') for p in command.iter('param') if p.find('type') is not None]] *)
Definition command_params_types (command : Element) : list Element :=
  flat_map (fun p => match find p "type" with Some t => [t] | None => [] end)
           (iter command "param").

(** What one turn of the loop of [parse_commands] computes for a command:
    the tuple kept for vkGetInstanceProcAddr, or the family and the
    formatted definition of any other command. *)
Inductive Grouped : Type :=
| Bootstrap (info : string * string * string)
| Member (group_key cmd : string).

Definition group_command (handle_names : list string) (command : Element) : Outcome Grouped :=
  proto <~ some_or TypeError (find command "proto") ;;
  match children proto with
  | [command_type; command_name] =>
      command_type <~ map_ctypes_text (text command_type) ;;
      let command_name := text command_name in
      let _command_params := command_params_types command in
      command_params <~ mapE parse_command_argument_type _command_params ;;
      let command_params := Py.join command_params in
      if is_str command_name "vkGetInstanceProcAddr"
      then
        name <~ some_or AttributeError command_name ;;
        Ok (Bootstrap (remove_prefix name, command_type, command_params))
      else
        first_param <~ some_or IndexError (hd_error _command_params) ;;
        group_key <~ map_ctypes_text (text first_param) ;;
        let cmd := format COMMAND_DEFINITION_TEMPLATE
                     [("COMMAND_NAME", str_of command_name);
                      ("COMMAND_RETURN", command_type);
                      ("COMMAND_ARGS", command_params)] in
        let group_key :=
          if negb (In_ group_key handle_names) then "Loader"
          else if is_str command_name "vkGetDeviceProcAddr" then "Instance"
          else group_key in
        Ok (Member group_key cmd)
  | _ => Raise ValueError
  end.

(** [commands_groups]: the keys with their lists, in the order in which the
    keys were inserted. *)
Definition Groups : Type := list (string * list string).

Fixpoint groups_add (group_key cmd : string) (commands_groups : Groups) : Groups :=
  match commands_groups with
  | [] => [(group_key, [cmd])]
  | (k, cmds) :: r =>
      if String.eqb k group_key then (k, (cmds ++ [cmd])%list) :: r
      else (k, cmds) :: groups_add group_key cmd r
  end.

(** The loop of lines 521-549, from the given values of
    [get_instance_proc_addr_info] and [commands_groups]. *)
Fixpoint group_commands (handle_names : list string) (commands : list Element)
         (info : option (string * string * string)) (commands_groups : Groups)
  : Outcome (option (string * string * string) * Groups) :=
  match commands with
  | [] => Ok (info, commands_groups)
  | command :: rest =>
      g <~ group_command handle_names command ;;
      match g with
      | Bootstrap i => group_commands handle_names rest (Some i) commands_groups
      | Member group_key cmd =>
          group_commands handle_names rest info (groups_add group_key cmd commands_groups)
      end
  end.

(** [parse_commands]; [items] is the order in which [commands_groups.items()]
    iterates over the dictionary. *)
Definition parse_commands_with (items : Groups -> Groups) (root : Element) : M unit :=
  write commands_header ;;
  commands <- lift (some_or TypeError (find root "commands")) ;;
  log <- state ;;
  r <- lift (group_commands (HANDLE_NAMES log) (children commands) None []) ;;
  let '(get_instance_proc_addr_info, commands_groups) := r in
  for_each (items commands_groups) (fun '(cmd_family, cmds) =>
    write (CommandFamily cmd_family cmds)) ;;
  info <- lift (some_or TypeError get_instance_proc_addr_info) ;;
  let '(name, _type, params) := info in
  write (GetInstanceProcAddr name _type params).

(** [parse_commands] where a dictionary iterates in insertion order, as it
    does since Python 3.7 *)
Definition parse_commands : Element -> M unit :=
  parse_commands_with (fun commands_groups => commands_groups).

(** [x.get('value') or parse_bitpos(x.get('bitpos')) or parse_offset(x, offset)] *)
Definition value_or_offset_or_bitpos (x : Element) (offset : Z) : Outcome string :=
  match truthy (get x "value") with
  | Some v => Ok v
  | None =>
      match get x "bitpos" with
      | Some bitpos => Ok ("1<<" ++ bitpos)
      | None => parse_offset x offset
      end
  end.

(** The offset of an extension, line 575 *)
Definition extension_offset (extension : Element) : Outcome Z :=
  number <~ int_ (get extension "number") ;;
  Ok (1000000000 + ((number - 1) * 1000))%Z.

Definition extension_member (offset : Z) (e : Element) : Outcome (string * string) :=
  n <~ some_or AttributeError (get e "name") ;;
  v <~ value_or_offset_or_bitpos e offset ;;
  Ok (remove_prefix n, remove_prefix v).

Definition parse_extensions (root : Element) : M unit :=
  write extensions_header ;;
  extensions <- lift (some_or AttributeError (find root "extensions")) ;;
  for_each (iter extensions "extension") (fun extension =>
    require <- lift (some_or AttributeError (find extension "require")) ;;
    enum <- lift (some_or AttributeError (find require "enum")) ;;
    if is_str (get enum "value") "0" then ret tt (* placeholder extension *)
    else
      let extension_name := get extension "name" in
      offset <- lift (extension_offset extension) ;;
      enum_mems <- lift (mapE (extension_member offset) (iter require "enum")) ;;
      write (ExtensionDecl (str_of extension_name) enum_mems)).

Definition add_post_initialization : M unit :=
  write (Text (Py.nl ++ Py.nl ++ POST_INITIALIZATION_TEMPLATE ++ Py.nl)).

(** [export], between [begin_generation] and [end_generation].  [suffixes]
    is the order in which [TYPES_SUFFIX] is iterated, [families] the order
    in which [commands_groups] is. *)
Definition export_in (suffixes : list (string * string)) (families : Groups -> Groups)
           (root : Element) : M unit :=
  add_imports ;;
  add_initialization ;;
  parse_basetypes root ;;
  parse_handles root ;;
  parse_flags root ;;
  parse_enums_with suffixes root ;;
  parse_funcpointers root ;;
  parse_structures_and_unions root ;;
  parse_commands_with families root ;;
  parse_extensions root ;;
  add_post_initialization.

(** [export] where [commands_groups] is iterated in insertion order *)
Definition export_with (items : list (string * string)) : Element -> M unit :=
  export_in items (fun commands_groups => commands_groups).

(** One run of the script on a document: the globals are those of a fresh
    interpreter. *)
Definition export (root : Element) : Outcome unit * Log := export_with TYPES_SUFFIX root [].

(** ** Vocabulary of the properties *)

(** *** Outcomes *)

(** The computation gives a Python outcome: a value or an exception. *)
Definition terminates {A} (m : M A) : Prop :=
  forall log, fst (m log) <> OutOfFuel.

(** *** Commands *)

(** The children of the [commands] element *)
Definition commands_of (root : Element) : list Element :=
  match find root "commands" with
  | Some commands => children commands
  | None => []
  end.

(** The text of the second child of [proto]: the name of a command *)
Definition command_name (command : Element) : option string :=
  match find command "proto" with
  | Some proto =>
      match children proto with
      | [_; name] => text name
      | _ => None
      end
  | None => None
  end.

(** [commands_groups[key]], empty for a key that is absent *)
Definition family (key : string) (commands_groups : Groups) : list string :=
  flat_map (fun kc => if String.eqb (fst kc) key then snd kc else []) commands_groups.

(** The definitions of the commands that the loop assigns to [key], in
    document order *)
Definition assigned_to (handle_names : list string) (key : string)
           (commands : list Element) : list string :=
  flat_map (fun c => match group_command handle_names c with
                     | Ok (Member k cmd) => if String.eqb k key then [cmd] else []
                     | _ => []
                     end) commands.

(** The keys the loop assigns to the commands, in document order *)
Definition assigned_keys (handle_names : list string) (commands : list Element)
  : list string :=
  flat_map (fun c => match group_command handle_names c with
                     | Ok (Member k _) => [k]
                     | _ => []
                     end) commands.

(** The keys that are not in [seen], each at its first occurrence *)
Fixpoint first_seen (keys seen : list string) : list string :=
  match keys with
  | [] => []
  | k :: r =>
      if In_ k seen then first_seen r seen else k :: first_seen r (k :: seen)
  end.

(** [map_ctypes(_command_params[0].text)] *)
Definition first_parameter_type (command : Element) : option string :=
  match hd_error (command_params_types command) with
  | Some p => option_map map_ctypes (text p)
  | None => None
  end.

(** The claim that the family keys are the handle names and "Loader" *)
Definition keys_are_handles_and_Loader (handle_names : list string)
           (commands_groups : Groups) : Prop :=
  forall key, In key (map fst commands_groups)
              <-> (In key handle_names \/ key = "Loader").

(** *** Literal suffixes *)

(** [s[-1]], when there is one *)
Fixpoint last_char (s : string) : option ascii :=
  match s with
  | EmptyString => None
  | String c EmptyString => Some c
  | String _ r => last_char r
  end.

(** *** Resolution *)

(** What line 483 prints for the type name [t] *)
Definition not_found (t : string) : Effect := Print (t ++ " was not found").

(** [t] names no declared structure and no declared union. *)
Definition undeclared (root : Element) (t : string) : Prop :=
  declaration root "struct" t = Ok None /\ declaration root "union" t = Ok None.

(** The warnings for those of [types] that are not in [defined] *)
Definition warnings (defined types : list string) : Log :=
  map not_found (filter (fun t => negb (In_ t defined)) types).

(** A declared structure or union that a member type can still lead to:
    its name is "Vk" followed by a name that is not defined. *)
Definition unresolved (defined : list string) (e : Element) : bool :=
  match get e "name" with
  | Some n => Py.startswith n "Vk" && negb (In_ (Py.drop 2 n) defined)
  | None => false
  end.

(** How many there are: what decreases along the recursion *)
Definition pending (root : Element) (defined : list string) : nat :=
  List.length (filter (unresolved defined) (structures_and_unions root)).

(** *** Effects in their order

    The properties about what is registered and written when speak of an
    effect [e] of a run and of what came before it: [base] is the state
    the run started from, [pre] the effects of the run before [e]. *)

(** Effects of a computation are appended, and all satisfy [G]. *)
Definition emits (G : Effect -> Prop) {A} (m : M A) : Prop :=
  forall log, exists ext, snd (m log) = (log ++ ext)%list /\ Forall G ext.

(** The effects of the resolution: names, warnings, declarations of
    structures and unions *)
Definition resolver_effect (e : Effect) : Prop :=
  match e with
  | Defined _ | Print _ | Write (StructDecl _ _ _ _) => True
  | _ => False
  end.

(** The stage a chunk belongs to, in the order in which [export] calls the
    parsing functions; titles and fixed texts belong to none. *)
Definition stage (c : Chunk) : option nat :=
  match c with
  | Text _ => None
  | BasetypeDecl _ _ => Some 0
  | HandleDecl _ _ => Some 1
  | FlagDecl _ => Some 2
  | EnumDecl _ _ => Some 3
  | PrototypeDecl _ _ _ => Some 4
  | StructDecl _ _ _ _ => Some 5
  | CommandFamily _ _ => Some 6
  | GetInstanceProcAddr _ _ _ => Some 6
  | ExtensionDecl _ _ => Some 7
  end.

(** The stages of chunks, in order, for a numbering [f] of the stages *)
Definition chunk_stages (f : Chunk -> option nat) (chunks : list Chunk) : list nat :=
  flat_map (fun c => match f c with Some k => [k] | None => [] end) chunks.

Definition stages (log : Log) : list nat := chunk_stages stage (written log).

(** The numbering of the stages with the handles before the basetypes *)
Definition handles_first (c : Chunk) : option nat :=
  match c with
  | HandleDecl _ _ => Some 0
  | BasetypeDecl _ _ => Some 1
  | _ => stage c
  end.

(** No chunk comes after a chunk of a later stage. *)
Definition in_stage_order (f : Chunk -> option nat) (chunks : list Chunk) : Prop :=
  forall pre c1 mid c2 post i j,
    chunks = (pre ++ c1 :: mid ++ c2 :: post)%list ->
    f c1 = Some i -> f c2 = Some j -> i <= j.

(** What stage [k] may write: its own chunks, titles and fixed texts *)
Definition stage_effect (k : nat) (e : Effect) : Prop :=
  match e with
  | Write c => match stage c with Some j => j = k | None => True end
  | _ => True
  end.

(** The chunks of [m] are of stages [lo] to [hi], in order. *)
Definition staged (lo hi : nat) {A} (m : M A) : Prop :=
  forall log, exists ext,
    snd (m log) = (log ++ ext)%list
    /\ StronglySorted le (stages ext)
    /\ Forall (fun k => lo <= k /\ k <= hi) (stages ext).

(** The chunk is the declaration of the identifier [n]. *)
Definition declares (c : Chunk) (n : string) : Prop :=
  match c with
  | HandleDecl m _ | BasetypeDecl m _ | FlagDecl m | EnumDecl m _
  | PrototypeDecl m _ _ | StructDecl _ m _ _ => m = n
  | _ => False
  end.

(** The names of the structures and unions whose declaration is written *)
Definition declared_names (log : Log) : list string :=
  flat_map (fun e => match e with
                     | Write (StructDecl _ n _ _) => [n]
                     | _ => []
                     end) log.

(** The identifiers whose declaration is written, of any kind *)
Definition chunk_names (log : Log) : list string :=
  flat_map (fun c => match c with
                     | HandleDecl n _ | BasetypeDecl n _ | FlagDecl n | EnumDecl n _
                     | PrototypeDecl n _ _ | StructDecl _ n _ _ => [n]
                     | _ => []
                     end) (written log).

(** The declaration of [n], not a structure or union, is the last thing
    written, and nothing but [HANDLE_NAMES.append(n)] came after it. *)
Definition just_declared (pre : Log) (n : string) : Prop :=
  (exists pre' c, pre = (pre' ++ [Write c])%list /\ declares c n /\ stage c <> Some 5)
  \/ (exists pre' t, pre = (pre' ++ [Write (HandleDecl n t); HandleName n])%list).

(** [n] was registered when it was not in the registry, and its
    declaration has not been written since. *)
Definition registered (base pre : Log) (n : string) : Prop :=
  exists pre1 pre2,
    pre = (pre1 ++ Defined n :: pre2)%list
    /\ ~ In n (DEFINED_IDENTIFIERS (base ++ pre1)%list)
    /\ ~ In n (declared_names pre2).

(** Every member type is in the registry or was reported as not found. *)
Definition members_resolved (base pre : Log) (members : list Element) : Prop :=
  forall m t, In m members -> member_type m = Ok t ->
              In t (DEFINED_IDENTIFIERS (base ++ pre)%list) \/ In (not_found t) pre.

Definition step_ok (base pre : Log) (e : Effect) : Prop :=
  match e with
  | Defined n => just_declared pre n \/ ~ In n (DEFINED_IDENTIFIERS (base ++ pre)%list)
  | Write (StructDecl _ n members struct_mems) =>
      registered base pre n
      /\ members_resolved base pre members
      /\ mapE parse_structure_member members = Ok struct_mems
  | _ => True
  end.

(** Every effect of [ext], which follows [pre], is [step_ok]. *)
Fixpoint trace_ok (base pre ext : Log) : Prop :=
  match ext with
  | [] => True
  | e :: r => step_ok base pre e /\ trace_ok base (pre ++ [e])%list r
  end.

(** Every name registered in [ext], which follows [pre], has its
    declaration: just before, or later. *)
Fixpoint completed_from (pre ext : Log) : Prop :=
  match ext with
  | [] => True
  | e :: r =>
      match e with
      | Defined n => just_declared pre n \/ In n (declared_names r)
      | _ => True
      end
      /\ completed_from (pre ++ [e])%list r
  end.

Definition completed (ext : Log) : Prop := completed_from [] ext.

(** The effects of [m] are appended and [trace_ok]; they are [completed]
    when [m] returns. *)
Definition generates {A} (m : M A) : Prop :=
  forall log, exists ext,
    snd (m log) = (log ++ ext)%list
    /\ trace_ok log [] ext
    /\ (forall a, fst (m log) = Ok a -> completed ext).

(** What is proved of [parse_struct_or_enum] by induction on the depth:
    its effects are in order, and when it returns, they are completed
    and the name of its argument is in the registry. *)
Definition resolves (rec : option Element -> bool -> M unit) : Prop :=
  forall s b log, exists ext,
    snd (rec s b log) = (log ++ ext)%list
    /\ trace_ok log [] ext
    /\ (fst (rec s b log) = Ok tt ->
        completed ext
        /\ exists e n, s = Some e /\ get e "name" = Some n
                       /\ In (remove_prefix n) (DEFINED_IDENTIFIERS (log ++ ext)%list)).



(** The claim that an identifier enters the registry once, right after its
    declaration is written *)
Definition registered_after_declaration (log : Log) : Prop :=
  forall pre n post,
    log = (pre ++ Defined n :: post)%list ->
    ~ In n (DEFINED_IDENTIFIERS pre)
    /\ exists pre' c,
         declares c n
         /\ (pre = (pre' ++ [Write c])%list
             \/ pre = (pre' ++ [Write c; HandleName n])%list).

(** *** The order of the families *)

(** An order in which a dictionary may iterate: every item, once. *)
Definition iteration_order (items : Groups -> Groups) : Prop :=
  forall commands_groups, Permutation (items commands_groups) commands_groups.

(** What line 553 writes, one block per family *)
Definition family_blocks (commands_groups : Groups) : Log :=
  map (fun g => Write (CommandFamily (fst g) (snd g))) commands_groups.

(** Any effect but the block of a family *)
Definition not_a_family_block (e : Effect) : Prop :=
  match e with Write (CommandFamily _ _) => False | _ => True end.

(** Whatever the order [items], [m] ends in the same way and appends the
    same effects, but for the blocks of the families [commands_groups],
    which come in the order [items]. *)
Definition family_ordered {A} (m : (Groups -> Groups) -> M A) : Prop :=
  forall log, exists out pre commands_groups post,
    Forall not_a_family_block pre /\ Forall not_a_family_block post
    /\ forall items, iteration_order items ->
         m items log
         = (out, (log ++ pre ++ family_blocks (items commands_groups) ++ post)%list).

(** The claim that the characters written do not depend on the order in
    which the dictionaries are iterated *)
Definition independent_of_iteration_order (root : Element) : Prop :=
  forall suffixes1 suffixes2 families1 families2,
    Permutation TYPES_SUFFIX suffixes1 -> Permutation TYPES_SUFFIX suffixes2 ->
    iteration_order families1 -> iteration_order families2 ->
    file_contents (snd (export_in suffixes1 families1 root []))
    = file_contents (snd (export_in suffixes2 families2 root [])).

(** ** Example documents *)

(** Builders of documents *)
Definition node (tag : string) (attrib : list (string * string))
           (children : list Element) : Element :=
  mkElement tag attrib None None children.

Definition leaf (tag text : string) : Element :=
  mkElement tag [] (Some text) None [].

Definition handle_decl (name : string) : Element :=
  node "type" [("category", "handle")]
       [mkElement "type" [] (Some "VK_DEFINE_HANDLE") (Some "(") [];
        mkElement "name" [] (Some name) (Some ")") []].

Definition param_decl (type name : string) : Element :=
  node "param" [] [leaf "type" type; leaf "name" name].

Definition command_decl (type name : string) (params : list Element) : Element :=
  node "command" [] (node "proto" [] [leaf "type" type; leaf "name" name] :: params).

Definition member_decl (type name : string) : Element :=
  node "member" [] [leaf "type" type; leaf "name" name].

Definition struct_decl (category name : string) (members : list Element) : Element :=
  node "type" [("category", category); ("name", name)] members.

Definition extension_5 : Element :=
  mkElement "extension" [("name", "VK_KHR_example"); ("number", "5")] None None [].

Definition negative_member (offset : string) : Element :=
  mkElement "enum" [("offset", offset); ("dir", "-"); ("name", "VK_ERROR_EXAMPLE")]
            None None [].

(** Three handles and four commands; no command takes a VkSemaphore first. *)
Definition doc_commands : Element :=
  node "registry" []
    [node "types" []
       [handle_decl "VkInstance"; handle_decl "VkDevice"; handle_decl "VkSemaphore"];
     node "commands" []
       [command_decl "VkResult" "vkCreateInstance"
          [param_decl "VkInstanceCreateInfo" "pCreateInfo"];
        command_decl "PFN_vkVoidFunction" "vkGetInstanceProcAddr"
          [param_decl "VkInstance" "instance"; param_decl "char" "pName"];
        command_decl "PFN_vkVoidFunction" "vkGetDeviceProcAddr"
          [param_decl "VkDevice" "device"; param_decl "char" "pName"];
        command_decl "void" "vkDestroyDevice"
          [param_decl "VkDevice" "device"]]].

(** The same without the bootstrap command *)
Definition doc_no_bootstrap : Element :=
  node "registry" []
    [node "types" [] [handle_decl "VkInstance"];
     node "commands" []
       [command_decl "VkResult" "vkCreateInstance"
          [param_decl "VkInstanceCreateInfo" "pCreateInfo"];
        command_decl "void" "vkDestroyInstance"
          [param_decl "VkInstance" "instance"]]].

(** What the loop of [parse_commands] computes for [doc_commands] *)
Definition doc_commands_info : option (string * string * string) :=
  Eval vm_compute in
    match group_commands ["Instance"; "Device"; "Semaphore"]
                         (commands_of doc_commands) None [] with
    | Ok (info, _) => info
    | _ => None
    end.

Definition doc_commands_groups : Groups :=
  Eval vm_compute in
    match group_commands ["Instance"; "Device"; "Semaphore"]
                         (commands_of doc_commands) None [] with
    | Ok (_, groups) => groups
    | _ => []
    end.

(** The definitions of the family "Loader" of [doc_commands] *)
Definition doc_commands_loader : list string := family "Loader" doc_commands_groups.

(** One structure with a member of the undeclared type int *)
Definition doc_missing : Element :=
  node "registry" []
    [node "types" []
       [struct_decl "struct" "VkOffset" [member_decl "int" "x"; member_decl "float" "y"]]].

Definition VkOffset : Element :=
  struct_decl "struct" "VkOffset" [member_decl "int" "x"; member_decl "float" "y"].

(** Two structures and a union in a cycle *)
Definition doc_cycle : Element :=
  node "registry" []
    [node "types" []
       [struct_decl "struct" "VkFirst" [member_decl "VkSecond" "second"];
        struct_decl "struct" "VkSecond" [member_decl "VkThird" "third"];
        struct_decl "union" "VkThird" [member_decl "VkFirst" "first"]]].

Definition VkFirst : Element :=
  struct_decl "struct" "VkFirst" [member_decl "VkSecond" "second"].






(** A document with a declaration of every kind: VkA and VkB refer to each
    other, VkA has a member of the undeclared type int, and the second
    extension is a placeholder. *)
Definition doc_sample : Element :=
  node "registry" []
    [node "types" []
       [mkElement "type" [("category", "basetype")] (Some "typedef ") None
          [mkElement "type" [] (Some "uint32_t") (Some " ") [];
           mkElement "name" [] (Some "VkFlags") (Some ";") []];
        handle_decl "VkInstance";
        mkElement "type" [("category", "handle")] None None
          [mkElement "type" [] (Some "VK_DEFINE_NON_DISPATCHABLE_HANDLE") (Some "(") [];
           mkElement "name" [] (Some "VkSemaphore") (Some ")") []];
        mkElement "type" [("category", "bitmask")] (Some "typedef ") None
          [mkElement "type" [] (Some "VkFlags") (Some " ") [];
           mkElement "name" [] (Some "VkQueueFlags") (Some ";") []];
        mkElement "type" [("category", "funcpointer")]
          (Some "typedef void* (VKAPI_PTR *") None
          [mkElement "name" [] (Some "PFN_vkAllocationFunction") (Some ")(") [];
           mkElement "type" [] (Some "void") (Some "*   pUserData,") [];
           mkElement "type" [] (Some "size_t") (Some "   size);") []];
        struct_decl "struct" "VkA"
          [member_decl "VkB" "b";
           node "member" []
             [mkElement "type" [] (Some "void") (Some "* ") []; leaf "name" "pNext"];
           node "member" []
             [leaf "type" "float";
              mkElement "name" [] (Some "blendConstants") (Some "[4]") []];
           member_decl "int" "x"];
        struct_decl "struct" "VkB"
          [node "member" []
             [mkElement "type" [] (Some "VkA") (Some "* ") []; leaf "name" "pA"];
           member_decl "VkU" "u";
           node "member" []
             [leaf "type" "char";
              mkElement "name" [] (Some "deviceName") (Some "[") [];
              mkElement "enum" [] (Some "VK_MAX_NAME") (Some "]") []]];
        struct_decl "union" "VkU"
          [node "member" []
             [leaf "type" "uint32_t";
              mkElement "name" [] (Some "uint32") (Some "[4]") []]]];
     node "enums" [("name", "API Constants")]
       [node "enum" [("value", "256"); ("name", "VK_MAX_NAME")] [];
        node "enum" [("value", "(~0U)"); ("name", "VK_REMAINING_LEVELS")] [];
        node "enum" [("value", "1000.0f"); ("name", "VK_LOD_CLAMP_NONE")] [];
        node "enum" [("value", "(~0ULL)"); ("name", "VK_WHOLE_SIZE")] []];
     node "enums" [("name", "VkQueueFlagBits")]
       [node "enum" [("bitpos", "3"); ("name", "VK_QUEUE_SPARSE_BINDING_BIT")] []];
     node "commands" []
       [command_decl "VkResult" "vkCreateInstance"
          [param_decl "VkInstanceCreateInfo" "pCreateInfo"];
        command_decl "PFN_vkVoidFunction" "vkGetInstanceProcAddr"
          [param_decl "VkInstance" "instance"; param_decl "char" "pName"];
        command_decl "void" "vkDestroyInstance"
          [param_decl "VkInstance" "instance"]];
     node "extensions" []
       [node "extension" [("name", "VK_KHR_example"); ("number", "5")]
          [node "require" []
             [node "enum" [("value", "25"); ("name", "VK_KHR_EXAMPLE_SPEC_VERSION")] [];
              node "enum" [("offset", "1"); ("dir", "-"); ("name", "VK_ERROR_EXAMPLE")] [];
              node "enum" [("offset", "0"); ("name", "VK_EXAMPLE_ZERO")] [];
              node "enum" [("bitpos", "2"); ("name", "VK_EXAMPLE_BIT")] []]];
        node "extension" [("name", "VK_placeholder"); ("number", "6")]
          [node "require" []
             [node "enum" [("value", "0"); ("name", "VK_PLACEHOLDER_SPEC_VERSION")] []]]]].

(** The effects of the run on [doc_sample] *)
Definition sample_log : Log := Eval vm_compute in snd (export doc_sample).

(** ** Vocabulary of further properties *)

(** *** Names *)

(** An uppercase letter follows a character that is not one: the places
    where [to_snake_case] puts an underscore. *)
Fixpoint camel_boundary (name : string) : bool :=
  match name with
  | String a (String b _ as r) =>
      (negb (Py.is_upper a) && Py.is_upper b) || camel_boundary r
  | _ => false
  end.

(** The characters of a name other than the underscore, in lower case *)
Definition letters (name : string) : list ascii :=
  map Py.lower (filter (fun c => negb (Ascii.eqb c "_")) (list_ascii_of_string name)).

(** *** The type of a field *)

(** [ptr_level], lines 446 and 447: the number of stars in the text after
    the type, none when there is no text *)
Definition ptr_level (type_node : Element) : nat :=
  match tail type_node with
  | Some tl => count_char "*" tl
  | None => 0
  end.

(** [name_node.tail or ' '], line 452 *)
Definition name_tail (name_node : Element) : string :=
  match truthy (tail name_node) with
  | Some tl => tl
  | None => " "
  end.

(** *** Handles and the registry *)

(** Any effect but [HANDLE_NAMES.append] *)
Definition not_a_handle_name (e : Effect) : Prop :=
  match e with HandleName _ => False | _ => True end.

(** The effects of [m] are appended, and together satisfy [P]. *)
Definition appends (P : Log -> Prop) {A} (m : M A) : Prop :=
  forall log, exists ext, snd (m log) = (log ++ ext)%list /\ P ext.

(** Any effect but [DEFINED_IDENTIFIERS.append] *)
Definition not_a_registration (e : Effect) : Prop :=
  match e with Defined _ => False | _ => True end.

(** The names of the declarations of types that are written: those of the
    handles, basetypes, bitmasks, enumerations, function-pointer types,
    structures and unions.  The output assigns other names, which are not
    among them: the members of the enumerations and of the extensions, the
    tuples of the families, the function of the bootstrap command, and
    the names of the fixed texts. *)
Definition entity_names (log : Log) : list string :=
  flat_map (fun c => match c with
                     | HandleDecl n _ | BasetypeDecl n _ | FlagDecl n | EnumDecl n _
                     | PrototypeDecl n _ _ | StructDecl _ n _ _ => [n]
                     | Text _ | CommandFamily _ _ | GetInstanceProcAddr _ _ _
                     | ExtensionDecl _ _ => []
                     end) (written log).

(** Among the effects [ext], every handle name and every identifier whose
    declaration is written is also registered. *)
Definition names_registered (ext : Log) : Prop :=
  (forall n, In n (HANDLE_NAMES ext) -> In n (defined_in ext))
  /\ (forall n, In n (chunk_names ext) -> In n (defined_in ext)).

(** *** Structures and unions of the document *)

(** [t] is the type name of a member of a structure or union of the
    document. *)
Definition referenced (root : Element) (t : string) : Prop :=
  exists e m,
    In e (structures_and_unions root) /\ In m (iter e "member")
    /\ member_type m = Ok t.

(** A declaration of a structure or union is that of an element of the
    document, with its members; one written with the templates of the
    unions has a name that is the type of a member.  A line printed is the
    warning for the type of a member that names no declared structure and
    no declared union. *)
Definition from_document (root : Element) (e : Effect) : Prop :=
  match e with
  | Write (StructDecl is_struct n ms _) =>
      (exists s name,
          In s (structures_and_unions root) /\ get s "name" = Some name
          /\ n = remove_prefix name /\ ms = iter s "member")
      /\ (is_struct = false -> referenced root n)
  | Print s =>
      exists t, s = (t ++ " was not found")%string
                /\ referenced root t /\ undeclared root t
  | _ => True
  end.

(** What holds of the arguments of every call of [parse_struct_or_enum]:
    the element is one of the document, and the templates of the unions
    are only asked for the type of a member. *)
Definition of_document (root : Element) (struct : option Element) (is_struct : bool) : Prop :=
  (forall e, struct = Some e -> In e (structures_and_unions root))
  /\ (is_struct = false ->
      forall e n, struct = Some e -> get e "name" = Some n ->
                  referenced root (remove_prefix n)).

(** A structure without children, and a structure with a member of that
    type *)
Definition VkEmpty : Element := struct_decl "struct" "VkEmpty" [].

Definition VkHolder : Element :=
  struct_decl "struct" "VkHolder" [member_decl "float" "x"; member_decl "VkEmpty" "empty"].

Definition doc_childless : Element :=
  node "registry" [] [node "types" [] [VkHolder; VkEmpty]].

(** A union that is the type of no member, after a structure *)
Definition VkClearColor : Element :=
  struct_decl "union" "VkClearColor" [member_decl "float" "float32"; member_decl "int32_t" "int32"].

Definition doc_union : Element :=
  node "registry" []
    [node "types" []
       [struct_decl "struct" "VkExtent" [member_decl "uint32_t" "width"]; VkClearColor]].

(** *** The bootstrap command and the extensions *)

(** The tuples the loop of [parse_commands] keeps for the commands named
    vkGetInstanceProcAddr, in document order *)
Definition bootstraps (handle_names : list string) (commands : list Element)
  : list (string * string * string) :=
  flat_map (fun c => match group_command handle_names c with
                     | Ok (Bootstrap i) => [i]
                     | _ => []
                     end) commands.

(** The test of line 570, on an extension that has a [require] with an
    [enum] *)
Definition is_placeholder (extension : Element) : bool :=
  match find extension "require" with
  | Some require =>
      match find require "enum" with
      | Some enum => is_str (get enum "value") "0"
      | None => false
      end
  | None => false
  end.

(** Two commands before the bootstrap command, the second without
    parameters *)
Definition doc_no_parameter : Element :=
  node "registry" []
    [node "types" [] [handle_decl "VkInstance"];
     node "commands" []
       [command_decl "VkResult" "vkCreateInstance"
          [param_decl "VkInstanceCreateInfo" "pCreateInfo"];
        command_decl "void" "vkNothing" [];
        command_decl "PFN_vkVoidFunction" "vkGetInstanceProcAddr"
          [param_decl "VkInstance" "instance"; param_decl "char" "pName"]]].

(** *** Functions that do not read the state *)

(** The outcome of [m] and the effects it appends are the same in every
    state. *)
Definition reads_no_state {A} (m : M A) : Prop :=
  exists out ext, forall log, m log = (out, (log ++ ext)%list).

(** * Properties *)

Local Open Scope list_scope.

Arguments DEFINED_IDENTIFIERS : simpl never.
Arguments remove_prefix : simpl never.
Arguments map_ctypes : simpl never.
Arguments parse_structure_member : simpl never.
Arguments member_type : simpl never.
Arguments declaration : simpl never.
Arguments group_command : simpl never.

(** ** Checks of the embedding on known values *)

Example str_of_int_negative : Py.str_of_int (-1000004000) = "-1000004000"%string.
Proof. reflexivity. Qed.

Example str_of_int_zero : Py.str_of_int 0 = "0"%string.
Proof. reflexivity. Qed.

Example int_of_str_spellings :
  Py.int_of_str "5" = Some 5%Z /\ Py.int_of_str " -12 " = Some (-12)%Z
  /\ Py.int_of_str "" = None /\ Py.int_of_str "1x" = None
  /\ Py.int_of_str "1_000" = Some 1000%Z /\ Py.int_of_str "1__0" = None
  /\ Py.int_of_str "_1" = None /\ Py.int_of_str "1_" = None
  /\ Py.int_of_str "-" = None
  /\ Py.int_of_str (String (ascii_of_nat 28) "1") = None.
Proof. repeat split. Qed.

Example to_snake_case_names :
  to_snake_case "sType" = "s_type"%string
  /\ to_snake_case "ppEnabledLayerNames" = "pp_enabled_layer_names"%string
  /\ to_snake_case "maxImageDimension2D" = "max_image_dimension2_D"%string
  /\ to_snake_case "PFN_vk" = "PFN_vk"%string.
Proof. repeat split. Qed.

Example pythonize_field_name_names :
  pythonize_field_name "pNext" = "next"%string
  /\ pythonize_field_name "ppEnabledLayerNames" = "enabled_layer_names"%string
  /\ pythonize_field_name "pfnAllocation" = "allocation"%string.
Proof. repeat split. Qed.

Example remove_prefix_names :
  remove_prefix "VkInstance" = "Instance"%string
  /\ remove_prefix "VK_MAX_NAME" = "MAX_NAME"%string
  /\ remove_prefix "vkCreateInstance" = "CreateInstance"%string
  /\ remove_prefix "PFN_vkVoidFunction" = "fn_VoidFunction"%string
  /\ remove_prefix "uint16_t" = "uint16_t"%string.
Proof. repeat split. Qed.

Example pythonize_value_literals :
  pythonize_value "(~0U)" = "c_uint(~0)"%string
  /\ pythonize_value "(~0ULL)" = "c_uint64(~0)"%string
  /\ pythonize_value "1000.0f" = "c_float(1000.0)"%string
  /\ pythonize_value "256" = "256"%string.
Proof. repeat split. Qed.

Example format_pointer_types :
  format_pointer "None" = "c_void_p"%string
  /\ format_pointer "c_char" = "c_char_p"%string
  /\ format_pointer "Instance" = "POINTER(Instance)"%string.
Proof. repeat split. Qed.

Example render_structure :
  render (StructDecl true "Offset" [] [("x", "c_int"); ("y", "c_int")])
  = ("Offset = define_structure('Offset'," ++ Py.nl
     ++ "    ('x', c_int)," ++ Py.nl
     ++ "    ('y', c_int)," ++ Py.nl
     ++ ")" ++ Py.nl ++ Py.nl)%string.
Proof. reflexivity. Qed.

Example render_family :
  render (CommandFamily "Loader" doc_commands_loader)
  = ("LoaderFunctions = (" ++ Py.nl
     ++ "    (b'vkCreateInstance', Result, InstanceCreateInfo, )," ++ Py.nl
     ++ ")" ++ Py.nl ++ Py.nl)%string.
Proof. reflexivity. Qed.

Example export_of_the_sample :
  fst (export doc_sample) = Ok tt
  /\ printed (snd (export doc_sample)) = ["int was not found"]%string
  /\ HANDLE_NAMES (snd (export doc_sample)) = ["Instance"; "Semaphore"]%string
  /\ declared_names (snd (export doc_sample)) = ["U"; "B"; "A"]%string.
Proof. vm_compute. repeat split. Qed.

(** ** Running a computation *)

Lemma bind_Ok {A B} (m : M A) (k : A -> M B) log a log1 :
  m log = (Ok a, log1) -> bind m k log = k a log1.
Proof. intros H. unfold bind. now rewrite H. Qed.

Lemma bind_Raise {A B} (m : M A) (k : A -> M B) log e log1 :
  m log = (Raise e, log1) -> bind m k log = (Raise e, log1).
Proof. intros H. unfold bind. now rewrite H. Qed.

Lemma bind_ret {A B} (a : A) (k : A -> M B) log : bind (ret a) k log = k a log.
Proof. reflexivity. Qed.

Lemma bind_effect {B} (e : Effect) (k : unit -> M B) log :
  bind (effect e) k log = k tt (log ++ [e]).
Proof. reflexivity. Qed.

Lemma bind_write {B} (c : Chunk) (k : unit -> M B) log :
  bind (write c) k log = k tt (log ++ [Write c]).
Proof. reflexivity. Qed.

Lemma bind_state {B} (k : Log -> M B) log : bind state k log = k log log.
Proof. reflexivity. Qed.

Lemma bind_lift_Ok {A B} (a : A) (k : A -> M B) log : bind (lift (Ok a)) k log = k a log.
Proof. reflexivity. Qed.

Lemma bind_lift_Raise {A B} (e : Exn) (k : A -> M B) log :
  bind (lift (Raise e)) k log = (Raise e, log).
Proof. reflexivity. Qed.

Lemma bind_lift_OutOfFuel {A B} (k : A -> M B) log :
  bind (lift OutOfFuel) k log = (OutOfFuel, log).
Proof. reflexivity. Qed.

Lemma bind_cases {A B} (m : M A) (k : A -> M B) log out log' :
  bind m k log = (out, log') ->
  (exists a log1, m log = (Ok a, log1) /\ k a log1 = (out, log'))
  \/ (exists e, m log = (Raise e, log') /\ out = Raise e)
  \/ (m log = (OutOfFuel, log') /\ out = OutOfFuel).
Proof.
  unfold bind. destruct (m log) as [[a | e | ] log1]; intros H.
  - left. now exists a, log1.
  - right. left. exists e. now inversion H.
  - right. right. now inversion H.
Qed.

Lemma bind_ext {A B} (m : M A) (k1 k2 : A -> M B) log :
  (forall a log1, k1 a log1 = k2 a log1) -> bind m k1 log = bind m k2 log.
Proof.
  intros H. unfold bind. destruct (m log) as [[a | e | ] log1]; auto.
Qed.

Lemma for_each_ext {A} (xs : list A) (f g : A -> M unit) :
  (forall x log, f x log = g x log) ->
  forall log, for_each xs f log = for_each xs g log.
Proof.
  intros H. induction xs as [| x r IH]; intros log; simpl; auto.
  unfold bind. rewrite H. destruct (g x log) as [[a | e | ] log1]; auto.
Qed.

Lemma mapE_ext {A B} (f g : A -> Outcome B) (xs : list A) :
  (forall x, f x = g x) -> mapE f xs = mapE g xs.
Proof.
  intros H. induction xs as [| x r IH]; simpl; auto. now rewrite H, IH.
Qed.

(** ** Projections of the log *)

Lemma written_app (a b : Log) : written (a ++ b) = written a ++ written b.
Proof. unfold written. apply flat_map_app. Qed.

Lemma printed_app (a b : Log) : printed (a ++ b) = printed a ++ printed b.
Proof. unfold printed. apply flat_map_app. Qed.

Lemma defined_in_app (a b : Log) : defined_in (a ++ b) = defined_in a ++ defined_in b.
Proof. unfold defined_in. apply flat_map_app. Qed.

Lemma HANDLE_NAMES_app (a b : Log) :
  HANDLE_NAMES (a ++ b) = HANDLE_NAMES a ++ HANDLE_NAMES b.
Proof. unfold HANDLE_NAMES. apply flat_map_app. Qed.

Lemma DEFINED_IDENTIFIERS_app (a b : Log) :
  DEFINED_IDENTIFIERS (a ++ b) = DEFINED_IDENTIFIERS a ++ defined_in b.
Proof.
  unfold DEFINED_IDENTIFIERS. now rewrite defined_in_app, app_assoc.
Qed.

Lemma In__spec (x : string) (xs : list string) : In_ x xs = true <-> In x xs.
Proof.
  unfold In_. rewrite existsb_exists. split.
  - intros (y & Hy & E). apply String.eqb_eq in E. now subst.
  - intros H. exists x. split; auto. apply String.eqb_refl.
Qed.

Lemma In__false (x : string) (xs : list string) : In_ x xs = false <-> ~ In x xs.
Proof.
  rewrite <- In__spec. destruct (In_ x xs); intuition congruence.
Qed.

(** ** Outcomes of the functions without effects *)

Lemma mapE_terminates {A B} (f : A -> Outcome B) (xs : list A) :
  (forall x, f x <> OutOfFuel) -> mapE f xs <> OutOfFuel.
Proof.
  intros H. induction xs as [| x r IH]; simpl; [discriminate |].
  specialize (H x). destruct (f x); simpl; try congruence.
  destruct (mapE f r); simpl; congruence.
Qed.

Lemma member_type_terminates mem : member_type mem <> OutOfFuel.
Proof.
  unfold member_type. destruct (find mem "type") as [t |]; simpl; [| discriminate].
  destruct (text t); discriminate.
Qed.

Lemma parse_structure_member_terminates mem : parse_structure_member mem <> OutOfFuel.
Proof.
  unfold parse_structure_member.
  destruct (find mem "type") as [t |]; cbn [some_or bindE]; [| discriminate].
  destruct (text t); cbn [map_ctypes_text bindE]; [| discriminate].
  destruct (find mem "name") as [n |]; cbn [some_or bindE]; [| discriminate].
  destruct (text n); cbn [some_or bindE]; [| discriminate].
  destruct (find mem "enum") as [a |].
  - destruct (text a); cbn [some_or bindE]; discriminate.
  - destruct (Py.startswith _ _); discriminate.
Qed.

Lemma filter_types_terminates root category : filter_types root category <> OutOfFuel.
Proof.
  unfold filter_types. destruct (find root "types"); cbn [some_or bindE]; discriminate.
Qed.

Lemma declaration_terminates root category t :
  declaration root category t <> OutOfFuel.
Proof.
  unfold declaration, filter_types.
  destruct (find root "types"); cbn [some_or bindE]; discriminate.
Qed.

Create HintDb total.

Lemma bindE_terminates {A B} (m : Outcome A) (k : A -> Outcome B) :
  m <> OutOfFuel -> (forall a, k a <> OutOfFuel) -> bindE m k <> OutOfFuel.
Proof. intros Hm Hk. destruct m; simpl; auto. discriminate. Qed.

Lemma some_or_terminates {A} (e : Exn) (x : option A) : some_or e x <> OutOfFuel.
Proof. destruct x; discriminate. Qed.

Lemma map_ctypes_text_terminates x : map_ctypes_text x <> OutOfFuel.
Proof. destruct x; discriminate. Qed.

Lemma head_char_terminates s : head_char s <> OutOfFuel.
Proof. destruct s; discriminate. Qed.

Lemma second_terminates {A} (xs : list A) : second xs <> OutOfFuel.
Proof. destruct xs as [| ? [| ? ?]]; discriminate. Qed.

#[local] Hint Resolve some_or_terminates map_ctypes_text_terminates
  head_char_terminates second_terminates filter_types_terminates
  member_type_terminates parse_structure_member_terminates
  declaration_terminates : total.

Ltac total :=
  repeat first
    [ discriminate
    | solve [auto with total]
    | apply bindE_terminates; [| intro]
    | apply mapE_terminates; intro
    | match goal with
      | |- (match ?x with _ => _ end) <> OutOfFuel => destruct x
      end ].

Lemma name_of_terminates e : name_of e <> OutOfFuel.
Proof. unfold name_of. total. Qed.

Lemma map_ctypes_elem_terminates e : map_ctypes_elem e <> OutOfFuel.
Proof. unfold map_ctypes_elem. total. Qed.

Lemma enum_member_terminates items e : enum_member items e <> OutOfFuel.
Proof. unfold enum_member, value_or_bitpos. total. Qed.

Lemma parse_command_argument_type_terminates e :
  parse_command_argument_type e <> OutOfFuel.
Proof. unfold parse_command_argument_type. total. Qed.

#[local] Hint Resolve name_of_terminates map_ctypes_elem_terminates
  enum_member_terminates parse_command_argument_type_terminates : total.

Lemma group_command_terminates hn c : group_command hn c <> OutOfFuel.
Proof. unfold group_command. total. Qed.

Lemma group_commands_terminates hn cmds :
  forall info g, group_commands hn cmds info g <> OutOfFuel.
Proof.
  induction cmds as [| c r IH]; intros info g; cbn [group_commands]; [discriminate |].
  apply bindE_terminates; [apply group_command_terminates |].
  intros [i | k cmd]; apply IH.
Qed.

Lemma int__terminates x : int_ x <> OutOfFuel.
Proof. unfold int_. total. Qed.

#[local] Hint Resolve group_commands_terminates int__terminates : total.

Lemma extension_offset_terminates e : extension_offset e <> OutOfFuel.
Proof. unfold extension_offset. total. Qed.

Lemma extension_member_terminates offset e : extension_member offset e <> OutOfFuel.
Proof.
  unfold extension_member, value_or_offset_or_bitpos, parse_offset. total.
Qed.

#[local] Hint Resolve extension_offset_terminates extension_member_terminates : total.

(** ** Extension offsets (C7) *)

(** C7, as amended.  For an extension whose [number] is 5 and a required
    enumeration member with no [value], no [bitpos] and direction "-", the
    value is minus the sum of 1000000000 + (5-1)*1000 and the member's
    own [offset] attribute; it is -1000004000 when that attribute is 0. *)
Theorem extension_offset_scenario (extension e : Element) (k : Z) :
  get extension "number" = Some "5" ->
  get e "value" = None ->
  get e "bitpos" = None ->
  get e "dir" = Some "-" ->
  int_ (get e "offset") = Ok k ->
  extension_offset extension = Ok (1000000000 + (5 - 1) * 1000)%Z
  /\ value_or_offset_or_bitpos e (1000000000 + (5 - 1) * 1000)
     = Ok (Py.str_of_int (- (k + (1000000000 + (5 - 1) * 1000))))
  /\ (k = 0%Z ->
      value_or_offset_or_bitpos e (1000000000 + (5 - 1) * 1000) = Ok "-1000004000").
Proof.
  intros Hn Hv Hb Hd Ho.
  assert (Hval : value_or_offset_or_bitpos e (1000000000 + (5 - 1) * 1000)
                 = Ok (Py.str_of_int (- (k + (1000000000 + (5 - 1) * 1000))))).
  { unfold value_or_offset_or_bitpos, parse_offset.
    rewrite Hv, Hb, Ho, Hd. reflexivity. }
  repeat split.
  - unfold extension_offset. rewrite Hn. reflexivity.
  - exact Hval.
  - intros ->. rewrite Hval. reflexivity.
Qed.

Lemma extension_offset_scenario_witness :
  extension_offset extension_5 = Ok 1000004000%Z
  /\ value_or_offset_or_bitpos (negative_member "0") 1000004000 = Ok "-1000004000".
Proof.
  destruct (extension_offset_scenario extension_5 (negative_member "0") 0
              eq_refl eq_refl eq_refl eq_refl eq_refl) as (H1 & _ & H3).
  split; [exact H1 | exact (H3 eq_refl)].
Defined.

(** C7 as stated fails: the member's [offset] attribute is added before
    the sign is applied. *)
Lemma extension_offset_counterexample :
  get extension_5 "number" = Some "5"
  /\ get (negative_member "1") "value" = None
  /\ get (negative_member "1") "bitpos" = None
  /\ get (negative_member "1") "dir" = Some "-"
  /\ extension_offset extension_5 = Ok 1000004000%Z
  /\ value_or_offset_or_bitpos (negative_member "1") 1000004000 = Ok "-1000004001"
  /\ value_or_offset_or_bitpos (negative_member "1") 1000004000 <> Ok "-1000004000".
Proof.
  repeat split; try reflexivity. discriminate.
Qed.

(** ** The bootstrap command (C10) *)

Lemma group_command_Bootstrap hn c i :
  group_command hn c = Ok (Bootstrap i) ->
  command_name c = Some "vkGetInstanceProcAddr".
Proof.
  unfold group_command, command_name.
  destruct (find c "proto") as [proto |]; simpl; [| discriminate].
  destruct (children proto) as [| ty [| nm [| ? ?]]]; simpl; try discriminate.
  destruct (map_ctypes_text (text ty)); simpl; try discriminate.
  destruct (mapE parse_command_argument_type (command_params_types c));
    simpl; try discriminate.
  destruct (is_str (text nm) "vkGetInstanceProcAddr") eqn:E.
  - intros _. unfold is_str in E. destruct (text nm) as [s |]; [| discriminate].
    apply String.eqb_eq in E. now subst.
  - destruct (hd_error (command_params_types c)); simpl; try discriminate.
    destruct (map_ctypes_text (text e)); simpl; discriminate.
Qed.

Lemma group_commands_info hn cmds :
  (forall c, In c cmds -> command_name c <> Some "vkGetInstanceProcAddr") ->
  forall info g info' g',
    group_commands hn cmds info g = Ok (info', g') -> info' = info.
Proof.
  induction cmds as [| c r IH]; intros Hno info g info' g'; simpl.
  - intros H. now inversion H.
  - destruct (group_command hn c) as [[i | k cmd] | e | ] eqn:E; simpl;
      try discriminate.
    + apply group_command_Bootstrap in E. exfalso.
      apply (Hno c); [now left | exact E].
    + apply IH. intros c' Hc'. apply Hno. now right.
Qed.

Lemma write_families (groups : Groups) (log : Log) :
  for_each groups (fun '(cmd_family, cmds) => write (CommandFamily cmd_family cmds)) log
  = (Ok tt, log ++ map (fun g => Write (CommandFamily (fst g) (snd g))) groups).
Proof.
  revert log. induction groups as [| [f cmds] r IH]; intros log; simpl.
  - unfold ret. now rewrite app_nil_r.
  - unfold bind, write, effect. rewrite IH. simpl. now rewrite <- app_assoc.
Qed.

(** C10.  Without a command named vkGetInstanceProcAddr, [parse_commands]
    raises: if the grouping loop completes, every family block is written
    and unpacking [get_instance_proc_addr_info], still [None], is a
    TypeError. *)
Theorem parse_commands_without_bootstrap (root : Element) (log : Log) :
  (forall c, In c (commands_of root) ->
             command_name c <> Some "vkGetInstanceProcAddr") ->
  (exists e log', parse_commands root log = (Raise e, log'))
  /\ (forall commands info groups,
        find root "commands" = Some commands ->
        group_commands (HANDLE_NAMES log) (children commands) None [] = Ok (info, groups) ->
        parse_commands root log
        = (Raise TypeError,
           log ++ Write commands_header
               :: map (fun g => Write (CommandFamily (fst g) (snd g))) groups)).
Proof.
  intros Hno.
  assert (Hn : HANDLE_NAMES (log ++ [Write commands_header]) = HANDLE_NAMES log).
  { rewrite HANDLE_NAMES_app. simpl. apply app_nil_r. }
  assert (Hloop : forall commands info groups,
        find root "commands" = Some commands ->
        group_commands (HANDLE_NAMES log) (children commands) None [] = Ok (info, groups) ->
        parse_commands root log
        = (Raise TypeError,
           log ++ Write commands_header
               :: map (fun g => Write (CommandFamily (fst g) (snd g))) groups)).
  { intros commands info groups Hf Hg.
    assert (info = None).
    { eapply group_commands_info; [| exact Hg].
      unfold commands_of in Hno. now rewrite Hf in Hno. }
    subst info.
    unfold parse_commands, parse_commands_with.
    rewrite bind_write, Hf. cbn [some_or]. rewrite bind_lift_Ok, bind_state, Hn, Hg.
    rewrite bind_lift_Ok. unfold bind at 1. rewrite write_families.
    cbn [some_or]. rewrite bind_lift_Raise. now rewrite <- app_assoc. }
  split; [| exact Hloop].
  destruct (find root "commands") as [commands |] eqn:Hf.
  - destruct (group_commands (HANDLE_NAMES log) (children commands) None [])
      as [[info groups] | e | ] eqn:Hg.
    + eexists _, _. eapply Hloop; eauto.
    + exists e. eexists.
      unfold parse_commands, parse_commands_with.
      rewrite bind_write, Hf. cbn [some_or]. rewrite bind_lift_Ok, bind_state, Hn, Hg.
      now rewrite bind_lift_Raise.
    + now apply group_commands_terminates in Hg.
  - exists TypeError. eexists.
    unfold parse_commands, parse_commands_with.
    rewrite bind_write, Hf. cbn [some_or]. now rewrite bind_lift_Raise.
Qed.

Lemma parse_commands_without_bootstrap_witness :
  exists e log', parse_commands doc_no_bootstrap [] = (Raise e, log').
Proof.
  apply (parse_commands_without_bootstrap doc_no_bootstrap []).
  intros c Hc. vm_compute in Hc.
  destruct Hc as [<- | [<- | []]]; vm_compute; discriminate.
Defined.

(** ** Command families (C5) *)

Lemma family_absent key (g : Groups) :
  ~ In key (map fst g) -> family key g = [].
Proof.
  induction g as [| [k cs] r IH]; simpl; intros H; auto.
  destruct (String.eqb_spec k key) as [-> | Hne].
  - exfalso. apply H. now left.
  - apply IH. intros Hin. apply H. now right.
Qed.

Lemma groups_add_keys k c (g : Groups) key :
  In key (map fst (groups_add k c g)) <-> key = k \/ In key (map fst g).
Proof.
  induction g as [| [k0 cs] r IH]; simpl.
  - intuition.
  - destruct (String.eqb_spec k0 k) as [-> | Hne]; simpl.
    + intuition.
    + rewrite IH. intuition.
Qed.

Lemma groups_add_NoDup k c (g : Groups) :
  NoDup (map fst g) -> NoDup (map fst (groups_add k c g)).
Proof.
  induction g as [| [k0 cs] r IH]; simpl; intros H.
  - constructor; [easy | constructor].
  - inversion H as [| ? ? Hnotin Hr]; subst.
    destruct (String.eqb_spec k0 k) as [-> | Hne]; simpl.
    + now constructor.
    + constructor; [| now apply IH].
      rewrite groups_add_keys. intros [-> | Hin]; [now apply Hne | now apply Hnotin].
Qed.

Lemma groups_add_family k c (g : Groups) key :
  NoDup (map fst g) ->
  family key (groups_add k c g)
  = family key g ++ (if String.eqb k key then [c] else []).
Proof.
  induction g as [| [k0 cs] r IH]; simpl; intros H.
  - now rewrite app_nil_r.
  - inversion H as [| ? ? Hnotin Hr]; subst.
    destruct (String.eqb_spec k0 k) as [-> | Hne]; simpl.
    + destruct (String.eqb_spec k key) as [-> | Hne'].
      * rewrite (family_absent key r Hnotin). now rewrite !app_nil_r.
      * now rewrite app_nil_r.
    + rewrite (IH Hr). now rewrite app_assoc.
Qed.

Lemma assigned_to_cons hn key c r :
  assigned_to hn key (c :: r)
  = match group_command hn c with
    | Ok (Member k cmd) => if String.eqb k key then [cmd] else []
    | _ => []
    end ++ assigned_to hn key r.
Proof. reflexivity. Qed.

Lemma group_commands_spec hn cmds :
  forall info g info' g',
    NoDup (map fst g) ->
    group_commands hn cmds info g = Ok (info', g') ->
    NoDup (map fst g')
    /\ (forall key, family key g' = family key g ++ assigned_to hn key cmds)
    /\ (forall key, In key (map fst g') <->
                    (In key (map fst g)
                     \/ exists c cmd, In c cmds
                                      /\ group_command hn c = Ok (Member key cmd)))
    /\ (forall c, In c cmds -> exists r, group_command hn c = Ok r).
Proof.
  induction cmds as [| c r IH]; intros info g info' g' Hnd; cbn [group_commands].
  - intros H. inversion H; subst. refine (conj Hnd (conj _ (conj _ _))).
    + intros key. unfold assigned_to. simpl. now rewrite app_nil_r.
    + intros key. split; auto. intros [H' | (c & cmd & [] & _)]; auto.
    + intros c [].
  - destruct (group_command hn c) as [[i | k cmd] | e | ] eqn:E; cbn [bindE];
      try discriminate; intros H.
    + destruct (IH _ _ _ _ Hnd H) as (H1 & H2 & H3 & H4).
      refine (conj H1 (conj _ (conj _ _))).
      * intros key. now rewrite H2, assigned_to_cons, E.
      * intros key. rewrite H3. split.
        -- intros [Hin | (c' & cmd & Hc' & E')]; auto.
           right. exists c', cmd. split; [simpl; auto | auto].
        -- intros [Hin | (c' & cmd & [-> | Hc'] & E')]; auto.
           ++ congruence.
           ++ right. now exists c', cmd.
      * intros c' [-> | Hc']; eauto.
    + destruct (IH _ _ _ _ (groups_add_NoDup k cmd g Hnd) H) as (H1 & H2 & H3 & H4).
      refine (conj H1 (conj _ (conj _ _))).
      * intros key. rewrite H2, (groups_add_family _ _ _ _ Hnd).
        rewrite assigned_to_cons, E. now rewrite <- app_assoc.
      * intros key. rewrite H3, groups_add_keys. split.
        -- intros [[-> | Hin] | (c' & cmd' & Hc' & E')]; auto.
           ++ right. exists c, cmd. split; [simpl; auto | auto].
           ++ right. exists c', cmd'. split; [simpl; auto | auto].
        -- intros [Hin | (c' & cmd' & [-> | Hc'] & E')]; auto.
           ++ left. left. congruence.
           ++ right. now exists c', cmd'.
      * intros c' [-> | Hc']; eauto.
Qed.

Lemma group_command_Member hn c key cmd :
  group_command hn c = Ok (Member key cmd) ->
  command_name c <> Some "vkGetInstanceProcAddr"
  /\ exists t, first_parameter_type c = Some t
       /\ key = (if negb (In_ t hn) then "Loader"
                 else if is_str (command_name c) "vkGetDeviceProcAddr" then "Instance"
                 else t)%string.
Proof.
  unfold group_command, command_name, first_parameter_type.
  destruct (find c "proto") as [proto |]; simpl; [| discriminate].
  destruct (children proto) as [| ty [| nm [| ? ?]]]; simpl; try discriminate.
  destruct (map_ctypes_text (text ty)); simpl; try discriminate.
  destruct (mapE parse_command_argument_type (command_params_types c));
    simpl; try discriminate.
  destruct (is_str (text nm) "vkGetInstanceProcAddr") eqn:E.
  - destruct (text nm); simpl; discriminate.
  - destruct (hd_error (command_params_types c)) as [p |]; simpl; try discriminate.
    destruct (text p) as [tx |]; simpl; try discriminate.
    intros H. inversion H; subst. split.
    + intros Hn. rewrite Hn in E. simpl in E. discriminate.
    + exists (map_ctypes tx). split; auto.
Qed.

Lemma In__ext (x : string) (s1 s2 : list string) :
  (forall y, In y s1 <-> In y s2) -> In_ x s1 = In_ x s2.
Proof.
  intros H. destruct (In_ x s2) eqn:E.
  - apply In__spec. apply H. now apply In__spec.
  - apply In__false. intros Hin. apply In__false in E. apply E. now apply H.
Qed.

Lemma first_seen_ext (keys : list string) :
  forall s1 s2, (forall y, In y s1 <-> In y s2) -> first_seen keys s1 = first_seen keys s2.
Proof.
  induction keys as [| k r IH]; intros s1 s2 H; simpl; auto.
  rewrite (In__ext k s1 s2 H). destruct (In_ k s2).
  - now apply IH.
  - f_equal. apply IH. intros y. simpl. rewrite H. tauto.
Qed.

Lemma groups_add_order k c (g : Groups) :
  map fst (groups_add k c g)
  = if In_ k (map fst g) then map fst g else map fst g ++ [k].
Proof.
  induction g as [| [k0 cs] r IH]; simpl; auto.
  rewrite (String.eqb_sym k k0).
  destruct (String.eqb_spec k0 k) as [-> | Hne]; simpl; auto.
  rewrite IH. now destruct (In_ k (map fst r)).
Qed.

(** The families are in the order in which the document first meets them:
    the order of the blocks written holds no more than the document. *)
Lemma families_in_first_seen_order hn cmds :
  forall info g info' g',
    group_commands hn cmds info g = Ok (info', g') ->
    map fst g' = map fst g ++ first_seen (assigned_keys hn cmds) (map fst g).
Proof.
  induction cmds as [| c r IH]; intros info g info' g'; cbn [group_commands].
  - intros H. inversion H; subst. simpl. now rewrite app_nil_r.
  - unfold assigned_keys. cbn [flat_map]. fold (assigned_keys hn r).
    destruct (group_command hn c) as [[i | k cmd] | e | ] eqn:E; cbn [bindE];
      try discriminate; intros H.
    + now apply IH in H.
    + apply IH in H. rewrite H, groups_add_order. cbn [app first_seen].
      destruct (In_ k (map fst g)) eqn:Ek; auto.
      rewrite <- app_assoc. cbn [app]. do 2 f_equal.
      apply first_seen_ext. intros y. rewrite in_app_iff. simpl. tauto.
Qed.

(** What [parse_commands] writes when the loop finds the bootstrap command:
    one block per family, in the order in which the families were first
    met, then the block of vkGetInstanceProcAddr. *)
Lemma parse_commands_writes root log commands name _type params groups :
  find root "commands" = Some commands ->
  group_commands (HANDLE_NAMES log) (children commands) None []
  = Ok (Some (name, _type, params), groups) ->
  parse_commands root log
  = (Ok tt,
     log ++ Write commands_header
         :: map (fun g => Write (CommandFamily (fst g) (snd g))) groups
         ++ [Write (GetInstanceProcAddr name _type params)]).
Proof.
  intros Hf Hg.
  assert (Hn : HANDLE_NAMES (log ++ [Write commands_header]) = HANDLE_NAMES log).
  { rewrite HANDLE_NAMES_app. simpl. apply app_nil_r. }
  unfold parse_commands, parse_commands_with.
  rewrite bind_write, Hf. cbn [some_or]. rewrite bind_lift_Ok, bind_state, Hn, Hg.
  rewrite bind_lift_Ok. unfold bind at 1. rewrite write_families.
  cbn [some_or]. rewrite bind_lift_Ok. unfold write, effect.
  now rewrite <- !app_assoc.
Qed.

(** C5, as amended.  When the grouping loop completes: no two family
    lists have the same key; the list of a key holds, in document order,
    the definitions of exactly the commands assigned to that key, and every
    command other than vkGetInstanceProcAddr is assigned to one key; the
    keys are the families that received a command, each a handle name,
    "Loader" or "Instance"; the key of a command is "Loader" when the type
    of its first parameter is not a handle name, otherwise "Instance" for
    vkGetDeviceProcAddr and that type for any other command. *)
Theorem command_grouping (handle_names : list string) (commands : list Element)
        (info : option (string * string * string)) (groups : Groups) :
  group_commands handle_names commands None [] = Ok (info, groups) ->
  NoDup (map fst groups)
  /\ (forall key, family key groups = assigned_to handle_names key commands)
  /\ (forall c, In c commands ->
        (command_name c = Some "vkGetInstanceProcAddr"
         /\ exists i, group_command handle_names c = Ok (Bootstrap i))
        \/ (command_name c <> Some "vkGetInstanceProcAddr"
            /\ exists key cmd t,
                 group_command handle_names c = Ok (Member key cmd)
                 /\ In cmd (family key groups)
                 /\ first_parameter_type c = Some t
                 /\ key = (if negb (In_ t handle_names) then "Loader"
                           else if is_str (command_name c) "vkGetDeviceProcAddr"
                                then "Instance"
                                else t)%string))
  /\ (forall key, In key (map fst groups) <->
                  exists c cmd, In c commands
                                /\ group_command handle_names c = Ok (Member key cmd))
  /\ (forall key, In key (map fst groups) ->
                  In key handle_names \/ key = "Loader" \/ key = "Instance").
Proof.
  intros H.
  destruct (group_commands_spec handle_names commands None [] info groups
              (NoDup_nil _) H) as (H1 & H2 & H3 & H4).
  assert (Hkeys : forall key, In key (map fst groups) <->
                  exists c cmd, In c commands
                                /\ group_command handle_names c = Ok (Member key cmd)).
  { intros key. rewrite H3. simpl. intuition. }
  refine (conj H1 (conj H2 (conj _ (conj Hkeys _)))).
  - intros c Hc. destruct (H4 c Hc) as ([i | key cmd] & E).
    + left. split; [eapply group_command_Bootstrap; eauto | eauto].
    + right. destruct (group_command_Member _ _ _ _ E) as (Hn & t & Ht & Hk).
      split; auto. exists key, cmd, t.
      refine (conj E (conj _ (conj Ht Hk))).
      rewrite H2. simpl. unfold assigned_to. apply in_flat_map.
      exists c. split; auto. rewrite E, String.eqb_refl. now left.
  - intros key Hk. apply Hkeys in Hk. destruct Hk as (c & cmd & Hc & E).
    destruct (group_command_Member _ _ _ _ E) as (_ & t & _ & ->).
    destruct (In_ t handle_names) eqn:Et; simpl; auto.
    destruct (is_str (command_name c) "vkGetDeviceProcAddr"); auto.
    left. now apply In__spec.
Qed.

Lemma command_grouping_witness :
  group_commands ["Instance"; "Device"; "Semaphore"]%string
                 (commands_of doc_commands) None []
  = Ok (doc_commands_info, doc_commands_groups)
  /\ map fst doc_commands_groups = ["Loader"; "Instance"; "Device"]%string
  /\ forall key, family key doc_commands_groups
                 = assigned_to ["Instance"; "Device"; "Semaphore"]%string key
                               (commands_of doc_commands).
Proof.
  assert (H : group_commands ["Instance"; "Device"; "Semaphore"]%string
                (commands_of doc_commands) None []
              = Ok (doc_commands_info, doc_commands_groups))
    by (vm_compute; reflexivity).
  split; [exact H |]. split; [reflexivity |].
  exact (proj1 (proj2 (command_grouping _ _ _ _ H))).
Defined.

(** C5 as stated fails: after the handles of [doc_commands] are parsed,
    "Semaphore" is a handle name and no family has that key. *)
Lemma command_grouping_counterexample :
  let log := snd (parse_handles doc_commands []) in
  HANDLE_NAMES log = ["Instance"; "Device"; "Semaphore"]%string
  /\ exists info groups,
       group_commands (HANDLE_NAMES log) (commands_of doc_commands) None []
       = Ok (info, groups)
       /\ map fst groups = ["Loader"; "Instance"; "Device"]%string
       /\ ~ keys_are_handles_and_Loader (HANDLE_NAMES log) groups.
Proof.
  split; [vm_compute; reflexivity |].
  eexists _, _. split; [vm_compute; reflexivity |].
  split; [reflexivity |].
  intros H. destruct (proj2 (H "Semaphore"%string)) as [E | [E | [E | []]]];
    try discriminate.
  left. vm_compute. auto.
Qed.

(** ** The order of the literal suffixes (C6) *)

Lemma take_drop (n : nat) (s : string) : (Py.take n s ++ Py.drop n s)%string = s.
Proof.
  revert s. induction n as [| n IH]; intros [| c r]; simpl; auto.
  now rewrite IH.
Qed.

Lemma last_char_app (a b : string) :
  b <> EmptyString -> last_char (a ++ b) = last_char b.
Proof.
  intros Hb. induction a as [| c r IH]; simpl; auto.
  rewrite IH. destruct (r ++ b)%string eqn:E; auto.
  destruct r; simpl in E; [now subst | discriminate].
Qed.

Lemma endswith_last_char (s suffix : string) :
  suffix <> EmptyString ->
  Py.endswith s suffix = true -> last_char s = last_char suffix.
Proof.
  unfold Py.endswith. intros Hs H. apply andb_true_iff in H as [_ H].
  apply String.eqb_eq in H.
  rewrite <- (take_drop (String.length s - String.length suffix) s) at 1.
  rewrite H. now apply last_char_app.
Qed.

(** At most one suffix of [TYPES_SUFFIX] ends a given value. *)
Lemma TYPES_SUFFIX_exclusive (value : string) (e1 e2 : string * string) :
  In e1 TYPES_SUFFIX -> In e2 TYPES_SUFFIX ->
  Py.endswith value (fst e1) = true -> Py.endswith value (fst e2) = true ->
  e1 = e2.
Proof.
  intros H1 H2 E1 E2.
  assert (L : last_char (fst e1) = last_char (fst e2)).
  { rewrite <- (endswith_last_char value (fst e1)), <- (endswith_last_char value (fst e2));
      auto.
    - destruct H2 as [<- | [<- | [<- | []]]]; discriminate.
    - destruct H1 as [<- | [<- | [<- | []]]]; discriminate. }
  destruct H1 as [<- | [<- | [<- | []]]]; destruct H2 as [<- | [<- | [<- | []]]];
    try reflexivity; discriminate.
Qed.

Lemma pythonize_suffix_Permutation (value : string) (items items' : list (string * string)) :
  Permutation items items' ->
  (forall e1 e2, In e1 items -> In e2 items ->
                 Py.endswith value (fst e1) = true ->
                 Py.endswith value (fst e2) = true -> e1 = e2) ->
  pythonize_suffix items value = pythonize_suffix items' value.
Proof.
  induction 1 as [| [s t] l l' HP IH | [s1 t1] [s2 t2] l | l l' l'' HP1 IH1 HP2 IH2];
    intros Hex; simpl.
  - reflexivity.
  - destruct (Py.endswith value s); auto.
    apply IH. intros e1 e2 H1 H2. apply Hex; now right.
  - destruct (Py.endswith value s2) eqn:E2; destruct (Py.endswith value s1) eqn:E1; auto.
    assert (E : (s2, t2) = (s1, t1)).
    { apply Hex; simpl; auto. }
    now inversion E.
  - rewrite IH1 by exact Hex. apply IH2.
    intros e1 e2 H1 H2.
    apply Hex; apply (Permutation_in _ (Permutation_sym HP1)); assumption.
Qed.

Lemma pythonize_value_order_independent (items : list (string * string)) (value : string) :
  Permutation TYPES_SUFFIX items ->
  pythonize_value_with items value = pythonize_value value.
Proof.
  intros HP. unfold pythonize_value, pythonize_value_with. symmetry.
  apply pythonize_suffix_Permutation; auto.
  intros e1 e2. apply TYPES_SUFFIX_exclusive.
Qed.

Lemma parse_enums_order_independent (items : list (string * string)) (root : Element) :
  Permutation TYPES_SUFFIX items ->
  forall log, parse_enums_with items root log = parse_enums root log.
Proof.
  intros HP log. unfold parse_enums, parse_enums_with.
  apply bind_ext. intros _ log1. apply for_each_ext. intros enum log2.
  apply bind_ext. intros name log3.
  rewrite (mapE_ext (enum_member items) (enum_member TYPES_SUFFIX)); auto.
  intros x. unfold enum_member.
  destruct (value_or_bitpos x); simpl; auto.
  destruct (some_or AttributeError (get x "name")); simpl; auto.
  now rewrite pythonize_value_order_independent.
Qed.

Lemma export_order_independent (items : list (string * string))
      (families : Groups -> Groups) (root : Element) :
  Permutation TYPES_SUFFIX items ->
  forall log, export_in items families root log = export_in TYPES_SUFFIX families root log.
Proof.
  intros HP log. unfold export_in.
  do 5 (apply bind_ext; intros ? ?).
  unfold bind. rewrite (parse_enums_order_independent items root HP). reflexivity.
Qed.

(** ** Missing dependencies (C8) *)

Lemma DEFINED_IDENTIFIERS_Print log s :
  DEFINED_IDENTIFIERS (log ++ [Print s]) = DEFINED_IDENTIFIERS log.
Proof. rewrite DEFINED_IDENTIFIERS_app. cbn [defined_in flat_map]. now rewrite app_nil_r. Qed.

Lemma DEFINED_IDENTIFIERS_not_found log t :
  DEFINED_IDENTIFIERS (log ++ [not_found t]) = DEFINED_IDENTIFIERS log.
Proof. apply DEFINED_IDENTIFIERS_Print. Qed.

Lemma resolve_dependencies_cons rec root mem rest t log :
  member_type mem = Ok t ->
  resolve_dependencies rec root (mem :: rest) log
  = bind (if In_ t (DEFINED_IDENTIFIERS log) then ret tt
          else resolve_dependency rec root t)
         (fun _ => resolve_dependencies rec root rest) log.
Proof.
  intros H. cbn [resolve_dependencies]. rewrite H, bind_lift_Ok, bind_state.
  reflexivity.
Qed.

Lemma resolve_dependency_eq rec root t log :
  resolve_dependency rec root t log
  = match declaration root "struct" t, declaration root "union" t with
    | Ok s, Ok u =>
        if is_None s && is_None u then (Ok tt, log ++ [not_found t])
        else rec (or_ s u) (is_None u) log
    | Ok _, Raise e => (Raise e, log)
    | Ok _, OutOfFuel => (OutOfFuel, log)
    | Raise e, _ => (Raise e, log)
    | OutOfFuel, _ => (OutOfFuel, log)
    end.
Proof.
  unfold resolve_dependency, bind, lift, effect.
  destruct (declaration root "struct" t) as [s | |]; auto.
  destruct (declaration root "union" t) as [u | |]; auto.
  destruct (is_None s && is_None u); auto.
Qed.

Lemma resolve_dependencies_missing rec root mem rest t log :
  member_type mem = Ok t ->
  In_ t (DEFINED_IDENTIFIERS log) = false ->
  undeclared root t ->
  resolve_dependencies rec root (mem :: rest) log
  = resolve_dependencies rec root rest (log ++ [not_found t]).
Proof.
  intros Ht Hd [Hs Hu]. rewrite (resolve_dependencies_cons _ _ _ _ _ _ Ht), Hd.
  unfold bind at 1. now rewrite resolve_dependency_eq, Hs, Hu.
Qed.

Lemma resolve_dependencies_defined rec root mem rest t log :
  member_type mem = Ok t ->
  In_ t (DEFINED_IDENTIFIERS log) = true ->
  resolve_dependencies rec root (mem :: rest) log
  = resolve_dependencies rec root rest log.
Proof.
  intros Ht Hd. rewrite (resolve_dependencies_cons _ _ _ _ _ _ Ht), Hd.
  reflexivity.
Qed.

Lemma resolve_dependencies_all_missing rec root members :
  forall types log,
    mapE member_type members = Ok types ->
    (forall t, In t types -> In t (DEFINED_IDENTIFIERS log) \/ undeclared root t) ->
    resolve_dependencies rec root members log
    = (Ok tt, log ++ warnings (DEFINED_IDENTIFIERS log) types).
Proof.
  induction members as [| mem rest IH]; intros types log Hm Hall.
  - inversion Hm; subst. unfold warnings. simpl. unfold ret. now rewrite app_nil_r.
  - cbn [mapE] in Hm. destruct (member_type mem) as [t | |] eqn:Ht; try discriminate.
    cbn [bindE] in Hm.
    destruct (mapE member_type rest) as [ts | |] eqn:Hts; try discriminate.
    inversion Hm; subst types; clear Hm.
    unfold warnings. cbn [filter].
    destruct (In_ t (DEFINED_IDENTIFIERS log)) eqn:Hd; cbn [negb map].
    + rewrite (resolve_dependencies_defined _ _ _ _ _ _ Ht Hd).
      apply IH; auto. intros t' Ht'. apply Hall. now right.
    + destruct (Hall t (or_introl eq_refl)) as [Hin | Hun].
      { apply In__spec in Hin. congruence. }
      rewrite (resolve_dependencies_missing _ _ _ _ _ _ Ht Hd Hun).
      rewrite (IH ts); auto.
      * rewrite DEFINED_IDENTIFIERS_not_found.
        unfold warnings. now rewrite <- app_assoc.
      * intros t' Ht'. rewrite DEFINED_IDENTIFIERS_not_found.
        apply Hall. now right.
Qed.

(** C8.  A member whose type name is neither defined nor that of a declared
    structure or union costs one printed line and nothing else: the loop
    goes on with the next member.  A structure all of whose member types
    are defined or undeclared is therefore resolved without an exception:
    after its name, the log receives one warning per undeclared type and
    the declaration with every member, the unresolved ones included. *)
Theorem missing_dependency_is_a_warning (root : Element) :
  (forall rec mem rest t log,
      member_type mem = Ok t ->
      In_ t (DEFINED_IDENTIFIERS log) = false ->
      undeclared root t ->
      resolve_dependencies rec root (mem :: rest) log
      = resolve_dependencies rec root rest (log ++ [not_found t]))
  /\ (forall fuel struct is_struct name types struct_mems log,
        get struct "name" = Some name ->
        In_ (remove_prefix name) (DEFINED_IDENTIFIERS log) = false ->
        mapE member_type (iter struct "member") = Ok types ->
        (forall t, In t types ->
                   In t (DEFINED_IDENTIFIERS (log ++ [Defined (remove_prefix name)]))
                   \/ undeclared root t) ->
        mapE parse_structure_member (iter struct "member") = Ok struct_mems ->
        parse_struct_or_enum (S fuel) root (Some struct) is_struct log
        = (Ok tt,
           log ++ [Defined (remove_prefix name)]
               ++ warnings (DEFINED_IDENTIFIERS (log ++ [Defined (remove_prefix name)])) types
               ++ [Write (StructDecl is_struct (remove_prefix name)
                                     (iter struct "member") struct_mems)])).
Proof.
  split.
  - intros. now apply resolve_dependencies_missing.
  - intros fuel struct is_struct name types struct_mems log Hn Hd Ht Hall Hm.
    cbn [parse_struct_or_enum some_or]. rewrite bind_lift_Ok, Hn. cbn [some_or].
    rewrite bind_lift_Ok, bind_state, Hd, bind_effect.
    unfold bind at 1.
    rewrite (resolve_dependencies_all_missing _ _ _ types _ Ht Hall).
    rewrite Hm, bind_lift_Ok. unfold write, effect.
    now rewrite <- !app_assoc.
Qed.

Lemma missing_dependency_is_a_warning_witness :
  parse_struct_or_enum 1 doc_missing (Some VkOffset) true []
  = (Ok tt,
     [Defined "Offset"; not_found "int";
      Write (StructDecl true "Offset" (iter VkOffset "member")
                        [("x", "int"); ("y", "c_float")])]%string).
Proof.
  apply (proj2 (missing_dependency_is_a_warning doc_missing)
           0 VkOffset true "VkOffset"%string ["int"; "c_float"]%string
           [("x", "int"); ("y", "c_float")]%string []).
  - reflexivity.
  - reflexivity.
  - reflexivity.
  - intros t [<- | [<- | []]].
    + right. split; reflexivity.
    + left. vm_compute. tauto.
  - reflexivity.
Defined.

(** ** Effects are appended *)

Section Emits.

Variable G : Effect -> Prop.

Lemma emits_ret {A} (a : A) : emits G (ret a).
Proof. intros log. exists []. simpl. now rewrite app_nil_r. Qed.

Lemma emits_lift {A} (x : Outcome A) : emits G (lift x).
Proof. intros log. exists []. simpl. now rewrite app_nil_r. Qed.

Lemma emits_state : emits G state.
Proof. intros log. exists []. simpl. now rewrite app_nil_r. Qed.

Lemma emits_effect (e : Effect) : G e -> emits G (effect e).
Proof. intros H log. exists [e]. simpl. auto. Qed.

Lemma emits_write (c : Chunk) : G (Write c) -> emits G (write c).
Proof. apply emits_effect. Qed.

Lemma emits_bind {A B} (m : M A) (k : A -> M B) :
  emits G m -> (forall a, emits G (k a)) -> emits G (bind m k).
Proof.
  intros Hm Hk log. destruct (Hm log) as (ext & E & F). unfold bind.
  destruct (m log) as [[a | e | ] log1]; simpl in E; subst log1.
  - destruct (Hk a (log ++ ext)) as (ext' & E' & F'). exists (ext ++ ext').
    rewrite E', app_assoc. split; auto. now apply Forall_app.
  - now exists ext.
  - now exists ext.
Qed.

Lemma emits_for_each {A} (xs : list A) (body : A -> M unit) :
  (forall x, emits G (body x)) -> emits G (for_each xs body).
Proof.
  intros H. induction xs as [| x r IH]; simpl.
  - apply emits_ret.
  - apply emits_bind; auto.
Qed.

Lemma emits_if {A} (b : bool) (m1 m2 : M A) :
  emits G m1 -> emits G m2 -> emits G (if b then m1 else m2).
Proof. now destruct b. Qed.

Lemma emits_resolve_dependencies rec root members :
  (forall s b, emits G (rec s b)) ->
  (forall t, G (not_found t)) ->
  emits G (resolve_dependencies rec root members).
Proof.
  intros Hrec Hnf. induction members as [| mem rest IH]; cbn [resolve_dependencies].
  - apply emits_ret.
  - apply emits_bind; [apply emits_lift |]. intros t.
    apply emits_bind; [apply emits_state |]. intros log.
    apply emits_bind; [| intros _; exact IH].
    apply emits_if; [apply emits_ret |]. unfold resolve_dependency.
    apply emits_bind; [apply emits_lift |]. intros struct.
    apply emits_bind; [apply emits_lift |]. intros union.
    apply emits_if; [apply emits_effect; apply Hnf | apply Hrec].
Qed.

Lemma emits_parse_struct_or_enum fuel root :
  (forall n, G (Defined n)) ->
  (forall t, G (not_found t)) ->
  (forall b n ms args, G (Write (StructDecl b n ms args))) ->
  forall struct is_struct, emits G (parse_struct_or_enum fuel root struct is_struct).
Proof.
  intros Hd Hnf Hw. induction fuel as [| fuel IH]; intros struct is_struct;
    cbn [parse_struct_or_enum].
  - apply emits_lift.
  - apply emits_bind; [apply emits_lift |]. intros s.
    apply emits_bind; [apply emits_lift |]. intros name.
    apply emits_bind; [apply emits_state |]. intros log.
    apply emits_if; [apply emits_ret |].
    apply emits_bind; [apply emits_effect; apply Hd |]. intros _.
    apply emits_bind; [apply emits_resolve_dependencies; auto |]. intros _.
    apply emits_bind; [apply emits_lift |]. intros mems.
    apply emits_write, Hw.
Qed.

End Emits.

Lemma parse_struct_or_enum_extends fuel root struct is_struct log :
  exists ext, snd (parse_struct_or_enum fuel root struct is_struct log) = log ++ ext.
Proof.
  destruct (emits_parse_struct_or_enum (fun _ => True) fuel root
              (fun _ => I) (fun _ => I) (fun _ _ _ _ => I) struct is_struct log)
    as (ext & E & _).
  now exists ext.
Qed.

(** ** Termination of the resolution (C9) *)

Lemma is_str_true (x : option string) (s : string) : is_str x s = true <-> x = Some s.
Proof.
  destruct x as [v |]; simpl; [| split; discriminate].
  rewrite String.eqb_eq. split; congruence.
Qed.

Lemma hd_error_In {A} (l : list A) (x : A) : hd_error l = Some x -> In x l.
Proof. destruct l; simpl; [discriminate |]. intros H. inversion H. now left. Qed.

Lemma remove_prefix_Vk (t : string) : remove_prefix ("Vk" ++ t) = t.
Proof. reflexivity. Qed.

Lemma declaration_found root category t e :
  category = "struct"%string \/ category = "union"%string ->
  declaration root category t = Ok (Some e) ->
  In e (structures_and_unions root) /\ get e "name" = Some ("Vk" ++ t)%string.
Proof.
  intros Hc. unfold declaration, filter_types, structures_and_unions.
  destruct (find root "types") as [types |]; cbn [some_or bindE]; [| discriminate].
  intros H. inversion H as [H1]. apply hd_error_In in H1.
  apply filter_In in H1 as [H1 H2]. apply filter_In in H1 as [H1 H3].
  apply is_str_true in H2. split; auto.
  apply filter_In. split; auto.
  destruct Hc; subst category; rewrite H3; auto using orb_true_r.
Qed.

(** What is found for a member type is a declared structure or union
    named "Vk" followed by the type name. *)
Lemma or__found root t s u e :
  declaration root "struct" t = Ok s ->
  declaration root "union" t = Ok u ->
  or_ s u = Some e ->
  In e (structures_and_unions root) /\ get e "name" = Some ("Vk" ++ t)%string.
Proof.
  intros Es Eu He. unfold or_ in He. destruct s as [s0 |].
  - destruct (truth s0).
    + inversion He; subst.
      apply (declaration_found root "struct"%string t e); auto.
    + subst u. apply (declaration_found root "union"%string t e); auto.
  - subst u. apply (declaration_found root "union"%string t e); auto.
Qed.

Lemma filter_length_le {A} (p q : A -> bool) (l : list A) :
  (forall x, In x l -> p x = true -> q x = true) ->
  List.length (filter p l) <= List.length (filter q l).
Proof.
  induction l as [| x r IH]; simpl; intros H; auto.
  assert (IH' := IH (fun y Hy => H y (or_intror Hy))).
  destruct (p x) eqn:Ep.
  - rewrite (H x (or_introl eq_refl) Ep). simpl. lia.
  - destruct (q x); simpl; lia.
Qed.

Lemma filter_length_lt {A} (p q : A -> bool) (l : list A) (a : A) :
  (forall x, In x l -> p x = true -> q x = true) ->
  In a l -> p a = false -> q a = true ->
  List.length (filter p l) < List.length (filter q l).
Proof.
  induction l as [| x r IH]; simpl; intros H Ha Hp Hq; [easy |].
  assert (Hr : forall y, In y r -> p y = true -> q y = true)
    by (intros y Hy; apply H; now right).
  destruct Ha as [-> | Ha].
  - rewrite Hp, Hq. simpl. pose proof (filter_length_le p q r Hr). lia.
  - specialize (IH Hr Ha Hp Hq). destruct (p x) eqn:Ep.
    + rewrite (H x (or_introl eq_refl) Ep). simpl. lia.
    + destruct (q x); simpl; lia.
Qed.

Lemma unresolved_mono (D D' : list string) (e : Element) :
  (forall x, In x D -> In x D') ->
  unresolved D' e = true -> unresolved D e = true.
Proof.
  intros H. unfold unresolved. destruct (get e "name") as [n |]; auto.
  rewrite !andb_true_iff, !negb_true_iff, !In__false. intuition.
Qed.

Lemma pending_mono root (D D' : list string) :
  (forall x, In x D -> In x D') -> pending root D' <= pending root D.
Proof.
  intros H. apply filter_length_le. intros e _. now apply unresolved_mono.
Qed.

Lemma pending_decreases root (D : list string) (e : Element) (t : string) :
  In e (structures_and_unions root) ->
  get e "name" = Some ("Vk" ++ t)%string ->
  ~ In t D ->
  pending root (D ++ [t]) < pending root D.
Proof.
  intros He Hn Ht. apply filter_length_lt with (a := e); auto.
  - intros x _. apply unresolved_mono. intros y Hy. apply in_or_app. now left.
  - unfold unresolved. rewrite Hn. cbn [Py.drop append Py.startswith].
    apply andb_false_iff. right. apply negb_false_iff, In__spec.
    apply in_or_app. right. now left.
  - unfold unresolved. rewrite Hn. cbn [Py.drop append].
    apply andb_true_iff. split; [reflexivity |].
    now apply negb_true_iff, In__false.
Qed.

Lemma pending_le root (D : list string) :
  pending root D <= List.length (structures_and_unions root).
Proof.
  unfold pending.
  pose proof (filter_length (unresolved D) (structures_and_unions root)). lia.
Qed.

Lemma DEFINED_IDENTIFIERS_Defined log n :
  DEFINED_IDENTIFIERS (log ++ [Defined n]) = DEFINED_IDENTIFIERS log ++ [n].
Proof. now rewrite DEFINED_IDENTIFIERS_app. Qed.

Lemma DEFINED_IDENTIFIERS_incl log ext x :
  In x (DEFINED_IDENTIFIERS log) -> In x (DEFINED_IDENTIFIERS (log ++ ext)).
Proof. rewrite DEFINED_IDENTIFIERS_app. intros H. apply in_or_app. now left. Qed.

(** With [f] above the number of pending declarations, neither the loop
    over the members nor the call it is part of reaches depth 0. *)
Lemma resolution_terminates root (f : nat) :
  (forall members log,
      pending root (DEFINED_IDENTIFIERS log) < f ->
      fst (resolve_dependencies (parse_struct_or_enum f root) root members log)
      <> OutOfFuel)
  /\ (forall struct is_struct log,
        (forall e n, struct = Some e -> get e "name" = Some n ->
                     In_ (remove_prefix n) (DEFINED_IDENTIFIERS log) = false ->
                     pending root (DEFINED_IDENTIFIERS log ++ [remove_prefix n]) < f) ->
        fst (parse_struct_or_enum (S f) root struct is_struct log) <> OutOfFuel).
Proof.
  induction f as [| f [IHQ IHP]].
  - assert (Q0 : forall members log,
               pending root (DEFINED_IDENTIFIERS log) < 0 ->
               fst (resolve_dependencies (parse_struct_or_enum 0 root) root members log)
               <> OutOfFuel) by (intros; lia).
    split; [exact Q0 |].
    intros struct is_struct log H. cbn [parse_struct_or_enum].
    destruct struct as [e |]; cbn [some_or]; [| rewrite bind_lift_Raise; discriminate].
    rewrite bind_lift_Ok.
    destruct (get e "name") as [n |] eqn:En; cbn [some_or];
      [| rewrite bind_lift_Raise; discriminate].
    rewrite bind_lift_Ok, bind_state.
    destruct (In_ (remove_prefix n) (DEFINED_IDENTIFIERS log)) eqn:Ed; [discriminate |].
    specialize (H e n eq_refl En Ed). lia.
  - assert (Q : forall members log,
               pending root (DEFINED_IDENTIFIERS log) < S f ->
               fst (resolve_dependencies (parse_struct_or_enum (S f) root) root members log)
               <> OutOfFuel).
    { induction members as [| mem rest IH]; intros log Hp; [discriminate |].
      destruct (member_type mem) as [t | ex |] eqn:Et.
      - rewrite (resolve_dependencies_cons _ _ _ _ _ _ Et).
        destruct (In_ t (DEFINED_IDENTIFIERS log)) eqn:Ed.
        + rewrite bind_ret. now apply IH.
        + unfold bind at 1. rewrite resolve_dependency_eq.
          pose proof (declaration_terminates root "struct" t) as Ts.
          destruct (declaration root "struct" t) as [s | ex |] eqn:Es;
            [| discriminate | congruence].
          pose proof (declaration_terminates root "union" t) as Tu.
          destruct (declaration root "union" t) as [u | ex |] eqn:Eu;
            [| discriminate | congruence].
          destruct (is_None s && is_None u) eqn:Enone.
          * apply IH. now rewrite DEFINED_IDENTIFIERS_not_found.
          * assert (Hrec : fst (parse_struct_or_enum (S f) root (or_ s u) (is_None u) log)
                           <> OutOfFuel).
            { apply IHP. intros e n He En _.
              destruct (or__found root t s u e Es Eu He) as [Hin Hname].
              assert (n = ("Vk" ++ t)%string) by congruence. subst n.
              rewrite remove_prefix_Vk.
              pose proof (pending_decreases root (DEFINED_IDENTIFIERS log) e t Hin Hname
                            (proj1 (In__false _ _) Ed)).
              lia. }
            destruct (parse_struct_or_enum_extends (S f) root (or_ s u) (is_None u) log)
              as (ext & Eext).
            destruct (parse_struct_or_enum (S f) root (or_ s u) (is_None u) log)
              as [[[] | ex |] log1]; simpl in Eext, Hrec; subst log1;
              [| discriminate | congruence].
            apply IH.
            pose proof (pending_mono root (DEFINED_IDENTIFIERS log)
                          (DEFINED_IDENTIFIERS (log ++ ext))
                          (DEFINED_IDENTIFIERS_incl log ext)).
            lia.
      - cbn [resolve_dependencies]. rewrite Et, bind_lift_Raise. discriminate.
      - now apply member_type_terminates in Et. }
    split; [exact Q |].
    intros struct is_struct log H. cbn [parse_struct_or_enum].
    destruct struct as [e |]; cbn [some_or]; [| rewrite bind_lift_Raise; discriminate].
    rewrite bind_lift_Ok.
    destruct (get e "name") as [n |] eqn:En; cbn [some_or];
      [| rewrite bind_lift_Raise; discriminate].
    rewrite bind_lift_Ok, bind_state.
    destruct (In_ (remove_prefix n) (DEFINED_IDENTIFIERS log)) eqn:Ed; [discriminate |].
    rewrite bind_effect. unfold bind at 1.
    assert (Hq := Q (iter e "member") (log ++ [Defined (remove_prefix n)])).
    rewrite DEFINED_IDENTIFIERS_Defined in Hq. specialize (Hq (H e n eq_refl En Ed)).
    destruct (resolve_dependencies _ root (iter e "member") _) as [[[] | ex |] log1];
      simpl in Hq; [| discriminate | congruence].
    unfold bind, lift.
    pose proof (mapE_terminates parse_structure_member (iter e "member")
                  parse_structure_member_terminates) as Tm.
    destruct (mapE parse_structure_member (iter e "member")); simpl;
      [discriminate | discriminate | congruence].
Qed.

Lemma parse_struct_or_enum_S fuel root struct is_struct :
  parse_struct_or_enum (S fuel) root struct is_struct
  = (struct <- lift (some_or AttributeError struct) ;;
     name <- lift (some_or AttributeError (get struct "name")) ;;
     let struct_name := remove_prefix name in
     log <- state ;;
     if In_ struct_name (DEFINED_IDENTIFIERS log) then ret tt
     else
       effect (Defined struct_name) ;;
       let members := iter struct "member" in
       resolve_dependencies (parse_struct_or_enum fuel root) root members ;;
       struct_mems <- lift (mapE parse_structure_member members) ;;
       write (StructDecl is_struct struct_name members struct_mems)).
Proof. reflexivity. Qed.

Lemma bind_not_OutOfFuel {A B} (m : M A) (k : A -> M B) log :
  fst (bind m k log) <> OutOfFuel -> fst (m log) <> OutOfFuel.
Proof.
  unfold bind. destruct (m log) as [[a | e |] log1]; simpl; auto; discriminate.
Qed.

Lemma bind_agree {A B} (m1 m2 : M A) (k : A -> M B) log :
  m2 log = m1 log -> bind m2 k log = bind m1 k log.
Proof. intros H. unfold bind. now rewrite H. Qed.

(** More depth changes nothing once the depth is enough. *)
Lemma resolve_dependencies_agree rec1 rec2 root members :
  (forall s b log, fst (rec1 s b log) <> OutOfFuel -> rec2 s b log = rec1 s b log) ->
  forall log,
    fst (resolve_dependencies rec1 root members log) <> OutOfFuel ->
    resolve_dependencies rec2 root members log
    = resolve_dependencies rec1 root members log.
Proof.
  intros Hrec. induction members as [| mem rest IH]; intros log H; auto.
  destruct (member_type mem) as [t | ex |] eqn:Et.
  - rewrite (resolve_dependencies_cons rec1 _ _ _ _ _ Et) in H.
    rewrite !(resolve_dependencies_cons _ _ _ _ _ _ Et).
    destruct (In_ t (DEFINED_IDENTIFIERS log)).
    + rewrite bind_ret in *. now apply IH.
    + pose proof (bind_not_OutOfFuel _ _ _ H) as H1.
      assert (E12 : resolve_dependency rec2 root t log = resolve_dependency rec1 root t log).
      { rewrite resolve_dependency_eq in H1. rewrite !resolve_dependency_eq.
        destruct (declaration root "struct" t) as [s | |]; auto.
        destruct (declaration root "union" t) as [u | |]; auto.
        destruct (is_None s && is_None u); auto. }
      unfold bind at 1. rewrite E12. unfold bind at 1.
      unfold bind at 1 in H.
      destruct (resolve_dependency rec1 root t log) as [[[] | ex |] log1]; auto.
  - cbn [resolve_dependencies]. now rewrite Et, !bind_lift_Raise.
  - now apply member_type_terminates in Et.
Qed.

Lemma parse_struct_or_enum_more_fuel root fuel :
  forall struct is_struct log,
    fst (parse_struct_or_enum fuel root struct is_struct log) <> OutOfFuel ->
    parse_struct_or_enum (S fuel) root struct is_struct log
    = parse_struct_or_enum fuel root struct is_struct log.
Proof.
  induction fuel as [| fuel IH]; intros struct is_struct log H.
  - exfalso. apply H. reflexivity.
  - rewrite (parse_struct_or_enum_S (S fuel)), (parse_struct_or_enum_S fuel).
    rewrite (parse_struct_or_enum_S fuel) in H.
    destruct struct as [e |]; cbn [some_or] in *; [| now rewrite !bind_lift_Raise].
    rewrite !bind_lift_Ok in *.
    destruct (get e "name") as [n |]; cbn [some_or] in *; [| now rewrite !bind_lift_Raise].
    rewrite !bind_lift_Ok, !bind_state in *.
    destruct (In_ (remove_prefix n) (DEFINED_IDENTIFIERS log)); auto.
    rewrite !bind_effect in *.
    apply bind_agree. apply resolve_dependencies_agree; auto.
    now apply bind_not_OutOfFuel in H.
Qed.

Lemma parse_struct_or_enum_fuel_add root fuel k struct is_struct log :
  fst (parse_struct_or_enum fuel root struct is_struct log) <> OutOfFuel ->
  parse_struct_or_enum (fuel + k) root struct is_struct log
  = parse_struct_or_enum fuel root struct is_struct log.
Proof.
  intros H. induction k as [| k IH].
  - now rewrite Nat.add_0_r.
  - rewrite Nat.add_succ_r, parse_struct_or_enum_more_fuel; rewrite IH; auto.
Qed.

Lemma for_each_terminates {A} (xs : list A) (body : A -> M unit) :
  (forall x log, fst (body x log) <> OutOfFuel) ->
  forall log, fst (for_each xs body log) <> OutOfFuel.
Proof.
  intros H. induction xs as [| x r IH]; intros log; simpl; [discriminate |].
  unfold bind. specialize (H x log).
  destruct (body x log) as [[[] | e |] log1]; simpl in *; auto; discriminate.
Qed.

Lemma parse_struct_or_enum_at_depth_bound root struct is_struct log :
  fst (parse_struct_or_enum (depth_bound root) root struct is_struct log) <> OutOfFuel.
Proof.
  unfold depth_bound. apply (proj2 (resolution_terminates root _)).
  intros e n _ _ _. pose proof (pending_le root (DEFINED_IDENTIFIERS log ++ [remove_prefix n])).
  lia.
Qed.

(** C9.  At the depth [depth_bound], which depends on the document only,
    [parse_struct_or_enum] gives a Python outcome (a normal return or an
    exception) for every document, every argument and every state, cyclic
    references included; more depth gives the same outcome and effects;
    so does the loop of [parse_structures_and_unions]. *)
Theorem resolution_always_terminates (root : Element) (struct : option Element)
        (is_struct : bool) (log : Log) :
  fst (parse_struct_or_enum (depth_bound root) root struct is_struct log) <> OutOfFuel
  /\ (forall k, parse_struct_or_enum (depth_bound root + k) root struct is_struct log
                = parse_struct_or_enum (depth_bound root) root struct is_struct log)
  /\ fst (parse_structures_and_unions root log) <> OutOfFuel.
Proof.
  split; [apply parse_struct_or_enum_at_depth_bound |].
  split.
  - intros k. apply parse_struct_or_enum_fuel_add, parse_struct_or_enum_at_depth_bound.
  - unfold parse_structures_and_unions. rewrite bind_write.
    pose proof (filter_types_terminates root "struct") as Ts.
    destruct (filter_types root "struct") as [structs | e |];
      [rewrite bind_lift_Ok | rewrite bind_lift_Raise; discriminate | congruence].
    unfold bind at 1.
    pose proof (for_each_terminates structs
                  (fun s => parse_struct_or_enum (depth_bound root) root (Some s) true)
                  (fun s l => parse_struct_or_enum_at_depth_bound root (Some s) true l)
                  (log ++ [Write structures_header])) as T1.
    destruct (for_each structs _ _) as [[[] | e |] log1]; simpl in T1;
      [| discriminate | congruence].
    pose proof (filter_types_terminates root "union") as Tu.
    destruct (filter_types root "union") as [unions | e |];
      [rewrite bind_lift_Ok | rewrite bind_lift_Raise; discriminate | congruence].
    apply for_each_terminates. intros u l.
    apply parse_struct_or_enum_at_depth_bound.
Qed.

(** Three declarations in a cycle: each is written once, the last one
    reached first. *)
Example resolution_of_a_cycle :
  parse_struct_or_enum (depth_bound doc_cycle) doc_cycle (Some VkFirst) true []
  = (Ok tt,
     [Defined "First"; Defined "Second"; Defined "Third";
      Write (StructDecl false "Third" [member_decl "VkFirst" "first"]
                        [("first", "First")]);
      Write (StructDecl true "Second" [member_decl "VkThird" "third"]
                        [("third", "Third")]);
      Write (StructDecl true "First" [member_decl "VkSecond" "second"]
                        [("second", "Second")])]%string).
Proof. vm_compute. reflexivity. Qed.

(** ** Effects in their order *)

Lemma declared_names_app (a b : Log) :
  declared_names (a ++ b) = declared_names a ++ declared_names b.
Proof. unfold declared_names. apply flat_map_app. Qed.

Lemma just_declared_shift (x pre : Log) (n : string) :
  just_declared pre n -> just_declared (x ++ pre) n.
Proof.
  intros [(pre' & c & -> & Hc & Hs) | (pre' & t & ->)].
  - left. exists (x ++ pre'), c. now rewrite app_assoc.
  - right. exists (x ++ pre'), t. now rewrite app_assoc.
Qed.

Lemma registered_shift (base x pre : Log) (n : string) :
  registered (base ++ x) pre n -> registered base (x ++ pre) n.
Proof.
  intros (pre1 & pre2 & -> & Hf & Hd). exists (x ++ pre1), pre2.
  rewrite <- app_assoc in Hf. now rewrite <- app_assoc.
Qed.

Lemma members_resolved_shift (base x pre : Log) (members : list Element) :
  members_resolved (base ++ x) pre members -> members_resolved base (x ++ pre) members.
Proof.
  intros H m t Hm Ht. destruct (H m t Hm Ht) as [Hd | Hp].
  - left. now rewrite <- app_assoc in Hd.
  - right. apply in_or_app. now right.
Qed.

Lemma members_resolved_later (base pre post : Log) (members : list Element) :
  members_resolved base pre members -> members_resolved base (pre ++ post) members.
Proof.
  intros H m t Hm Ht. destruct (H m t Hm Ht) as [Hd | Hp].
  - left. rewrite app_assoc. now apply DEFINED_IDENTIFIERS_incl.
  - right. apply in_or_app. now left.
Qed.

Lemma step_ok_shift (base x pre : Log) (e : Effect) :
  step_ok (base ++ x) pre e -> step_ok base (x ++ pre) e.
Proof.
  destruct e as [[] | | n |]; simpl; auto.
  - intros (H1 & H2 & H3). split; [| split]; auto.
    + now apply registered_shift.
    + now apply members_resolved_shift.
  - intros [H | H].
    + left. now apply just_declared_shift.
    + right. now rewrite <- app_assoc in H.
Qed.

Lemma trace_ok_shift (base x : Log) (ext : Log) :
  forall pre, trace_ok (base ++ x) pre ext -> trace_ok base (x ++ pre) ext.
Proof.
  induction ext as [| e r IH]; intros pre; simpl; auto.
  intros [H1 H2]. split.
  - now apply step_ok_shift.
  - rewrite <- app_assoc. now apply IH.
Qed.

Lemma trace_ok_app (base : Log) (a b : Log) :
  forall pre, trace_ok base pre (a ++ b)
              <-> trace_ok base pre a /\ trace_ok base (pre ++ a) b.
Proof.
  induction a as [| e r IH]; intros pre; simpl.
  - rewrite app_nil_r. tauto.
  - rewrite IH, <- app_assoc. simpl. tauto.
Qed.

Lemma trace_ok_seq (base a b : Log) :
  trace_ok base [] a -> trace_ok (base ++ a) [] b -> trace_ok base [] (a ++ b).
Proof.
  intros Ha Hb. apply trace_ok_app. split; auto.
  apply trace_ok_shift in Hb. now rewrite app_nil_r in Hb.
Qed.

Lemma trace_ok_at (base : Log) (ext : Log) :
  forall pre0, trace_ok base pre0 ext ->
  forall pre e post, ext = pre ++ e :: post -> step_ok base (pre0 ++ pre) e.
Proof.
  intros pre0 H pre e post ->. apply trace_ok_app in H as [_ H]. now destruct H.
Qed.

Lemma completed_from_shift (x : Log) (ext : Log) :
  forall pre, completed_from pre ext -> completed_from (x ++ pre) ext.
Proof.
  induction ext as [| e r IH]; intros pre; simpl; auto.
  intros [H1 H2]. split.
  - destruct e; auto. destruct H1; auto using just_declared_shift.
  - rewrite <- app_assoc. now apply IH.
Qed.

Lemma completed_from_app (a b : Log) :
  forall pre, completed_from pre a -> completed_from (pre ++ a) b ->
              completed_from pre (a ++ b).
Proof.
  induction a as [| e r IH]; intros pre; simpl.
  - rewrite app_nil_r. tauto.
  - intros [H1 H2] Hb. split.
    + destruct e; auto. destruct H1 as [H1 | H1]; auto.
      right. rewrite declared_names_app. apply in_or_app. now left.
    + apply IH; auto. now rewrite <- app_assoc.
Qed.

Lemma completed_seq (a b : Log) : completed a -> completed b -> completed (a ++ b).
Proof.
  intros Ha Hb. apply completed_from_app; auto.
  apply (completed_from_shift a) in Hb. now rewrite app_nil_r in Hb.
Qed.

Lemma completed_from_at (ext : Log) :
  forall pre0, completed_from pre0 ext ->
  forall pre n post, ext = pre ++ Defined n :: post ->
                     just_declared (pre0 ++ pre) n \/ In n (declared_names post).
Proof.
  induction ext as [| e r IH]; intros pre0 H pre n post E.
  - now destruct pre.
  - destruct pre as [| e' pre']; simpl in E; inversion E; subst.
    + rewrite app_nil_r. now destruct H.
    + destruct H as [_ H].
      replace (pre0 ++ e' :: pre') with ((pre0 ++ [e']) ++ pre')
        by now rewrite <- app_assoc.
      now apply (IH _ H pre' n post).
Qed.

(** A name of the registry at the start is not declared during the run. *)
Lemma no_redeclaration (base : Log) (n : string) (ext : Log) :
  In n (DEFINED_IDENTIFIERS base) ->
  forall pre, trace_ok base pre ext -> ~ In n (declared_names ext).
Proof.
  intros Hn. induction ext as [| e r IH]; intros pre H; simpl; auto.
  destruct H as [H1 H2].
  change (declared_names (e :: r)) with (declared_names [e] ++ declared_names r).
  intros Hin. apply in_app_or in Hin as [Hin | Hin]; [| now apply (IH _ H2)].
  destruct e as [[] | | |]; simpl in Hin; try easy.
  destruct Hin as [-> | []].
  destruct H1 as ((pre1 & pre2 & _ & Hf & _) & _).
  apply Hf. now apply DEFINED_IDENTIFIERS_incl.
Qed.

(** The declarations of structures and unions written in a run have
    distinct names. *)
Lemma declared_once (base : Log) (ext : Log) :
  forall pre, trace_ok base pre ext ->
  NoDup (declared_names ext)
  /\ forall n, In n (declared_names ext) ->
               ~ In n (DEFINED_IDENTIFIERS base)
               /\ In n (defined_in (pre ++ ext)).
Proof.
  induction ext as [| e r IH] using rev_ind; intros pre H.
  - split; [constructor | intros n []].
  - apply trace_ok_app in H as [Hr [He _]]. destruct (IH _ Hr) as [IH1 IH2].
    rewrite declared_names_app.
    assert (Hold : forall n, In n (declared_names r) ->
               ~ In n (DEFINED_IDENTIFIERS base) /\ In n (defined_in (pre ++ r ++ [e]))).
    { intros n Hn. destruct (IH2 n Hn) as [Ha Hb]. split; auto.
      rewrite app_assoc, defined_in_app. apply in_or_app. now left. }
    destruct e as [[] | | |]; simpl; rewrite ?app_nil_r; try (split; assumption).
    destruct He as ((pre1 & pre2 & E & Hf & Hd) & _).
    assert (Hnew : ~ In NAME (declared_names r)).
    { intros Hin. destruct (IH2 _ Hin) as [_ Hin'].
      (* an earlier declaration comes after the matching registration *)
      apply Hd. clear Hd Hin'.
      unfold declared_names in Hin. apply in_flat_map in Hin as (w & Hw & Hwn).
      destruct w as [[] | | |]; simpl in Hwn; try easy.
      destruct Hwn as [-> | []].
      apply in_split in Hw as (ra & rb & ->).
      pose proof (trace_ok_at _ _ _ Hr ra _ rb eq_refl) as Hstep.
      destruct Hstep as ((q1 & q2 & Eq & Hq & _) & _).
      (* the declaration in [r] is after the fresh registration *)
      rewrite app_assoc in E.
      assert (Hin2 : In (Write (StructDecl is_struct0 NAME members0 struct_mems0)) pre2
                     \/ exists z, pre1 = (pre ++ ra) ++ Write (StructDecl is_struct0 NAME members0 struct_mems0) :: z).
      { clear - E. revert E. generalize (pre ++ ra) as u. intros u E.
        symmetry in E.
        apply app_eq_app in E as (l & [[E1 E2] | [E1 E2]]).
        - destruct l as [| x l]; simpl in E2.
          + discriminate.
          + inversion E2; subst. right. now exists l.
        - destruct l as [| x l]; simpl in E2.
          + discriminate.
          + inversion E2; subst. left. apply in_or_app. right. now left. }
      destruct Hin2 as [Hin2 | (z & ->)].
      - unfold declared_names. apply in_flat_map. eexists. split; [exact Hin2 |].
        simpl. now left.
      - exfalso. apply Hf.
        assert (Hd1 : In NAME (defined_in (pre ++ ra))).
        { rewrite Eq, defined_in_app. apply in_or_app. right. simpl. now left. }
        rewrite DEFINED_IDENTIFIERS_app, defined_in_app.
        apply in_or_app. right. apply in_or_app. now left. }
    split.
    + apply NoDup_app; auto.
      * constructor; [easy | constructor].
      * intros x Hx [<- | []]. now apply Hnew.
    + intros n Hn. apply in_app_or in Hn as [Hn | [<- | []]]; [now apply Hold |].
      split.
      * intros Hb. apply Hf. now apply DEFINED_IDENTIFIERS_incl.
      * rewrite app_assoc, E, !defined_in_app. simpl.
        apply in_or_app. left. apply in_or_app. right. now left.
Qed.

Lemma generates_ret {A} (a : A) : generates (ret a).
Proof. intros log. exists []. simpl. rewrite app_nil_r. repeat split. Qed.

Lemma generates_lift {A} (x : Outcome A) : generates (lift x).
Proof. intros log. exists []. simpl. rewrite app_nil_r. repeat split. Qed.

Lemma generates_state : generates state.
Proof. intros log. exists []. simpl. rewrite app_nil_r. repeat split. Qed.

Lemma generates_bind {A B} (m : M A) (k : A -> M B) :
  generates m -> (forall a, generates (k a)) -> generates (bind m k).
Proof.
  intros Hm Hk log. destruct (Hm log) as (ext & E & T & C). unfold bind.
  destruct (m log) as [[a | e | ] log1]; simpl in E; subst log1.
  - destruct (Hk a (log ++ ext)) as (ext' & E' & T' & C'). exists (ext ++ ext').
    rewrite E', app_assoc. split; auto. split.
    + now apply trace_ok_seq.
    + intros b Hb. apply completed_seq; [exact (C a eq_refl) | exact (C' b Hb)].
  - exists ext. cbn [fst snd]. split; [reflexivity | split; [exact T | discriminate]].
  - exists ext. cbn [fst snd]. split; [reflexivity | split; [exact T | discriminate]].
Qed.

Lemma generates_for_each {A} (xs : list A) (body : A -> M unit) :
  (forall x, generates (body x)) -> generates (for_each xs body).
Proof.
  intros H. induction xs as [| x r IH]; simpl.
  - apply generates_ret.
  - apply generates_bind; auto.
Qed.

Lemma generates_if {A} (b : bool) (m1 m2 : M A) :
  generates m1 -> generates m2 -> generates (if b then m1 else m2).
Proof. now destruct b. Qed.

Lemma generates_write (c : Chunk) : stage c <> Some 5 -> generates (write c).
Proof.
  intros Hc log. exists [Write c]. simpl. repeat split; auto.
  destruct c; simpl; auto. now contradiction Hc.
Qed.

(** A declaration that is not a structure or union, then its name *)
Lemma generates_declaration (c : Chunk) (n : string) :
  declares c n -> stage c <> Some 5 ->
  generates (write c ;; effect (Defined n)).
Proof.
  intros Hd Hc log. exists [Write c; Defined n].
  assert (J : just_declared [Write c] n) by (left; now exists [], c).
  unfold bind, write, effect. cbn [fst snd].
  split; [now rewrite <- app_assoc |]. split.
  - simpl. repeat split; auto. destruct c; simpl; auto. now contradiction Hc.
  - intros _ _. simpl. repeat split; auto.
Qed.

Lemma generates_handle (n t : string) :
  generates (write (HandleDecl n t) ;; effect (HandleName n) ;; effect (Defined n)).
Proof.
  intros log. exists [Write (HandleDecl n t); HandleName n; Defined n].
  assert (J : just_declared [Write (HandleDecl n t); HandleName n] n)
    by (right; now exists [], t).
  unfold bind, write, effect. cbn [fst snd].
  split; [now rewrite <- !app_assoc |]. split.
  - simpl. repeat split; auto.
  - intros _ _. simpl. repeat split; auto.
Qed.

(** ** The resolution, effect by effect *)

Lemma resolve_dependency_spec rec root t log :
  resolves rec ->
  exists ext,
    snd (resolve_dependency rec root t log) = log ++ ext
    /\ trace_ok log [] ext
    /\ (fst (resolve_dependency rec root t log) = Ok tt ->
        completed ext
        /\ (In t (DEFINED_IDENTIFIERS (log ++ ext)) \/ In (not_found t) ext)).
Proof.
  intros Hrec. rewrite resolve_dependency_eq.
  destruct (declaration root "struct" t) as [s | ex |] eqn:Es;
    [| exists []; rewrite app_nil_r; simpl; repeat split; discriminate
     | exists []; rewrite app_nil_r; simpl; repeat split; discriminate].
  destruct (declaration root "union" t) as [u | ex |] eqn:Eu;
    [| exists []; rewrite app_nil_r; simpl; repeat split; discriminate
     | exists []; rewrite app_nil_r; simpl; repeat split; discriminate].
  destruct (is_None s && is_None u).
  - exists [not_found t]. simpl. repeat split; auto.
  - destruct (Hrec (or_ s u) (is_None u) log) as (ext & E & T & P).
    exists ext. split; auto. split; auto.
    intros Hok. destruct (P Hok) as (C & e & n & He & Hn & Hin). split; auto.
    left. destruct (or__found root t s u e Es Eu He) as [_ Hname].
    assert (n = ("Vk" ++ t)%string) by congruence. subst n.
    now rewrite remove_prefix_Vk in Hin.
Qed.

Lemma resolve_dependencies_spec rec root :
  resolves rec ->
  forall members log, exists ext,
    snd (resolve_dependencies rec root members log) = log ++ ext
    /\ trace_ok log [] ext
    /\ (fst (resolve_dependencies rec root members log) = Ok tt ->
        completed ext /\ members_resolved log ext members).
Proof.
  intros Hrec. induction members as [| mem rest IH]; intros log.
  - exists []. simpl. rewrite app_nil_r. repeat split. intros m t [].
  - destruct (member_type mem) as [t | ex |] eqn:Et.
    + rewrite (resolve_dependencies_cons _ _ _ _ _ _ Et).
      destruct (In_ t (DEFINED_IDENTIFIERS log)) eqn:Ed.
      * rewrite bind_ret. destruct (IH log) as (ext & E & T & P).
        exists ext. split; auto. split; auto.
        intros Hok. destruct (P Hok) as [C MR]. split; auto.
        intros m t' [<- | Hm] Ht'; [| exact (MR m t' Hm Ht')].
        left. assert (t' = t) by congruence. subst t'.
        apply DEFINED_IDENTIFIERS_incl. now apply In__spec.
      * destruct (resolve_dependency_spec rec root t log Hrec) as (e1 & E1 & T1 & P1).
        unfold bind.
        destruct (resolve_dependency rec root t log) as [[[] | ex |] log1];
          simpl in E1; subst log1.
        -- destruct (IH (log ++ e1)) as (e2 & E2 & T2 & P2).
           exists (e1 ++ e2). rewrite E2, app_assoc. split; auto. split.
           ++ now apply trace_ok_seq.
           ++ intros Hok. destruct (P1 eq_refl) as [C1 R1].
              destruct (P2 Hok) as [C2 MR]. split; [now apply completed_seq |].
              intros m t' [<- | Hm] Ht'.
              ** assert (t' = t) by congruence. subst t'. destruct R1 as [R1 | R1].
                 --- left. rewrite app_assoc. now apply DEFINED_IDENTIFIERS_incl.
                 --- right. apply in_or_app. now left.
              ** exact (members_resolved_shift log e1 e2 rest MR m t' Hm Ht').
        -- exists e1. cbn [fst snd]. split; [reflexivity | split; [exact T1 | discriminate]].
        -- exists e1. cbn [fst snd]. split; [reflexivity | split; [exact T1 | discriminate]].
    + cbn [resolve_dependencies]. rewrite Et, bind_lift_Raise.
      exists []. simpl. rewrite app_nil_r. repeat split; discriminate.
    + now apply member_type_terminates in Et.
Qed.

Lemma completed_call (n : string) (ext : Log) (w : Chunk) :
  declares w n -> stage w = Some 5 ->
  completed ext -> completed (Defined n :: ext ++ [Write w]).
Proof.
  intros Hw Hs C. unfold completed. simpl. split.
  - right. rewrite declared_names_app. apply in_or_app. right.
    destruct w; simpl in *; try discriminate. now left.
  - apply completed_from_app.
    + apply (completed_from_shift [Defined n]) in C. now rewrite app_nil_r in C.
    + simpl. auto.
Qed.

Lemma parse_struct_or_enum_resolves root (fuel : nat) :
  resolves (parse_struct_or_enum fuel root).
Proof.
  induction fuel as [| fuel IH]; intros struct is_struct log.
  - exists []. simpl. rewrite app_nil_r. repeat split; discriminate.
  - rewrite parse_struct_or_enum_S.
    destruct struct as [e |]; cbn [some_or];
      [rewrite bind_lift_Ok
      | rewrite bind_lift_Raise; exists []; simpl; rewrite app_nil_r;
        repeat split; discriminate].
    destruct (get e "name") as [n |] eqn:En; cbn [some_or];
      [rewrite bind_lift_Ok, bind_state
      | rewrite bind_lift_Raise; exists []; simpl; rewrite app_nil_r;
        repeat split; discriminate].
    destruct (In_ (remove_prefix n) (DEFINED_IDENTIFIERS log)) eqn:Ed.
    + exists []. cbn [fst snd ret]. rewrite app_nil_r.
      split; [reflexivity | split; [exact I |]]. intros _. split; [exact I |].
      exists e, n. split; [reflexivity | split; [exact En |]]. now apply In__spec.
    + rewrite bind_effect. apply In__false in Ed.
      set (name := remove_prefix n) in *.
      destruct (resolve_dependencies_spec _ root IH (iter e "member")
                  (log ++ [Defined name])) as (ed & E & T & P).
      assert (T0 : trace_ok log [] (Defined name :: ed)).
      { simpl. split; [right; now rewrite app_nil_r |].
        apply trace_ok_shift in T. now rewrite app_nil_r in T. }
      assert (Hrun :
        (resolve_dependencies (parse_struct_or_enum fuel root) root (iter e "member") ;;
         struct_mems <- lift (mapE parse_structure_member (iter e "member")) ;;
         write (StructDecl is_struct name (iter e "member") struct_mems))
          (log ++ [Defined name])
        = match resolve_dependencies (parse_struct_or_enum fuel root) root
                  (iter e "member") (log ++ [Defined name]) with
          | (Ok _, l) =>
              match mapE parse_structure_member (iter e "member") with
              | Ok args =>
                  (Ok tt, l ++ [Write (StructDecl is_struct name (iter e "member") args)])
              | Raise ex => (Raise ex, l)
              | OutOfFuel => (OutOfFuel, l)
              end
          | (Raise ex, l) => (Raise ex, l)
          | (OutOfFuel, l) => (OutOfFuel, l)
          end).
      { unfold bind, lift, write, effect.
        destruct (resolve_dependencies _ root (iter e "member") _) as [[[] | ex |] l]; auto;
          destruct (mapE parse_structure_member (iter e "member")); auto. }
      rewrite Hrun. clear Hrun.
      destruct (resolve_dependencies _ root (iter e "member") _) as [[[] | ex |] log1];
        cbn [fst snd] in E, P; subst log1.
      * destruct (mapE parse_structure_member (iter e "member")) as [args | ex |] eqn:Em.
        -- destruct (P eq_refl) as [C MR].
           exists (Defined name :: ed ++ [Write (StructDecl is_struct name (iter e "member") args)]).
           cbn [fst snd]. split; [now rewrite <- !app_assoc |]. split.
           ++ change (Defined name :: ed ++ [Write (StructDecl is_struct name (iter e "member") args)])
                with ((Defined name :: ed) ++ [Write (StructDecl is_struct name (iter e "member") args)]).
              apply trace_ok_app. split; auto. simpl. split; auto.
              split; [| split; auto].
              ** exists [], ed. split; [reflexivity | split].
                 --- now rewrite app_nil_r.
                 --- apply (no_redeclaration (log ++ [Defined name]) name ed) with (pre := []);
                       auto.
                     rewrite DEFINED_IDENTIFIERS_Defined. apply in_or_app. right. now left.
              ** exact (members_resolved_shift log [Defined name] ed _ MR).
           ++ intros _. split.
              ** now apply completed_call.
              ** exists e, n. split; [reflexivity | split; [exact En |]]. fold name.
                 rewrite DEFINED_IDENTIFIERS_app. apply in_or_app. right. simpl. now left.
        -- exists (Defined name :: ed). cbn [fst snd].
           split; [now rewrite <- app_assoc |]. split; [exact T0 | discriminate].
        -- exfalso. revert Em. apply mapE_terminates, parse_structure_member_terminates.
      * exists (Defined name :: ed). cbn [fst snd].
        split; [now rewrite <- app_assoc |]. split; [exact T0 | discriminate].
      * exists (Defined name :: ed). cbn [fst snd].
        split; [now rewrite <- app_assoc |]. split; [exact T0 | discriminate].
Qed.

Lemma generates_parse_struct_or_enum root fuel struct is_struct :
  generates (parse_struct_or_enum fuel root struct is_struct).
Proof.
  intros log.
  destruct (parse_struct_or_enum_resolves root fuel struct is_struct log)
    as (ext & E & T & P).
  exists ext. split; auto. split; auto.
  intros [] Hok. now destruct (P Hok).
Qed.

(** ** Idempotent resolution (C3) *)


Lemma parse_struct_or_enum_Ok fuel root struct is_struct log log' :
  parse_struct_or_enum fuel root struct is_struct log = (Ok tt, log') ->
  exists fuel' e n ext,
    fuel = S fuel' /\ struct = Some e /\ get e "name" = Some n
    /\ log' = log ++ ext
    /\ In (remove_prefix n) (DEFINED_IDENTIFIERS log')
    /\ trace_ok log [] ext /\ completed ext /\ Forall resolver_effect ext.
Proof.
  intros H.
  destruct (parse_struct_or_enum_resolves root fuel struct is_struct log)
    as (ext & E & T & P).
  destruct (emits_parse_struct_or_enum resolver_effect fuel root
              (fun _ => I) (fun _ => I) (fun _ _ _ _ => I) struct is_struct log)
    as (ext' & E' & F).
  rewrite H in E, E', P. cbn [fst snd] in E, E', P.
  assert (ext' = ext) by (apply (app_inv_head log); congruence). subst ext'.
  destruct (P eq_refl) as (C & e & n & He & Hn & Hin).
  destruct fuel as [| fuel']; [discriminate |].
  exists fuel', e, n, ext. rewrite E. repeat split; auto.
Qed.

Lemma In_defined_in (n : string) (log : Log) :
  In n (defined_in log) <-> In (Defined n) log.
Proof.
  unfold defined_in. rewrite in_flat_map. split.
  - intros (e & He & Hn). destruct e; simpl in Hn; try easy.
    now destruct Hn as [-> | []].
  - intros H. exists (Defined n). split; auto. now left.
Qed.

Lemma In_declared_names (n : string) (log : Log) :
  In n (declared_names log)
  <-> exists b ms args, In (Write (StructDecl b n ms args)) log.
Proof.
  unfold declared_names. rewrite in_flat_map. split.
  - intros (e & He & Hn). destruct e as [[] | | |]; simpl in Hn; try easy.
    destruct Hn as [-> | []]. eauto.
  - intros (b & ms & args & H). eexists. split; [exact H |]. now left.
Qed.

(** Among the effects of the resolution, a name is only registered for a
    declaration that comes later. *)
Lemma resolver_effects_not_just_declared (ext pre post : Log) (n : string) :
  Forall resolver_effect ext -> ext = pre ++ post -> ~ just_declared pre n.
Proof.
  intros F -> [(pre' & c & -> & Hc & Hs) | (pre' & t & ->)].
  - rewrite Forall_forall in F.
    specialize (F (Write c)). destruct c; simpl in *; try (apply F); auto;
      repeat (apply in_or_app; (right; now left) || left).
  - rewrite Forall_forall in F.
    apply (F (HandleName n)).
    apply in_or_app. left. apply in_or_app. right. right. now left.
Qed.

Lemma registered_names_are_declared (ext : Log) (n : string) :
  Forall resolver_effect ext -> completed ext ->
  In n (defined_in ext) -> In n (declared_names ext).
Proof.
  intros F C Hin. apply In_defined_in, in_split in Hin as (pre & post & E).
  destruct (completed_from_at ext [] C pre n post E) as [J | Hd].
  - exfalso. revert J. simpl. now apply (resolver_effects_not_just_declared ext pre _ n F E).
  - rewrite E, declared_names_app. apply in_or_app. right.
    change (declared_names (Defined n :: post)) with (declared_names post). exact Hd.
Qed.



(** ** The whole generation, effect by effect *)

Ltac generates_step :=
  lazymatch goal with
  | |- generates (bind (write (HandleDecl _ _)) _) => apply generates_handle
  | |- generates (bind (write _) (fun _ => effect (Defined _))) =>
      apply generates_declaration; [reflexivity | discriminate]
  | |- generates (bind _ _) => apply generates_bind; [| intro]
  | |- generates (for_each _ _) => apply generates_for_each; intro
  | |- generates (ret _) => apply generates_ret
  | |- generates (lift _) => apply generates_lift
  | |- generates state => apply generates_state
  | |- generates (write _) => apply generates_write; discriminate
  | |- generates (parse_struct_or_enum _ _ _ _) => apply generates_parse_struct_or_enum
  | |- generates (if _ then _ else _) => apply generates_if
  | |- generates (match ?x with _ => _ end) => destruct x
  end.

Lemma generates_parse_basetypes root : generates (parse_basetypes root).
Proof. unfold parse_basetypes. repeat generates_step. Qed.

Lemma generates_parse_handles root : generates (parse_handles root).
Proof. unfold parse_handles. repeat generates_step. Qed.

Lemma generates_parse_flags root : generates (parse_flags root).
Proof. unfold parse_flags. repeat generates_step. Qed.

Lemma generates_parse_enums items root : generates (parse_enums_with items root).
Proof. unfold parse_enums_with. repeat generates_step. Qed.

Lemma generates_parse_funcpointers root : generates (parse_funcpointers root).
Proof. unfold parse_funcpointers. repeat generates_step. Qed.

Lemma generates_parse_structures_and_unions root :
  generates (parse_structures_and_unions root).
Proof. unfold parse_structures_and_unions. repeat generates_step. Qed.

Lemma generates_parse_commands root : generates (parse_commands root).
Proof. unfold parse_commands, parse_commands_with. repeat generates_step. Qed.

Lemma generates_parse_extensions root : generates (parse_extensions root).
Proof. unfold parse_extensions. repeat generates_step. Qed.

Lemma generates_export items root : generates (export_with items root).
Proof.
  unfold export_with, export_in, add_imports, add_initialization, add_post_initialization.
  apply generates_bind; [apply generates_write; discriminate | intros _].
  apply generates_bind; [apply generates_write; discriminate | intros _].
  apply generates_bind; [apply generates_parse_basetypes | intros _].
  apply generates_bind; [apply generates_parse_handles | intros _].
  apply generates_bind; [apply generates_parse_flags | intros _].
  apply generates_bind; [apply generates_parse_enums | intros _].
  apply generates_bind; [apply generates_parse_funcpointers | intros _].
  apply generates_bind; [apply generates_parse_structures_and_unions | intros _].
  apply generates_bind; [apply generates_parse_commands | intros _].
  apply generates_bind; [apply generates_parse_extensions | intros _].
  apply generates_write; discriminate.
Qed.

Lemma export_trace root out log :
  export root = (out, log) ->
  trace_ok [] [] log /\ (out = Ok tt -> completed log).
Proof.
  intros H. destruct (generates_export TYPES_SUFFIX root []) as (ext & E & T & C).
  unfold export in H. rewrite H in E, C. cbn [fst snd app] in E, C. subst ext.
  split; auto. intros ->. now apply (C tt).
Qed.

(** Where a name enters the registry: right after its declaration, or,
    for a structure or union, before it. *)
Lemma registration_cases root out log :
  export root = (out, log) ->
  forall pre n post,
    log = pre ++ Defined n :: post ->
    just_declared pre n
    \/ (~ In n (DEFINED_IDENTIFIERS pre)
        /\ ~ In n (declared_names pre)
        /\ (out = Ok tt -> In n (declared_names post))).
Proof.
  intros H pre n post E. destruct (export_trace root out log H) as [T C].
  pose proof (trace_ok_at [] log [] T pre (Defined n) post E) as S.
  cbn [app step_ok] in S. destruct S as [J | Hf]; [now left |].
  assert (Hd : ~ In n (declared_names pre)).
  { intros Hin. apply Hf. rewrite E in T. apply trace_ok_app in T as [T _].
    destruct (declared_once [] pre [] T) as [_ D]. destruct (D n Hin) as [_ D'].
    unfold DEFINED_IDENTIFIERS. apply in_or_app. now right. }
  destruct out as [[] | e |].
  - destruct (completed_from_at log [] (C eq_refl) pre n post E) as [J | Hp];
      [now left | right; auto].
  - right. split; [| split]; auto. discriminate.
  - right. split; [| split]; auto. discriminate.
Qed.

Lemma declared_names_chunk_names (n : string) (log : Log) :
  In n (declared_names log) -> In n (chunk_names log).
Proof.
  unfold declared_names, chunk_names, written. rewrite !in_flat_map.
  intros (e & He & Hn). destruct e as [[] | | |]; simpl in Hn; try easy.
  destruct Hn as [-> | []]. eexists. split.
  - apply in_flat_map. eexists. split; [exact He |]. now left.
  - now left.
Qed.

Lemma chunk_names_app (a b : Log) : chunk_names (a ++ b) = chunk_names a ++ chunk_names b.
Proof. unfold chunk_names. now rewrite written_app, flat_map_app. Qed.

Lemma chunk_names_Write (c : Chunk) (n : string) (log : Log) :
  declares c n -> In (Write c) log -> In n (chunk_names log).
Proof.
  intros Hd Hin. unfold chunk_names, written. apply in_flat_map. exists c. split.
  - apply in_flat_map. exists (Write c). split; auto. now left.
  - destruct c; simpl in *; try easy; now left.
Qed.

Lemma just_declared_chunk_names (pre : Log) (n : string) :
  just_declared pre n -> In n (chunk_names pre).
Proof.
  intros [(pre' & c & -> & Hc & _) | (pre' & t & ->)].
  - apply (chunk_names_Write c); auto. apply in_or_app. right. now left.
  - apply (chunk_names_Write (HandleDecl n t)); [reflexivity |].
    apply in_or_app. right. now left.
Qed.

(** ** Topological validity (C1) *)




(** ** Registration (C4) *)

(** C4, as amended.  In the effects of a run, a name enters the registry
    either right after its declaration is written (for a handle, after the
    name is also appended to HANDLE_NAMES), or, for a structure or union,
    when it is not in the registry and before its declaration is written:
    no declaration of it was written before, and when the run completes
    one is written later.  The declaration of a structure or union is
    written after its name was registered, and once. *)
Theorem registration_order (root : Element) (out : Outcome unit) (log : Log) :
  export root = (out, log) ->
  (forall pre n post,
      log = pre ++ Defined n :: post ->
      just_declared pre n
      \/ (~ In n (DEFINED_IDENTIFIERS pre)
          /\ ~ In n (declared_names pre)
          /\ (out = Ok tt -> In n (declared_names post))))
  /\ (forall pre b n ms args post,
        log = pre ++ Write (StructDecl b n ms args) :: post ->
        In (Defined n) pre
        /\ ~ In n (declared_names pre)
        /\ ~ In n (declared_names post)).
Proof.
  intros H. split; [exact (registration_cases root out log H) |].
  intros pre b n ms args post E.
  destruct (export_trace root out log H) as [T _].
  pose proof (trace_ok_at [] log [] T pre _ post E) as S.
  cbn [app step_ok] in S. destruct S as ((p1 & p2 & -> & _ & _) & _).
  split; [apply in_or_app; right; now left |].
  rewrite E in T. destruct (declared_once [] _ [] T) as [ND _].
  rewrite declared_names_app in ND.
  change (declared_names (Write (StructDecl b n ms args) :: post))
    with (n :: declared_names post) in ND.
  pose proof (NoDup_remove_2 _ _ _ ND) as Hnot.
  split; intros Hin; apply Hnot; apply in_or_app; auto.
Qed.

Lemma registration_order_witness :
  In (Defined "B"%string) (firstn 32 sample_log)
  /\ ~ In "B"%string (declared_names (firstn 32 sample_log))
  /\ ~ In "B"%string (declared_names (skipn 33 sample_log)).
Proof.
  refine (proj2 (registration_order doc_sample (Ok tt) sample_log _)
            (firstn 32 sample_log) true "B"%string _ _ (skipn 33 sample_log) _).
  - vm_compute. reflexivity.
  - vm_compute. reflexivity.
Defined.

(** C4 as stated fails on [doc_sample]: what precedes the registration of
    A is the title of the structures, not the declaration of A. *)
Lemma registration_counterexample :
  ~ registered_after_declaration (snd (export doc_sample)).
Proof.
  assert (E : snd (export doc_sample)
              = (firstn 27 sample_log ++ [Write structures_header])
                  ++ Defined "A"%string :: skipn 29 sample_log)
    by (vm_compute; reflexivity).
  intros H. destruct (H _ _ _ E) as (_ & pre' & c & Hc & [Hp | Hp]).
  - apply app_inj_tail in Hp as [_ Hp]. inversion Hp; subst c. exact Hc.
  - change (pre' ++ [Write c; HandleName "A"%string])
      with (pre' ++ [Write c] ++ [HandleName "A"%string]) in Hp.
    rewrite app_assoc in Hp. apply app_inj_tail in Hp as [_ Hp]. discriminate.
Qed.

(** ** The order of the stages (C2) *)

Lemma stages_app (a b : Log) : stages (a ++ b) = stages a ++ stages b.
Proof. unfold stages, chunk_stages. now rewrite written_app, flat_map_app. Qed.

Lemma StronglySorted_app_le (l1 l2 : list nat) :
  StronglySorted le l1 -> StronglySorted le l2 ->
  (forall x y, In x l1 -> In y l2 -> x <= y) ->
  StronglySorted le (l1 ++ l2).
Proof.
  intros H1 H2 H. induction H1 as [| a l Hl IH Ha]; simpl; auto.
  constructor.
  - apply IH. intros x y Hx. apply H. now right.
  - apply Forall_app. split; auto.
    apply Forall_forall. intros y Hy. apply H; auto. now left.
Qed.

Lemma StronglySorted_le_at (a b c : list nat) (i j : nat) :
  StronglySorted le (a ++ i :: b ++ j :: c) -> i <= j.
Proof.
  induction a as [| x a IH]; simpl; intros H.
  - apply StronglySorted_inv in H as [_ H]. rewrite Forall_forall in H.
    apply H. apply in_or_app. right. now left.
  - apply StronglySorted_inv in H as [H _]. now apply IH.
Qed.

Lemma sorted_in_stage_order (f : Chunk -> option nat) (chunks : list Chunk) :
  StronglySorted le (chunk_stages f chunks) -> in_stage_order f chunks.
Proof.
  intros H pre c1 mid c2 post i j -> H1 H2. unfold chunk_stages in H.
  rewrite flat_map_app in H. cbn [flat_map] in H. rewrite H1 in H.
  rewrite flat_map_app in H. cbn [flat_map] in H. rewrite H2 in H.
  cbn [app] in H. now apply StronglySorted_le_at in H.
Qed.

Lemma stage_effect_stages (k : nat) (ext : Log) :
  Forall (stage_effect k) ext -> Forall (eq k) (stages ext).
Proof.
  induction 1 as [| e r He Hr IH]; [constructor |].
  change (e :: r) with ([e] ++ r). rewrite stages_app. apply Forall_app. split; auto.
  destruct e as [c | | |]; try constructor.
  unfold stages, chunk_stages. simpl in *. destruct (stage c); simpl; auto.
Qed.

Lemma emits_staged (k : nat) {A} (m : M A) : emits (stage_effect k) m -> staged k k m.
Proof.
  intros H log. destruct (H log) as (ext & E & F). exists ext. split; auto.
  apply stage_effect_stages in F. split.
  - induction F as [| x l Hx Hl IH]; constructor; auto.
    subst x. apply Forall_forall. intros y Hy. rewrite Forall_forall in Hl.
    now rewrite (Hl y Hy).
  - eapply Forall_impl; [| exact F]. intros x <-. lia.
Qed.

Lemma staged_weaken (lo hi lo' hi' : nat) {A} (m : M A) :
  lo' <= lo -> hi <= hi' -> staged lo hi m -> staged lo' hi' m.
Proof.
  intros Hlo Hhi H log. destruct (H log) as (ext & E & S & F).
  exists ext. split; auto. split; auto.
  eapply Forall_impl; [| exact F]. simpl. intros x. lia.
Qed.

Lemma staged_bind (lo mid hi : nat) {A B} (m : M A) (k : A -> M B) :
  lo <= mid -> mid <= hi ->
  staged lo mid m -> (forall a, staged mid hi (k a)) -> staged lo hi (bind m k).
Proof.
  intros Hlo Hhi Hm Hk log. destruct (Hm log) as (ext & E & S & F). unfold bind.
  destruct (m log) as [[a | e | ] log1]; simpl in E; subst log1.
  - destruct (Hk a (log ++ ext)) as (ext' & E' & S' & F'). exists (ext ++ ext').
    rewrite E', app_assoc, stages_app. split; auto. split.
    + apply StronglySorted_app_le; auto. intros x y Hx Hy.
      rewrite Forall_forall in F, F'. specialize (F x Hx). specialize (F' y Hy). lia.
    + apply Forall_app. split; eapply Forall_impl; eauto; simpl; intros x; lia.
  - exists ext. cbn [snd]. split; auto. split; auto.
    eapply Forall_impl; [| exact F]. simpl. intros x. lia.
  - exists ext. cbn [snd]. split; auto. split; auto.
    eapply Forall_impl; [| exact F]. simpl. intros x. lia.
Qed.

Ltac emits_step :=
  lazymatch goal with
  | |- emits _ (bind _ _) => apply emits_bind; [| intro]
  | |- emits _ (for_each _ _) => apply emits_for_each; intro
  | |- emits _ (ret _) => apply emits_ret
  | |- emits _ (lift _) => apply emits_lift
  | |- emits _ state => apply emits_state
  | |- emits _ (write _) => apply emits_write; cbv; auto
  | |- emits _ (effect _) => apply emits_effect; cbv; auto
  | |- emits _ (parse_struct_or_enum _ _ _ _) =>
      apply emits_parse_struct_or_enum; intros; cbv; auto
  | |- emits _ (if _ then _ else _) => apply emits_if
  | |- emits _ (match ?x with _ => _ end) => destruct x
  end.

Lemma staged_parse_basetypes root : staged 0 0 (parse_basetypes root).
Proof. apply emits_staged. unfold parse_basetypes. repeat emits_step. Qed.

Lemma staged_parse_handles root : staged 1 1 (parse_handles root).
Proof. apply emits_staged. unfold parse_handles. repeat emits_step. Qed.

Lemma staged_parse_flags root : staged 2 2 (parse_flags root).
Proof. apply emits_staged. unfold parse_flags. repeat emits_step. Qed.

Lemma staged_parse_enums items root : staged 3 3 (parse_enums_with items root).
Proof. apply emits_staged. unfold parse_enums_with. repeat emits_step. Qed.

Lemma staged_parse_funcpointers root : staged 4 4 (parse_funcpointers root).
Proof. apply emits_staged. unfold parse_funcpointers. repeat emits_step. Qed.

Lemma staged_parse_structures_and_unions root :
  staged 5 5 (parse_structures_and_unions root).
Proof. apply emits_staged. unfold parse_structures_and_unions. repeat emits_step. Qed.

Lemma staged_parse_commands root : staged 6 6 (parse_commands root).
Proof. apply emits_staged. unfold parse_commands, parse_commands_with. repeat emits_step. Qed.

Lemma staged_parse_extensions root : staged 7 7 (parse_extensions root).
Proof. apply emits_staged. unfold parse_extensions. repeat emits_step. Qed.

Lemma staged_text (k : nat) (s : string) : staged k k (write (Text s)).
Proof. apply emits_staged, emits_write. exact I. Qed.

Lemma staged_export items root : staged 0 7 (export_with items root).
Proof.
  unfold export_with, export_in, add_imports, add_initialization, add_post_initialization.
  apply (staged_bind 0 0 7); [lia | lia | apply staged_text | intros _].
  apply (staged_bind 0 0 7); [lia | lia | apply staged_text | intros _].
  apply (staged_bind 0 0 7); [lia | lia | apply staged_parse_basetypes | intros _].
  apply (staged_bind 0 1 7); [lia | lia | | intros _].
  { apply (staged_weaken 1 1); [lia | lia | apply staged_parse_handles]. }
  apply (staged_bind 1 2 7); [lia | lia | | intros _].
  { apply (staged_weaken 2 2); [lia | lia | apply staged_parse_flags]. }
  apply (staged_bind 2 3 7); [lia | lia | | intros _].
  { apply (staged_weaken 3 3); [lia | lia | apply staged_parse_enums]. }
  apply (staged_bind 3 4 7); [lia | lia | | intros _].
  { apply (staged_weaken 4 4); [lia | lia | apply staged_parse_funcpointers]. }
  apply (staged_bind 4 5 7); [lia | lia | | intros _].
  { apply (staged_weaken 5 5); [lia | lia | apply staged_parse_structures_and_unions]. }
  apply (staged_bind 5 6 7); [lia | lia | | intros _].
  { apply (staged_weaken 6 6); [lia | lia | apply staged_parse_commands]. }
  apply (staged_bind 6 7 7); [lia | lia | | intros _].
  { apply (staged_weaken 7 7); [lia | lia | apply staged_parse_extensions]. }
  apply staged_text.
Qed.

(** C2, as amended.  In the output of a run, whether it completes or not,
    the chunks come in the order basetypes, handles, bitmasks,
    enumerations, function-pointer types, structures and unions, commands,
    extensions: no chunk of a stage comes after a chunk of a later one. *)
Theorem stages_in_order (root : Element) :
  in_stage_order stage (written (snd (export root))).
Proof.
  apply sorted_in_stage_order.
  destruct (staged_export TYPES_SUFFIX root []) as (ext & E & S & _).
  unfold export. rewrite E. exact S.
Qed.

(** C2 as stated fails on [doc_sample]: the basetype Flags is written
    before the handle Instance. *)
Lemma stages_in_order_counterexample :
  ~ in_stage_order handles_first (written (snd (export doc_sample))).
Proof.
  intros H.
  assert (E : written (snd (export doc_sample))
              = firstn 3 (written sample_log)
                  ++ BasetypeDecl "Flags" "c_uint"
                  :: firstn 2 (skipn 4 (written sample_log))
                  ++ HandleDecl "Instance" "c_size_t"
                  :: skipn 7 (written sample_log))
    by (vm_compute; reflexivity).
  specialize (H _ _ _ _ _ 1 0 E eq_refl eq_refl). lia.
Qed.

(** ** Every run gives a Python outcome *)

Lemma terminates_ret {A} (a : A) : terminates (ret a).
Proof. intros log. discriminate. Qed.

Lemma terminates_lift {A} (x : Outcome A) : x <> OutOfFuel -> terminates (lift x).
Proof. intros H log. exact H. Qed.

Lemma terminates_state : terminates state.
Proof. intros log. discriminate. Qed.

Lemma terminates_effect (e : Effect) : terminates (effect e).
Proof. intros log. discriminate. Qed.

Lemma terminates_bind {A B} (m : M A) (k : A -> M B) :
  terminates m -> (forall a, terminates (k a)) -> terminates (bind m k).
Proof.
  intros Hm Hk log. unfold bind. specialize (Hm log).
  destruct (m log) as [[a | e |] log1]; cbn [fst] in *.
  - apply Hk.
  - discriminate.
  - now contradiction Hm.
Qed.

Lemma terminates_for_each {A} (xs : list A) (body : A -> M unit) :
  (forall x, terminates (body x)) -> terminates (for_each xs body).
Proof. intros H log. apply for_each_terminates. intros x l. apply H. Qed.

Lemma terminates_parse_struct_or_enum root struct is_struct :
  terminates (parse_struct_or_enum (depth_bound root) root struct is_struct).
Proof. intros log. apply parse_struct_or_enum_at_depth_bound. Qed.

Ltac terminates_step :=
  lazymatch goal with
  | |- terminates (bind _ _) => apply terminates_bind; [| intro]
  | |- terminates (for_each _ _) => apply terminates_for_each; intro
  | |- terminates (ret _) => apply terminates_ret
  | |- terminates (lift _) => apply terminates_lift; total
  | |- terminates state => apply terminates_state
  | |- terminates (write _) => apply terminates_effect
  | |- terminates (effect _) => apply terminates_effect
  | |- terminates (parse_struct_or_enum _ _ _ _) => apply terminates_parse_struct_or_enum
  | |- terminates (if ?b then _ else _) => destruct b
  | |- terminates (match ?x with _ => _ end) => destruct x
  end.

(** The model of a run never stops for want of depth: [export] gives, for
    every document, a normal return or a Python exception. *)
Lemma export_terminates items root : terminates (export_with items root).
Proof.
  unfold export_with, export_in, add_imports, add_initialization, add_post_initialization,
    parse_basetypes, parse_handles, parse_flags, parse_enums_with, parse_funcpointers,
    parse_structures_and_unions, parse_commands_with, parse_extensions.
  repeat terminates_step.
Qed.

(** ** Names *)

Functional Scheme to_snake_case_ind := Induction for to_snake_case Sort Prop.

Lemma is_upper_letter (b : ascii) :
  Py.is_upper b = true ->
  Ascii.eqb b "_" = false
  /\ Ascii.eqb (Py.lower b) "_" = false
  /\ Py.lower (Py.lower b) = Py.lower b.
Proof.
  destruct b as [[] [] [] [] [] [] [] []]; vm_compute; intros H;
    try discriminate H; repeat split.
Qed.

Lemma lower_lower (c : ascii) : Py.lower (Py.lower c) = Py.lower c.
Proof. destruct c as [[] [] [] [] [] [] [] []]; reflexivity. Qed.

Lemma letters_String (c : ascii) (r : string) :
  letters (String c r)
  = (if Ascii.eqb c "_" then [] else [Py.lower c]) ++ letters r.
Proof. unfold letters. simpl. now destruct (Ascii.eqb c "_"). Qed.

(** X1.  [to_snake_case] changes a name exactly when an uppercase letter
    follows a character that is not one: a name in lower case, or all in
    capitals, is returned as it is. *)
Theorem to_snake_case_fixed_points (name : string) :
  to_snake_case name = name <-> camel_boundary name = false.
Proof.
  pattern name, (to_snake_case name). apply to_snake_case_ind; clear name; intros.
  - subst. simpl. tauto.
  - subst. simpl. tauto.
  - change (camel_boundary (String a (String b "")))
      with ((negb (Py.is_upper a) && Py.is_upper b) || false).
    rewrite e1. split; intros E; [inversion E | discriminate].
  - change (camel_boundary (String a (String b (String c t3))))
      with ((negb (Py.is_upper a) && Py.is_upper b) || camel_boundary (String b (String c t3))).
    rewrite e1. apply andb_prop in e1 as [_ Hb].
    apply is_upper_letter in Hb as (Hb & _).
    split; intros E; [| discriminate].
    injection E as E _. rewrite <- E in Hb. discriminate.
  - change (camel_boundary (String a (String b (String c t3))))
      with ((negb (Py.is_upper a) && Py.is_upper b) || camel_boundary (String b (String c t3))).
    rewrite e1. apply andb_prop in e1 as [_ Hb].
    apply is_upper_letter in Hb as (Hb & _).
    split; intros E; [| discriminate].
    injection E as E _. rewrite <- E in Hb. discriminate.
  - subst t1.
    change (camel_boundary (String a (String b t2)))
      with ((negb (Py.is_upper a) && Py.is_upper b) || camel_boundary (String b t2)).
    rewrite e1, orb_false_l, <- H. split; intros E; [now injection E | now rewrite E].
Qed.

(** X2.  [to_snake_case] only inserts underscores and lowers capitals: without
    the underscores and in lower case, the result spells the name. *)
Theorem to_snake_case_keeps_the_letters (name : string) :
  letters (to_snake_case name) = letters name.
Proof.
  pattern name, (to_snake_case name). apply to_snake_case_ind; clear name; intros.
  - now subst.
  - now subst.
  - rewrite !letters_String. reflexivity.
  - apply andb_prop in e1 as [_ Hb]. apply is_upper_letter in Hb as (Hb & Hl & Hll).
    rewrite !letters_String, H, Hb, Hl, Hll. reflexivity.
  - rewrite !letters_String, H. subst t2. rewrite !letters_String. reflexivity.
  - rewrite !letters_String, H. subst t1. rewrite !letters_String. reflexivity.
Qed.

(** ** Templates *)

Lemma mem_char_app (x : ascii) (a b : string) :
  Py.mem_char x (a ++ b)%string = Py.mem_char x a || Py.mem_char x b.
Proof.
  induction a as [| c r IH]; simpl; auto. now rewrite IH, orb_assoc.
Qed.

(** The characters of [s.replace(o, new)] for a one-character [o]: those
    of [new] when [o] occurs, and those of [s] other than [o]. *)
Lemma mem_char_replace (x o : ascii) (new s : string) :
  Py.mem_char x (Py.replace (String o "") new s)
  = (Py.mem_char x new && Py.mem_char o s)
    || (negb (Ascii.eqb x o) && Py.mem_char x s).
Proof.
  unfold Py.replace. induction s as [| c r IH]; cbn [Py.replace_from Py.mem_char].
  - now rewrite !andb_false_r.
  - cbn [Py.startswith String.length Nat.sub]. rewrite andb_true_r.
    destruct (Ascii.eqb_spec o c) as [<- | Hoc].
    + rewrite mem_char_app, IH.
      destruct (Ascii.eqb x o), (Py.mem_char x new), (Py.mem_char o r),
        (Py.mem_char x r); reflexivity.
    + cbn [Py.mem_char]. rewrite IH.
      destruct (Ascii.eqb_spec x c) as [-> | Hxc].
      * destruct (Ascii.eqb_spec c o) as [-> | _]; [contradiction |].
        cbn [negb andb orb]. now rewrite orb_true_r.
      * cbn [orb]. reflexivity.
Qed.

(** X3.  [expand] uses up its three marks: whatever the template, the result
    has no backquote, no question mark and no dollar sign.  So has every
    template after [prepare_templates]. *)
Theorem expand_leaves_no_mark (template : string) :
  (Py.mem_char "`" (expand template) = false
   /\ Py.mem_char "?" (expand template) = false
   /\ Py.mem_char "$" (expand template) = false)
  /\ (Py.mem_char "`" (prepared template) = false
      /\ Py.mem_char "?" (prepared template) = false
      /\ Py.mem_char "$" (prepared template) = false).
Proof.
  assert (H : forall t, Py.mem_char "`" (expand t) = false
                        /\ Py.mem_char "?" (expand t) = false
                        /\ Py.mem_char "$" (expand t) = false).
  { intros t. unfold expand. rewrite !mem_char_replace.
    cbn [Py.mem_char Py.nl spaces INDENT Ascii.eqb Bool.eqb negb andb orb ascii_of_nat
         ascii_of_pos ascii_of_N].
    repeat split. }
  split; [apply H | apply (H (lstrip_t template))].
Qed.

(** ** Literal suffixes *)

Lemma length_app (a b : string) :
  String.length (a ++ b)%string = String.length a + String.length b.
Proof. induction a as [| c r IH]; simpl; auto. Qed.

Lemma drop_app (a b : string) : Py.drop (String.length a) (a ++ b)%string = b.
Proof. induction a as [| c r IH]; simpl; auto. Qed.

Lemma take_app (a b : string) : Py.take (String.length a) (a ++ b)%string = a.
Proof.
  induction a as [| c r IH]; simpl.
  - now destruct b.
  - now rewrite IH.
Qed.

Lemma endswith_app (a b : string) : Py.endswith (a ++ b)%string b = true.
Proof.
  unfold Py.endswith. rewrite length_app.
  replace (String.length a + String.length b - String.length b) with (String.length a)
    by lia.
  rewrite drop_app, String.eqb_refl, andb_true_r. apply Nat.leb_le. lia.
Qed.

Lemma pythonize_suffix_found (items : list (string * string)) (body suffix type_ : string) :
  In (suffix, type_) items ->
  (forall e1 e2, In e1 items -> In e2 items ->
                 Py.endswith (body ++ suffix) (fst e1) = true ->
                 Py.endswith (body ++ suffix) (fst e2) = true -> e1 = e2) ->
  pythonize_suffix items (body ++ suffix) = (type_ ++ "(" ++ body ++ ")")%string.
Proof.
  induction items as [| [s t] r IH]; intros Hin Hex; [contradiction |].
  cbn [pythonize_suffix]. destruct (Py.endswith (body ++ suffix) s) eqn:E.
  - assert (Heq : (s, t) = (suffix, type_)).
    { apply Hex; cbn [fst]; auto using endswith_app. now left. }
    inversion Heq; subst. rewrite length_app.
    replace (String.length body + String.length suffix - String.length suffix)
      with (String.length body) by lia.
    now rewrite take_app.
  - destruct Hin as [Heq | Hin].
    + inversion Heq; subst. now rewrite endswith_app in E.
    + apply IH; auto. intros e1 e2 H1 H2. apply Hex; now right.
Qed.

(** X4.  [pythonize_value] on a literal: once the parentheses around it are
    removed, a value that ends with one of the suffixes U, ULL and f is
    the call of the type of that suffix on what precedes the suffix, and
    a value whose last character is none of U, L and f is left as it is.
    The test is on the characters only, so a hexadecimal literal in lower
    case that ends with f is taken for a float. *)
Theorem pythonize_value_cases (value : string) :
  (forall body suffix type_,
      In (suffix, type_) TYPES_SUFFIX ->
      Py.strip_chars "()" value = (body ++ suffix)%string ->
      pythonize_value value = (type_ ++ "(" ++ body ++ ")")%string)
  /\ (last_char (Py.strip_chars "()" value) <> Some "U"%char ->
      last_char (Py.strip_chars "()" value) <> Some "L"%char ->
      last_char (Py.strip_chars "()" value) <> Some "f"%char ->
      pythonize_value value = Py.strip_chars "()" value).
Proof.
  unfold pythonize_value, pythonize_value_with. split.
  - intros body suffix type_ Hin ->.
    apply pythonize_suffix_found; auto.
    intros e1 e2. apply TYPES_SUFFIX_exclusive.
  - intros HU HL Hf. set (v := Py.strip_chars "()" value) in *.
    unfold TYPES_SUFFIX. cbn [pythonize_suffix].
    destruct (Py.endswith v "U") eqn:E1.
    { apply endswith_last_char in E1; [| discriminate]. now contradiction HU. }
    destruct (Py.endswith v "ULL") eqn:E2.
    { apply endswith_last_char in E2; [| discriminate]. now contradiction HL. }
    destruct (Py.endswith v "f") eqn:E3.
    { apply endswith_last_char in E3; [| discriminate]. now contradiction Hf. }
    reflexivity.
Qed.

Lemma pythonize_value_cases_witness :
  pythonize_value "(~0ULL)" = ("c_uint64" ++ "(" ++ "~0" ++ ")")%string
  /\ pythonize_value "0x0000000f" = ("c_float" ++ "(" ++ "0x0000000" ++ ")")%string
  /\ pythonize_value "0x7FFFFFFF" = Py.strip_chars "()" "0x7FFFFFFF".
Proof.
  split; [| split].
  - apply (proj1 (pythonize_value_cases "(~0ULL)") "~0" "ULL" "c_uint64")%string.
    + vm_compute. tauto.
    + reflexivity.
  - apply (proj1 (pythonize_value_cases "0x0000000f") "0x0000000" "f" "c_float")%string.
    + vm_compute. tauto.
    + reflexivity.
  - apply (proj2 (pythonize_value_cases "0x7FFFFFFF")); vm_compute; discriminate.
Defined.

(** ** The type of a field *)

(** X5.  The type a field is declared with is built on the name that the loop
    over the dependencies tests: [parse_structure_member] applies
    [format_pointer] to it once per star of the text after the type, and
    then, for an array, [format_array] once, with the text of the [enum]
    child without its prefix as the length when there is such a child, and
    otherwise with the text after the name without its brackets when that
    text starts with a bracket.  So the field of an array of pointers is
    an array of pointers, and a member that [parse_structure_member]
    accepts has a type name for the loop. *)
Theorem field_type_is_built_on_the_member_type
        (mem type_node name_node : Element) (type_text mem_name mem_type : string) :
  find mem "type" = Some type_node ->
  text type_node = Some type_text ->
  find mem "name" = Some name_node ->
  parse_structure_member mem = Ok (mem_name, mem_type) ->
  member_type mem = Ok (map_ctypes type_text)
  /\ (exists name_text,
         text name_node = Some name_text /\ mem_name = pythonize_field_name name_text)
  /\ match find mem "enum" with
     | Some array_length =>
         exists length,
           text array_length = Some length
           /\ mem_type
              = format_array
                  (Nat.iter (ptr_level type_node) format_pointer (map_ctypes type_text))
                  (remove_prefix length)
     | None =>
         mem_type
         = if Py.startswith (name_tail name_node) "["
           then format_array
                  (Nat.iter (ptr_level type_node) format_pointer (map_ctypes type_text))
                  (Py.replace "]" "" (Py.replace "[" "" (name_tail name_node)))
           else Nat.iter (ptr_level type_node) format_pointer (map_ctypes type_text)
     end.
Proof.
  intros Hty Htx Hnm.
  unfold parse_structure_member, member_type, ptr_level, name_tail.
  rewrite Hty, Hnm. cbn [some_or bindE]. rewrite Htx. cbn [map_ctypes_text bindE].
  destruct (text name_node) as [name_text |]; cbn [some_or bindE]; [| discriminate].
  assert (E : match tail type_node with
              | Some tl => Nat.iter (count_char "*" tl) format_pointer (map_ctypes type_text)
              | None => map_ctypes type_text
              end
              = Nat.iter (match tail type_node with
                          | Some tl => count_char "*" tl
                          | None => 0
                          end) format_pointer (map_ctypes type_text)).
  { now destruct (tail type_node). }
  rewrite E. clear E. intros H. split; [reflexivity |].
  destruct (find mem "enum") as [array_length |].
  - destruct (text array_length) as [len |]; cbn [some_or bindE] in H; [| discriminate].
    inversion H. split; [now exists name_text |]. now exists len.
  - destruct (Py.startswith _ "[") in H |- *; inversion H;
      (split; [now exists name_text | reflexivity]).
Qed.

Lemma field_type_is_built_on_the_member_type_witness :
  (member_type (node "member" []
                  [mkElement "type" [] (Some "VkA") (Some "** ") []; leaf "name" "ppA"])
   = Ok "A"%string
   /\ "POINTER(POINTER(A))"%string = Nat.iter 2 format_pointer "A"%string)
  /\ (member_type (node "member" []
                     [leaf "type" "char";
                      mkElement "name" [] (Some "deviceName") (Some "[") [];
                      mkElement "enum" [] (Some "VK_MAX_NAME") (Some "]") []])
      = Ok "c_char"%string
      /\ exists length,
           Some "VK_MAX_NAME"%string = Some length
           /\ "(c_char*MAX_NAME)"%string
              = format_array (Nat.iter 0 format_pointer "c_char"%string)
                             (remove_prefix length)).
Proof.
  split.
  - destruct (field_type_is_built_on_the_member_type
                (node "member" []
                   [mkElement "type" [] (Some "VkA") (Some "** ") []; leaf "name" "ppA"])
                (mkElement "type" [] (Some "VkA") (Some "** ") []) (leaf "name" "ppA")
                "VkA"%string "A"%string "POINTER(POINTER(A))"%string
                eq_refl eq_refl eq_refl eq_refl) as (H1 & _ & H2).
    split; [exact H1 | exact H2].
  - destruct (field_type_is_built_on_the_member_type
                (node "member" []
                   [leaf "type" "char";
                    mkElement "name" [] (Some "deviceName") (Some "[") [];
                    mkElement "enum" [] (Some "VK_MAX_NAME") (Some "]") []])
                (leaf "type" "char")
                (mkElement "name" [] (Some "deviceName") (Some "[") [])
                "char"%string "device_name"%string "(c_char*MAX_NAME)"%string
                eq_refl eq_refl eq_refl eq_refl) as (H1 & _ & H2).
    split; [exact H1 | exact H2].
Defined.

(** ** The C types *)

Lemma lookup_In (key : string) (kvs : list (string * string)) (v : string) :
  lookup key kvs = Some v -> In v (map snd kvs).
Proof.
  induction kvs as [| [k w] r IH]; cbn [lookup map snd]; [discriminate |].
  destruct (String.eqb k key).
  - intros H. inversion H. now left.
  - intros H. right. now apply IH.
Qed.

(** X6.  Every type that [TYPES_MAP] gives is among the identifiers that
    [DEFINED_IDENTIFIERS] has from the start.  So a member whose type is a
    key of [TYPES_MAP] passes the test of line 479 in every state: the loop
    over the dependencies looks nothing up for it and prints nothing. *)
Theorem members_of_C_types_need_no_resolution
        (rec : option Element -> bool -> M unit) (root mem type_node : Element)
        (rest : list Element) (key py_type : string) (log : Log) :
  find mem "type" = Some type_node ->
  text type_node = Some key ->
  lookup key TYPES_MAP = Some py_type ->
  In (map_ctypes key) (DEFINED_IDENTIFIERS log)
  /\ resolve_dependencies rec root (mem :: rest) log
     = resolve_dependencies rec root rest log.
Proof.
  intros Hf Ht Hl.
  assert (Hin : In (map_ctypes key) (DEFINED_IDENTIFIERS log)).
  { unfold map_ctypes. rewrite Hl. apply lookup_In in Hl.
    unfold DEFINED_IDENTIFIERS. apply in_or_app. left.
    cbn [TYPES_MAP map snd] in Hl.
    repeat (destruct Hl as [<- | Hl]; [cbn; tauto |]). contradiction. }
  split; auto.
  apply (resolve_dependencies_defined _ _ _ _ (map_ctypes key)).
  - unfold member_type. rewrite Hf. cbn [some_or bindE]. now rewrite Ht.
  - now apply In__spec.
Qed.

Lemma members_of_C_types_need_no_resolution_witness :
  In (map_ctypes "uint32_t") (DEFINED_IDENTIFIERS [])
  /\ resolve_dependencies (parse_struct_or_enum 0 doc_missing) doc_missing
       [member_decl "uint32_t" "width"] []
     = resolve_dependencies (parse_struct_or_enum 0 doc_missing) doc_missing [] [].
Proof.
  apply (members_of_C_types_need_no_resolution _ doc_missing
           (member_decl "uint32_t" "width") (leaf "type" "uint32_t") []
           "uint32_t"%string "c_uint"%string []); reflexivity.
Defined.

(** ** A run that completes, function by function *)

Lemma bind_Ok_inv {A B} (m : M A) (k : A -> M B) log b log' :
  bind m k log = (Ok b, log') ->
  exists a log1, m log = (Ok a, log1) /\ k a log1 = (Ok b, log').
Proof.
  intros H. apply bind_cases in H as [H | [(e & _ & H) | (_ & H)]];
    [exact H | discriminate | discriminate].
Qed.

Lemma export_Ok root log :
  export root = (Ok tt, log) ->
  exists l1 l2 l3 l4 l5 l6 l7 l8,
    parse_basetypes root
      [Write (Text IMPORTS_TEMPLATE);
       Write (Text (Py.nl ++ Py.nl ++ INITIALIZATION_TEMPLATE ++ Py.nl))] = (Ok tt, l1)
    /\ parse_handles root l1 = (Ok tt, l2)
    /\ parse_flags root l2 = (Ok tt, l3)
    /\ parse_enums root l3 = (Ok tt, l4)
    /\ parse_funcpointers root l4 = (Ok tt, l5)
    /\ parse_structures_and_unions root l5 = (Ok tt, l6)
    /\ parse_commands root l6 = (Ok tt, l7)
    /\ parse_extensions root l7 = (Ok tt, l8)
    /\ log = l8 ++ [Write (Text (Py.nl ++ Py.nl ++ POST_INITIALIZATION_TEMPLATE ++ Py.nl))].
Proof.
  intros E.
  unfold export, export_with, export_in, add_imports, add_initialization,
    add_post_initialization in E.
  rewrite !bind_write in E.
  apply bind_Ok_inv in E as ([] & l1 & H1 & E).
  apply bind_Ok_inv in E as ([] & l2 & H2 & E).
  apply bind_Ok_inv in E as ([] & l3 & H3 & E).
  apply bind_Ok_inv in E as ([] & l4 & H4 & E).
  apply bind_Ok_inv in E as ([] & l5 & H5 & E).
  apply bind_Ok_inv in E as ([] & l6 & H6 & E).
  apply bind_Ok_inv in E as ([] & l7 & H7 & E).
  apply bind_Ok_inv in E as ([] & l8 & H8 & E).
  unfold write, effect in E. apply (f_equal snd) in E. cbn [snd] in E.
  exists l1, l2, l3, l4, l5, l6, l7, l8. repeat (split; [eassumption |]). now symmetry.
Qed.

(** ** Handle names and declared identifiers are registered *)

Section Appends.

Variable P : Log -> Prop.
Hypothesis P_nil : P [].
Hypothesis P_app : forall a b, P a -> P b -> P (a ++ b).

Lemma appends_ret {A} (a : A) : appends P (ret a).
Proof. intros log. exists []. simpl. now rewrite app_nil_r. Qed.

Lemma appends_lift {A} (x : Outcome A) : appends P (lift x).
Proof. intros log. exists []. simpl. now rewrite app_nil_r. Qed.

Lemma appends_state : appends P state.
Proof. intros log. exists []. simpl. now rewrite app_nil_r. Qed.

Lemma appends_effects (ext : Log) {A} (m : M A) :
  (forall log, snd (m log) = log ++ ext) -> P ext -> appends P m.
Proof. intros E H log. now exists ext. Qed.

Lemma appends_bind {A B} (m : M A) (k : A -> M B) :
  appends P m -> (forall a, appends P (k a)) -> appends P (bind m k).
Proof.
  intros Hm Hk log. destruct (Hm log) as (ext & E & F). unfold bind.
  destruct (m log) as [[a | e | ] log1]; simpl in E; subst log1.
  - destruct (Hk a (log ++ ext)) as (ext' & E' & F'). exists (ext ++ ext').
    rewrite E', app_assoc. split; auto.
  - now exists ext.
  - now exists ext.
Qed.

Lemma appends_for_each {A} (xs : list A) (body : A -> M unit) :
  (forall x, appends P (body x)) -> appends P (for_each xs body).
Proof.
  intros H. induction xs as [| x r IH]; simpl.
  - apply appends_ret.
  - apply appends_bind; auto.
Qed.

Lemma appends_if {A} (b : bool) (m1 m2 : M A) :
  appends P m1 -> appends P m2 -> appends P (if b then m1 else m2).
Proof. now destruct b. Qed.

Lemma emits_appends (G : Effect -> Prop) {A} (m : M A) :
  (forall ext, Forall G ext -> P ext) -> emits G m -> appends P m.
Proof.
  intros H Hm log. destruct (Hm log) as (ext & E & F). exists ext. auto.
Qed.

End Appends.

Lemma names_registered_nil : names_registered [].
Proof. split; intros n []. Qed.

Lemma names_registered_app (a b : Log) :
  names_registered a -> names_registered b -> names_registered (a ++ b).
Proof.
  intros [Ha1 Ha2] [Hb1 Hb2]. split; intros n.
  - rewrite HANDLE_NAMES_app, defined_in_app, !in_app_iff. intros [H | H]; auto.
  - rewrite chunk_names_app, defined_in_app, !in_app_iff. intros [H | H]; auto.
Qed.

Lemma names_registered_title (s : string) : names_registered [Write (Text s)].
Proof. split; intros n []. Qed.

(** What the resolution appends: every declaration written follows the
    registration of its name. *)
Lemma names_registered_resolution (base ext : Log) :
  Forall resolver_effect ext -> trace_ok base [] ext -> names_registered ext.
Proof.
  intros F T. split; intros n Hn.
  - exfalso. unfold HANDLE_NAMES in Hn. apply in_flat_map in Hn as (e & He & Hn).
    rewrite Forall_forall in F. specialize (F e He).
    destruct e; simpl in *; auto.
  - unfold chunk_names, written in Hn.
    apply in_flat_map in Hn as (c & Hc & Hn).
    apply in_flat_map in Hc as (e & He & Hc).
    rewrite Forall_forall in F. specialize (F e He).
    destruct e as [c' | | |]; simpl in Hc; try contradiction.
    destruct Hc as [-> | []].
    destruct c; simpl in F, Hn; try contradiction.
    destruct Hn as [-> | []].
    apply in_split in He as (pre & post & E).
    pose proof (trace_ok_at base ext [] T pre _ post E) as S.
    cbn [app step_ok] in S. destruct S as ((p1 & p2 & -> & _ & _) & _).
    apply In_defined_in. rewrite E. apply in_or_app. left.
    apply in_or_app. right. now left.
Qed.

Lemma appends_parse_struct_or_enum fuel root struct is_struct :
  appends names_registered (parse_struct_or_enum fuel root struct is_struct).
Proof.
  intros log.
  destruct (parse_struct_or_enum_resolves root fuel struct is_struct log)
    as (ext & E & T & _).
  destruct (emits_parse_struct_or_enum resolver_effect fuel root
              (fun _ => I) (fun _ => I) (fun _ _ _ _ => I) struct is_struct log)
    as (ext' & E' & F).
  assert (ext' = ext) by (apply (app_inv_head log); congruence). subst ext'.
  exists ext. split; auto. now apply (names_registered_resolution log).
Qed.

Lemma appends_declaration (c : Chunk) (n : string) :
  chunk_names [Write c] = [n] ->
  appends names_registered (write c ;; effect (Defined n)).
Proof.
  intros H. apply (appends_effects _ [Write c; Defined n]).
  - intros log. unfold bind, write, effect. simpl. now rewrite <- app_assoc.
  - split; intros x.
    + destruct c; simpl; tauto.
    + change [Write c; Defined n] with ([Write c] ++ [Defined n]).
      rewrite chunk_names_app, H. simpl. tauto.
Qed.

Lemma appends_handle (n t : string) :
  appends names_registered
    (write (HandleDecl n t) ;; effect (HandleName n) ;; effect (Defined n)).
Proof.
  apply (appends_effects _ [Write (HandleDecl n t); HandleName n; Defined n]).
  - intros log. unfold bind, write, effect. simpl. now rewrite <- !app_assoc.
  - split; intros x; simpl; tauto.
Qed.

Lemma appends_write (c : Chunk) :
  chunk_names [Write c] = [] -> appends names_registered (write c).
Proof.
  intros H. apply (appends_effects _ [Write c]).
  - reflexivity.
  - split; intros x.
    + intros [].
    + rewrite H. intros [].
Qed.

Ltac appends_step :=
  lazymatch goal with
  | |- appends _ (bind (write (HandleDecl _ _)) _) => apply appends_handle
  | |- appends _ (bind (write _) (fun _ => effect (Defined _))) =>
      apply appends_declaration; reflexivity
  | |- appends _ (bind _ _) =>
      apply (appends_bind _ names_registered_app); [| intro]
  | |- appends _ (for_each _ _) =>
      apply (appends_for_each _ names_registered_nil names_registered_app); intro
  | |- appends _ (ret _) => apply (appends_ret _ names_registered_nil)
  | |- appends _ (lift _) => apply (appends_lift _ names_registered_nil)
  | |- appends _ state => apply (appends_state _ names_registered_nil)
  | |- appends _ (write _) => apply appends_write; reflexivity
  | |- appends _ (parse_struct_or_enum _ _ _ _) => apply appends_parse_struct_or_enum
  | |- appends _ (if _ then _ else _) => apply appends_if
  | |- appends _ (match ?x with _ => _ end) => destruct x
  end.

Lemma appends_export items root : appends names_registered (export_with items root).
Proof.
  unfold export_with, export_in, add_imports, add_initialization, add_post_initialization,
    parse_basetypes, parse_handles, parse_flags, parse_enums_with, parse_funcpointers,
    parse_structures_and_unions, parse_commands_with, parse_extensions.
  repeat appends_step.
Qed.

(** X7.  Whatever the outcome of a run, every name of [HANDLE_NAMES] is in
    [DEFINED_IDENTIFIERS]: no exception can come between the two appends of
    [parse_handles], and no other function appends to [HANDLE_NAMES]. *)
Theorem handle_names_are_registered (root : Element) (n : string) :
  In n (HANDLE_NAMES (snd (export root))) ->
  In n (DEFINED_IDENTIFIERS (snd (export root))).
Proof.
  destruct (appends_export TYPES_SUFFIX root []) as (ext & E & H1 & _).
  unfold export. rewrite E. cbn [app]. intros H.
  unfold DEFINED_IDENTIFIERS. apply in_or_app. right. auto.
Qed.

Lemma handle_names_are_registered_witness :
  In "Semaphore"%string (DEFINED_IDENTIFIERS (snd (export doc_sample))).
Proof.
  apply (handle_names_are_registered doc_sample "Semaphore"%string).
  vm_compute. tauto.
Defined.

Lemma defined_in_kept {A} (m : M A) (log : Log) :
  emits not_a_registration m -> defined_in (snd (m log)) = defined_in log.
Proof.
  intros H. destruct (H log) as (ext & -> & F).
  rewrite defined_in_app.
  assert (E : defined_in ext = []).
  { induction F as [| e r He _ IH]; auto.
    destruct e; simpl in *; auto; contradiction. }
  rewrite E. apply app_nil_r.
Qed.

(** X8.  The registry and the declarations of types agree.  Whatever the
    outcome of a run, the name of every handle, basetype, bitmask,
    enumeration, function-pointer type, structure and union whose
    declaration was written has been registered: an exception never leaves
    such a declaration in the output without its name in
    [DEFINED_IDENTIFIERS].  When the run completes, the names registered
    are exactly the names of these declarations.  The other names that
    the output assigns are not registered for being written: the members
    of an enumeration are not part of [entity_names], and [parse_commands]
    and [parse_extensions] register nothing. *)
Theorem declarations_of_types_are_registered (root : Element) (n : string) :
  (In n (entity_names (snd (export root))) -> In n (defined_in (snd (export root))))
  /\ (fst (export root) = Ok tt ->
      (In n (defined_in (snd (export root))) <-> In n (entity_names (snd (export root)))))
  /\ (forall log,
        defined_in (snd (parse_commands root log)) = defined_in log
        /\ defined_in (snd (parse_extensions root log)) = defined_in log).
Proof.
  assert (EN : forall log, entity_names log = chunk_names log) by reflexivity.
  rewrite !EN. clear EN.
  destruct (appends_export TYPES_SUFFIX root []) as (ext & E & _ & H2).
  assert (Hd : In n (chunk_names (snd (export root))) ->
               In n (defined_in (snd (export root)))).
  { unfold export. rewrite E. cbn [app]. apply H2. }
  split; [exact Hd |]. split.
  - intros Hok. split; [| exact Hd].
    intros Hin. destruct (export root) as [out log] eqn:Ex. cbn [fst snd] in *. subst out.
    destruct (export_trace root (Ok tt) log Ex) as [_ C]. specialize (C eq_refl).
    apply In_defined_in, in_split in Hin as (pre & post & ->).
    destruct (completed_from_at _ [] C pre n post eq_refl) as [J | Hp].
    + rewrite chunk_names_app. apply in_or_app. left.
      now apply just_declared_chunk_names.
    + rewrite chunk_names_app. apply in_or_app. right.
      change (chunk_names (Defined n :: post)) with (chunk_names post).
      now apply declared_names_chunk_names.
  - intros log. split; apply defined_in_kept.
    + unfold parse_commands, parse_commands_with. repeat emits_step.
    + unfold parse_extensions. repeat emits_step.
Qed.

Lemma declarations_of_types_are_registered_witness :
  In "A"%string (defined_in (snd (export doc_sample)))
  /\ (In "A"%string (defined_in (snd (export doc_sample)))
      <-> In "A"%string (entity_names (snd (export doc_sample))))
  /\ ~ In "MAX_NAME"%string (defined_in (snd (export doc_sample))).
Proof.
  split; [| split].
  - apply (proj1 (declarations_of_types_are_registered doc_sample "A"%string)).
    vm_compute. tauto.
  - apply (proj1 (proj2 (declarations_of_types_are_registered doc_sample "A"%string))).
    vm_compute. reflexivity.
  - intros H.
    apply (proj1 (proj2 (declarations_of_types_are_registered doc_sample "MAX_NAME"%string))
             eq_refl) in H.
    apply In__spec in H. vm_compute in H. discriminate H.
Defined.

(** ** The names of the handles *)

Lemma HANDLE_NAMES_kept {A} (m : M A) (log : Log) :
  emits not_a_handle_name m -> HANDLE_NAMES (snd (m log)) = HANDLE_NAMES log.
Proof.
  intros H. destruct (H log) as (ext & -> & F).
  rewrite HANDLE_NAMES_app.
  assert (E : HANDLE_NAMES ext = []).
  { induction F as [| e r He _ IH]; auto.
    destruct e; simpl in *; auto; contradiction. }
  rewrite E. apply app_nil_r.
Qed.

Lemma parse_handles_loop (handles : list Element) :
  forall log log',
    for_each handles (fun handle =>
      type_node <- lift (some_or AttributeError (find handle "type")) ;;
      let handle_type :=
        if is_str (text type_node) "VK_DEFINE_HANDLE"
        then TYPES_MAP_at "size_t" else TYPES_MAP_at "uint64_t" in
      handle_name <- lift (name_of handle) ;;
      write (HandleDecl handle_name handle_type) ;;
      effect (HandleName handle_name) ;;
      effect (Defined handle_name)) log = (Ok tt, log') ->
    exists names,
      mapE name_of handles = Ok names
      /\ HANDLE_NAMES log' = HANDLE_NAMES log ++ names.
Proof.
  induction handles as [| h r IH]; intros log log' H.
  - inversion H; subst. exists []. split; auto. now rewrite app_nil_r.
  - cbn [for_each] in H. apply bind_Ok_inv in H as ([] & log1 & H1 & H2).
    apply bind_Ok_inv in H1 as (ty & l1 & Hty & H1).
    apply bind_Ok_inv in H1 as (n & l2 & Hn & H1).
    unfold lift in Hty, Hn. inversion Hty; subst l1. inversion Hn; subst l2.
    unfold bind, write, effect in H1. inversion H1; subst log1.
    destruct (IH _ _ H2) as (names & Hm & Hh).
    exists (n :: names). cbn [mapE]. rewrite H3, Hm. split; auto.
    rewrite Hh, !HANDLE_NAMES_app. cbn. rewrite !app_nil_r, <- app_assoc. reflexivity.
Qed.

Lemma parse_handles_Ok root log log' :
  parse_handles root log = (Ok tt, log') ->
  exists handles names,
    filter_types root "handle" = Ok handles
    /\ mapE name_of handles = Ok names
    /\ HANDLE_NAMES log' = HANDLE_NAMES log ++ names.
Proof.
  unfold parse_handles. rewrite bind_write. intros H.
  apply bind_Ok_inv in H as (handles & l1 & Hf & H).
  unfold lift in Hf. inversion Hf; subst l1.
  apply bind_Ok_inv in H as ([] & l2 & Hloop & H).
  unfold write, effect in H. inversion H; subst log'.
  destruct (parse_handles_loop _ _ _ Hloop) as (names & Hm & Hh).
  exists handles, names. split; auto. split; auto.
  rewrite HANDLE_NAMES_app, Hh, HANDLE_NAMES_app. cbn. now rewrite !app_nil_r.
Qed.

Lemma kept_by_parse_basetypes root : emits not_a_handle_name (parse_basetypes root).
Proof. unfold parse_basetypes. repeat emits_step. Qed.

Lemma kept_by_parse_flags root : emits not_a_handle_name (parse_flags root).
Proof. unfold parse_flags. repeat emits_step. Qed.

Lemma kept_by_parse_enums items root : emits not_a_handle_name (parse_enums_with items root).
Proof. unfold parse_enums_with. repeat emits_step. Qed.

Lemma kept_by_parse_funcpointers root : emits not_a_handle_name (parse_funcpointers root).
Proof. unfold parse_funcpointers. repeat emits_step. Qed.

Lemma kept_by_parse_structures_and_unions root :
  emits not_a_handle_name (parse_structures_and_unions root).
Proof. unfold parse_structures_and_unions. repeat emits_step. Qed.

Lemma kept_by_parse_commands root : emits not_a_handle_name (parse_commands root).
Proof. unfold parse_commands, parse_commands_with. repeat emits_step. Qed.

Lemma kept_by_parse_extensions root : emits not_a_handle_name (parse_extensions root).
Proof. unfold parse_extensions. repeat emits_step. Qed.

(** X9.  Only [parse_handles] appends to [HANDLE_NAMES], one name per handle of
    the document in document order; the other parsing functions leave the
    list as it is.  So [parse_commands] tests the first parameter of the
    commands against the names of all the handles of the document, and
    these are the names the list holds when the run completes. *)
Theorem handle_names_of_the_document (root : Element) :
  (forall log,
      HANDLE_NAMES (snd (parse_basetypes root log)) = HANDLE_NAMES log
      /\ HANDLE_NAMES (snd (parse_flags root log)) = HANDLE_NAMES log
      /\ HANDLE_NAMES (snd (parse_enums root log)) = HANDLE_NAMES log
      /\ HANDLE_NAMES (snd (parse_funcpointers root log)) = HANDLE_NAMES log
      /\ HANDLE_NAMES (snd (parse_structures_and_unions root log)) = HANDLE_NAMES log
      /\ HANDLE_NAMES (snd (parse_commands root log)) = HANDLE_NAMES log
      /\ HANDLE_NAMES (snd (parse_extensions root log)) = HANDLE_NAMES log)
  /\ (fst (export root) = Ok tt ->
      exists handles,
        filter_types root "handle" = Ok handles
        /\ mapE name_of handles = Ok (HANDLE_NAMES (snd (export root)))).
Proof.
  split.
  - intros log. repeat split; apply HANDLE_NAMES_kept.
    + apply kept_by_parse_basetypes.
    + apply kept_by_parse_flags.
    + apply kept_by_parse_enums.
    + apply kept_by_parse_funcpointers.
    + apply kept_by_parse_structures_and_unions.
    + apply kept_by_parse_commands.
    + apply kept_by_parse_extensions.
  - intros Hok. destruct (export root) as [out log] eqn:E.
    cbn [fst snd] in *. subst out.
    destruct (export_Ok root log E)
      as (l1 & l2 & l3 & l4 & l5 & l6 & l7 & l8
          & H1 & H2 & H3 & H4 & H5 & H6 & H7 & H8 & ->).
    destruct (parse_handles_Ok _ _ _ H2) as (handles & names & Hf & Hm & Hh).
    exists handles. split; auto. rewrite Hm. f_equal.
    rewrite HANDLE_NAMES_app. cbn [HANDLE_NAMES flat_map]. rewrite app_nil_r.
    pose proof (HANDLE_NAMES_kept _ l7 (kept_by_parse_extensions root)) as K8.
    pose proof (HANDLE_NAMES_kept _ l6 (kept_by_parse_commands root)) as K7.
    pose proof (HANDLE_NAMES_kept _ l5 (kept_by_parse_structures_and_unions root)) as K6.
    pose proof (HANDLE_NAMES_kept _ l4 (kept_by_parse_funcpointers root)) as K5.
    pose proof (HANDLE_NAMES_kept _ l3 (kept_by_parse_enums TYPES_SUFFIX root)) as K4.
    pose proof (HANDLE_NAMES_kept _ l2 (kept_by_parse_flags root)) as K3.
    pose proof (HANDLE_NAMES_kept _
                  [Write (Text IMPORTS_TEMPLATE);
                   Write (Text (Py.nl ++ Py.nl ++ INITIALIZATION_TEMPLATE ++ Py.nl))]
                  (kept_by_parse_basetypes root)) as K1.
    unfold parse_enums in H4.
    rewrite H8 in K8. rewrite H7 in K7. rewrite H6 in K6. rewrite H5 in K5.
    rewrite H4 in K4. rewrite H3 in K3. rewrite H1 in K1. cbn [snd] in *.
    rewrite K8, K7, K6, K5, K4, K3, Hh, K1. reflexivity.
Qed.

Lemma handle_names_of_the_document_witness :
  exists handles,
    filter_types doc_sample "handle" = Ok handles
    /\ mapE name_of handles = Ok (HANDLE_NAMES (snd (export doc_sample))).
Proof.
  apply (proj2 (handle_names_of_the_document doc_sample)).
  vm_compute. reflexivity.
Defined.

(** ** The structures and unions that are declared *)

Lemma emits_eq (G : Effect -> Prop) {A} (m m' : M A) :
  (forall log, m log = m' log) -> emits G m' -> emits G m.
Proof. intros E H log. rewrite E. apply H. Qed.

Lemma emits_for_each_In (G : Effect -> Prop) {A} (xs : list A) (body : A -> M unit) :
  (forall x, In x xs -> emits G (body x)) -> emits G (for_each xs body).
Proof.
  induction xs as [| x r IH]; intros H; simpl.
  - apply emits_ret.
  - apply emits_bind; [apply H; now left | intros _; apply IH].
    intros y Hy. apply H. now right.
Qed.

Lemma filter_types_declared root category xs :
  category = "struct"%string \/ category = "union"%string ->
  filter_types root category = Ok xs ->
  incl xs (structures_and_unions root).
Proof.
  intros Hc. unfold filter_types, structures_and_unions.
  destruct (find root "types") as [types |]; cbn [some_or bindE]; [| discriminate].
  intros H. inversion H; subst xs. intros e He.
  apply filter_In in He as [He Hcat]. apply filter_In. split; auto.
  destruct Hc; subst category; rewrite Hcat; auto using orb_true_r.
Qed.

Lemma structures_and_unions_cases root e :
  In e (structures_and_unions root) ->
  (exists xs, filter_types root "struct" = Ok xs /\ In e xs)
  \/ (exists xs, filter_types root "union" = Ok xs /\ In e xs).
Proof.
  unfold filter_types, structures_and_unions.
  destruct (find root "types") as [types |]; cbn [some_or bindE]; [| intros []].
  intros He. apply filter_In in He as [He Hcat].
  apply orb_true_iff in Hcat as [Hcat | Hcat]; [left | right];
    eexists; (split; [reflexivity |]); apply filter_In; auto.
Qed.

Lemma from_document_resolve_dependencies root rec e :
  In e (structures_and_unions root) ->
  (forall s b, of_document root s b -> emits (from_document root) (rec s b)) ->
  forall members,
    incl members (iter e "member") ->
    emits (from_document root) (resolve_dependencies rec root members).
Proof.
  intros He Hrec. induction members as [| mem rest IH]; intros Hin.
  - apply emits_ret.
  - assert (Hrest : emits (from_document root) (resolve_dependencies rec root rest)).
    { apply IH. intros x Hx. apply Hin. now right. }
    intros log. destruct (member_type mem) as [t | ex |] eqn:Et.
    + rewrite (resolve_dependencies_cons _ _ _ _ _ _ Et).
      apply emits_bind; [| intros _; exact Hrest].
      apply emits_if; [apply emits_ret |].
      intros log1. rewrite resolve_dependency_eq.
      destruct (declaration root "struct" t) as [s | ex |] eqn:Es;
        [| exists []; rewrite app_nil_r; now split
         | exists []; rewrite app_nil_r; now split].
      destruct (declaration root "union" t) as [u | ex |] eqn:Eu;
        [| exists []; rewrite app_nil_r; now split
         | exists []; rewrite app_nil_r; now split].
      destruct (is_None s && is_None u) eqn:En.
      * exists [not_found t]. split; auto. constructor; [| constructor].
        exists t. split; [reflexivity |]. split.
        -- exists e, mem. split; auto. split; auto. apply Hin. now left.
        -- destruct s, u; try discriminate En. now split.
      * apply Hrec. split.
        -- intros x Hx. now destruct (or__found root t s u x Es Eu Hx).
        -- intros _ x n Hx Hn.
           destruct (or__found root t s u x Es Eu Hx) as [_ Hname].
           assert (n = ("Vk" ++ t)%string) by congruence. subst n.
           rewrite remove_prefix_Vk. exists e, mem. split; auto. split; auto.
           apply Hin. now left.
    + cbn [resolve_dependencies]. rewrite Et, bind_lift_Raise.
      exists []. rewrite app_nil_r. now split.
    + now apply member_type_terminates in Et.
Qed.

Lemma from_document_parse_struct_or_enum root (fuel : nat) :
  forall struct is_struct,
    of_document root struct is_struct ->
    emits (from_document root) (parse_struct_or_enum fuel root struct is_struct).
Proof.
  induction fuel as [| fuel IH]; intros struct is_struct [Hdoc Href].
  - apply emits_lift.
  - rewrite parse_struct_or_enum_S.
    destruct struct as [e |]; cbn [some_or].
    2: { intros log. rewrite bind_lift_Raise. exists []. rewrite app_nil_r. now split. }
    eapply emits_eq; [intros log; apply bind_lift_Ok |].
    destruct (get e "name") as [n |] eqn:En; cbn [some_or].
    2: { intros log. rewrite bind_lift_Raise. exists []. rewrite app_nil_r. now split. }
    eapply emits_eq; [intros log; apply bind_lift_Ok |].
    apply emits_bind; [apply emits_state |]. intros log.
    apply emits_if; [apply emits_ret |].
    apply emits_bind; [apply emits_effect; exact I |]. intros _.
    apply emits_bind.
    { apply (from_document_resolve_dependencies root _ e); auto.
      apply incl_refl. }
    intros _. apply emits_bind; [apply emits_lift |]. intros mems.
    apply emits_write. split.
    + exists e, n. auto.
    + intros Hb. now apply (Href Hb e n).
Qed.

Lemma from_document_parse_structures_and_unions root :
  emits (from_document root) (parse_structures_and_unions root).
Proof.
  unfold parse_structures_and_unions.
  apply emits_bind; [apply emits_write; exact I |]. intros _.
  destruct (filter_types root "struct") as [structs | ex |] eqn:Es.
  2, 3: intros log; unfold bind, lift; exists []; rewrite app_nil_r; now split.
  eapply emits_eq; [intros log; apply bind_lift_Ok |].
  apply emits_bind.
  { apply emits_for_each_In. intros s Hs. apply from_document_parse_struct_or_enum.
    split; [| discriminate].
    intros e He. inversion He; subst e.
    apply (filter_types_declared root "struct"%string structs); auto. }
  intros _.
  destruct (filter_types root "union") as [unions | ex |] eqn:Eu.
  2, 3: intros log; unfold bind, lift; exists []; rewrite app_nil_r; now split.
  eapply emits_eq; [intros log; apply bind_lift_Ok |].
  apply emits_for_each_In. intros s Hs. apply from_document_parse_struct_or_enum.
  split; [| discriminate].
  intros e He. inversion He; subst e.
  apply (filter_types_declared root "union"%string unions); auto.
Qed.

(** X10.  Every declaration that [parse_structures_and_unions] writes, whether
    it returns or raises, is that of a structure or union of the document:
    its name is the name of the element without the prefix, and its
    fields are what [parse_structure_member] gives for the [member]
    elements of that element.  There are at most as many declarations as
    the document has structures and unions. *)
Theorem declarations_come_from_the_document (root : Element) (log : Log) :
  exists ext,
    snd (parse_structures_and_unions root log) = log ++ ext
    /\ (forall is_struct n ms args,
           In (Write (StructDecl is_struct n ms args)) ext ->
           exists e name,
             In e (structures_and_unions root) /\ get e "name" = Some name
             /\ n = remove_prefix name /\ ms = iter e "member"
             /\ mapE parse_structure_member (iter e "member") = Ok args)
    /\ List.length (declared_names ext) <= List.length (structures_and_unions root).
Proof.
  destruct (from_document_parse_structures_and_unions root log) as (ext & E & F).
  destruct (generates_parse_structures_and_unions root log) as (ext' & E' & T & _).
  assert (ext' = ext) by (apply (app_inv_head log); congruence). subst ext'.
  exists ext. split; auto.
  rewrite Forall_forall in F.
  split.
  - intros b n ms args Hin.
    destruct (F _ Hin) as ((e & name & He & Hn & -> & ->) & _).
    exists e, name. repeat (split; auto).
    apply in_split in Hin as (pre & post & Eq).
    pose proof (trace_ok_at log ext [] T pre _ post Eq) as S.
    cbn [app step_ok] in S. now destruct S as (_ & _ & S).
  - destruct (declared_once log ext [] T) as [ND _].
    rewrite <- (length_map (fun e => match get e "name" with
                                     | Some name => remove_prefix name
                                     | None => EmptyString
                                     end) (structures_and_unions root)).
    apply NoDup_incl_length; auto.
    intros n Hn. apply In_declared_names in Hn as (b & ms & args & Hin).
    destruct (F _ Hin) as ((e & name & He & Hname & -> & _) & _).
    apply in_map_iff. exists e. now rewrite Hname.
Qed.

Lemma resolutions_Ok root fuel (is_struct : bool) (xs : list Element) :
  forall log log',
    for_each xs (fun s => parse_struct_or_enum fuel root (Some s) is_struct) log
    = (Ok tt, log') ->
    exists ext,
      log' = log ++ ext
      /\ Forall resolver_effect ext /\ completed ext
      /\ forall e, In e xs ->
           exists n, get e "name" = Some n
                     /\ In (remove_prefix n) (DEFINED_IDENTIFIERS log').
Proof.
  induction xs as [| x r IH]; intros log log' H.
  - inversion H; subst. exists []. rewrite app_nil_r.
    split; auto. split; auto. split; [exact I |]. intros e [].
  - cbn [for_each] in H. apply bind_Ok_inv in H as ([] & log1 & H1 & H2).
    destruct (parse_struct_or_enum_Ok _ _ _ _ _ _ H1)
      as (f & e & n & ext1 & _ & He & Hn & -> & Hin & _ & C1 & F1).
    inversion He; subst e.
    destruct (IH _ _ H2) as (ext2 & -> & F2 & C2 & Hall).
    exists (ext1 ++ ext2). rewrite app_assoc. split; auto.
    split; [now apply Forall_app |]. split; [now apply completed_seq |].
    intros e [<- | Hr]; [| now apply Hall].
    exists n. split; auto. now apply DEFINED_IDENTIFIERS_incl.
Qed.

Lemma parse_structures_and_unions_Ok root log log' :
  parse_structures_and_unions root log = (Ok tt, log') ->
  exists ext,
    log' = log ++ Write structures_header :: ext
    /\ forall e, In e (structures_and_unions root) ->
         exists n, get e "name" = Some n
                   /\ (In (remove_prefix n) (DEFINED_IDENTIFIERS log)
                       \/ In (remove_prefix n) (declared_names ext)).
Proof.
  unfold parse_structures_and_unions. rewrite bind_write. intros H.
  apply bind_Ok_inv in H as (structs & l1 & Hs & H).
  unfold lift in Hs. inversion Hs as [[Hs' Hl]]. subst l1. clear Hs.
  apply bind_Ok_inv in H as ([] & l2 & H1 & H).
  apply bind_Ok_inv in H as (unions & l3 & Hu & H2).
  unfold lift in Hu. inversion Hu as [[Hu' Hl]]. subst l3. clear Hu.
  destruct (resolutions_Ok _ _ _ _ _ _ H1) as (e1 & -> & F1 & C1 & A1).
  destruct (resolutions_Ok _ _ _ _ _ _ H2) as (e2 & -> & F2 & C2 & A2).
  exists (e1 ++ e2). split; [now rewrite <- !app_assoc |].
  assert (Hreg : forall x,
             In x (DEFINED_IDENTIFIERS (((log ++ [Write structures_header]) ++ e1) ++ e2)) ->
             In x (DEFINED_IDENTIFIERS log) \/ In x (declared_names (e1 ++ e2))).
  { intros x Hx. rewrite <- !app_assoc in Hx.
    rewrite DEFINED_IDENTIFIERS_app in Hx. apply in_app_or in Hx as [Hx | Hx]; auto.
    right. change (defined_in ([Write structures_header] ++ e1 ++ e2))
             with (defined_in (e1 ++ e2)) in Hx.
    apply registered_names_are_declared; auto.
    - now apply Forall_app.
    - now apply completed_seq. }
  intros e He. apply structures_and_unions_cases in He as [(xs & Ex & Hx) | (xs & Ex & Hx)].
  - assert (xs = structs) by congruence. subst xs.
    destruct (A1 e Hx) as (n & Hn & Hin). exists n. split; auto.
    apply Hreg. now apply DEFINED_IDENTIFIERS_incl.
  - assert (xs = unions) by congruence. subst xs.
    destruct (A2 e Hx) as (n & Hn & Hin). exists n. split; auto.
Qed.

Lemma every_structure_is_declared_names root log log' :
  parse_structures_and_unions root log = (Ok tt, log') ->
  forall e, In e (structures_and_unions root) -> exists n, get e "name" = Some n.
Proof.
  intros H e He.
  destruct (parse_structures_and_unions_Ok root log log' H) as (ext & _ & A).
  destruct (A e He) as (n & Hn & _). eauto.
Qed.

(** X11.  When [parse_structures_and_unions] returns, every structure and every
    union of the document has a name, and that name, without its prefix,
    was in the registry before or has its declaration in what was
    written, whether it was reached from the two loops or as the type of
    a member. *)
Theorem every_structure_is_declared (root : Element) (log log' : Log) (e : Element) :
  parse_structures_and_unions root log = (Ok tt, log') ->
  In e (structures_and_unions root) ->
  exists n,
    get e "name" = Some n
    /\ (In (remove_prefix n) (DEFINED_IDENTIFIERS log)
        \/ exists pre is_struct ms args post,
             log' = log ++ pre ++ Write (StructDecl is_struct (remove_prefix n) ms args) :: post).
Proof.
  intros H He. destruct (parse_structures_and_unions_Ok root log log' H) as (ext & -> & A).
  destruct (A e He) as (n & Hn & [Hd | Hd]); exists n; split; auto.
  right. apply In_declared_names in Hd as (b & ms & args & Hin).
  apply in_split in Hin as (pre & post & ->).
  exists (Write structures_header :: pre), b, ms, args, post. reflexivity.
Qed.

Lemma every_structure_is_declared_witness :
  exists n,
    get VkFirst "name" = Some n
    /\ (In (remove_prefix n) (DEFINED_IDENTIFIERS [])
        \/ exists pre is_struct ms args post,
             snd (parse_structures_and_unions doc_cycle [])
             = [] ++ pre ++ Write (StructDecl is_struct (remove_prefix n) ms args) :: post).
Proof.
  apply (every_structure_is_declared doc_cycle [] _ VkFirst).
  - vm_compute. reflexivity.
  - vm_compute. tauto.
Defined.

(** X12.  A union that is the type of no member is written with the templates
    of the structures: the loop over the unions calls
    [parse_struct_or_enum] without its third argument, whose default is
    [True], so the declaration reads [define_structure]. *)
Theorem unreferenced_union_is_written_as_a_structure
        (root : Element) (log log' : Log) (unions : list Element) (u : Element) (n : string) :
  parse_structures_and_unions root log = (Ok tt, log') ->
  filter_types root "union" = Ok unions -> In u unions ->
  get u "name" = Some n ->
  ~ In (remove_prefix n) (DEFINED_IDENTIFIERS log) ->
  ~ referenced root (remove_prefix n) ->
  exists pre ms args post,
    log' = log ++ pre ++ Write (StructDecl true (remove_prefix n) ms args) :: post
    /\ render (StructDecl true (remove_prefix n) ms args)
       = (remove_prefix n ++ " = define_structure('" ++ remove_prefix n ++ "'," ++ Py.nl
          ++ Py.join (map (fun nt => "    ('" ++ fst nt ++ "', " ++ snd nt ++ ")," ++ Py.nl)
                          args)
          ++ ")" ++ Py.nl ++ Py.nl)%string.
Proof.
  intros H Hu Hin Hn Hd Hr.
  assert (He : In u (structures_and_unions root)).
  { apply (filter_types_declared root "union"%string unions); auto. }
  destruct (every_structure_is_declared root log log' u H He) as (n' & Hn' & [Hd' | Hw]).
  { assert (n' = n) by congruence. subst n'. contradiction. }
  assert (n' = n) by congruence. subst n'.
  destruct Hw as (pre & b & ms & args & post & E).
  exists pre, ms, args, post.
  destruct (from_document_parse_structures_and_unions root log) as (ext & E' & F).
  rewrite H in E'. cbn [snd] in E'. rewrite E in E'. apply app_inv_head in E'.
  rewrite Forall_forall in F.
  assert (Hb : b = true).
  { destruct b; auto. exfalso. apply Hr.
    refine (proj2 (F (Write (StructDecl false (remove_prefix n) ms args)) _) eq_refl).
    rewrite <- E'. apply in_or_app. right. now left. }
  subst b. split; auto.
Qed.

Lemma unreferenced_union_is_written_as_a_structure_witness :
  exists pre ms args post,
    snd (parse_structures_and_unions doc_union [])
    = [] ++ pre ++ Write (StructDecl true (remove_prefix "VkClearColor") ms args) :: post
    /\ render (StructDecl true (remove_prefix "VkClearColor") ms args)
       = (remove_prefix "VkClearColor" ++ " = define_structure('"
          ++ remove_prefix "VkClearColor" ++ "'," ++ Py.nl
          ++ Py.join (map (fun nt => "    ('" ++ fst nt ++ "', " ++ snd nt ++ ")," ++ Py.nl)
                          args)
          ++ ")" ++ Py.nl ++ Py.nl)%string.
Proof.
  apply (unreferenced_union_is_written_as_a_structure
           doc_union [] _ [VkClearColor] VkClearColor "VkClearColor"%string).
  - vm_compute. reflexivity.
  - reflexivity.
  - now left.
  - reflexivity.
  - intros H. apply In__spec in H. vm_compute in H. discriminate.
  - intros (e & m & He & Hm & Ht). vm_compute in He.
    destruct He as [<- | [<- | []]]; vm_compute in Hm;
      repeat (destruct Hm as [<- | Hm]; [vm_compute in Ht; discriminate |]);
      contradiction.
Defined.

(** ** A structure without children *)

Lemma resolve_dependencies_skip rec root (pre : list Element) :
  forall rest log,
    Forall (fun m => exists t, member_type m = Ok t
                               /\ In_ t (DEFINED_IDENTIFIERS log) = true) pre ->
    resolve_dependencies rec root (pre ++ rest) log
    = resolve_dependencies rec root rest log.
Proof.
  induction pre as [| m r IH]; intros rest log F; auto.
  inversion F as [| ? ? (t & Ht & Hd) F']; subst.
  cbn [app]. rewrite (resolve_dependencies_defined _ _ _ _ _ _ Ht Hd). now apply IH.
Qed.

(** X13.  A member whose type is declared as a structure without children, and
    not as a union, stops the run: [struct or union] is then [None], the
    truth value of an element being that it has children, and the call
    on [None] raises AttributeError.  The name of the structure that has
    the member is in the registry by then, and its declaration is not
    written. *)
Theorem childless_structure_raises
        (fuel : nat) (root e : Element) (is_struct : bool) (name : string)
        (pre : list Element) (mem : Element) (rest : list Element)
        (t : string) (s : Element) (log : Log) :
  get e "name" = Some name ->
  In_ (remove_prefix name) (DEFINED_IDENTIFIERS log) = false ->
  iter e "member" = pre ++ mem :: rest ->
  Forall (fun m => exists t', member_type m = Ok t'
                     /\ In_ t' (DEFINED_IDENTIFIERS (log ++ [Defined (remove_prefix name)]))
                        = true) pre ->
  member_type mem = Ok t ->
  In_ t (DEFINED_IDENTIFIERS (log ++ [Defined (remove_prefix name)])) = false ->
  declaration root "struct" t = Ok (Some s) -> truth s = false ->
  declaration root "union" t = Ok None ->
  parse_struct_or_enum (S (S fuel)) root (Some e) is_struct log
  = (Raise AttributeError, log ++ [Defined (remove_prefix name)]).
Proof.
  intros Hn Hd Hm Hpre Ht Hdt Hs Htr Hu.
  rewrite parse_struct_or_enum_S. cbn [some_or].
  rewrite bind_lift_Ok, Hn. cbn [some_or]. rewrite bind_lift_Ok, bind_state, Hd, bind_effect.
  unfold bind at 1. rewrite Hm, (resolve_dependencies_skip _ _ _ _ _ Hpre).
  rewrite (resolve_dependencies_cons _ _ _ _ _ _ Ht), Hdt.
  unfold bind at 1. rewrite resolve_dependency_eq, Hs, Hu.
  cbn [is_None andb or_]. rewrite Htr.
  rewrite parse_struct_or_enum_S. cbn [some_or]. now rewrite bind_lift_Raise.
Qed.

Lemma childless_structure_raises_witness :
  parse_struct_or_enum 2 doc_childless (Some VkHolder) true []
  = (Raise AttributeError, [] ++ [Defined (remove_prefix "VkHolder")]).
Proof.
  apply (childless_structure_raises 0 doc_childless VkHolder true "VkHolder"%string
           [member_decl "float" "x"] (member_decl "VkEmpty" "empty") []
           "Empty"%string VkEmpty []).
  - reflexivity.
  - reflexivity.
  - reflexivity.
  - constructor; [| constructor]. exists "c_float"%string. split; reflexivity.
  - reflexivity.
  - reflexivity.
  - reflexivity.
  - reflexivity.
  - reflexivity.
Defined.

(** ** The warnings *)

Lemma from_document_parse_basetypes root : emits (from_document root) (parse_basetypes root).
Proof. unfold parse_basetypes. repeat emits_step. Qed.

Lemma from_document_parse_handles root : emits (from_document root) (parse_handles root).
Proof. unfold parse_handles. repeat emits_step. Qed.

Lemma from_document_parse_flags root : emits (from_document root) (parse_flags root).
Proof. unfold parse_flags. repeat emits_step. Qed.

Lemma from_document_parse_enums items root :
  emits (from_document root) (parse_enums_with items root).
Proof. unfold parse_enums_with. repeat emits_step. Qed.

Lemma from_document_parse_funcpointers root :
  emits (from_document root) (parse_funcpointers root).
Proof. unfold parse_funcpointers. repeat emits_step. Qed.

Lemma from_document_parse_commands root : emits (from_document root) (parse_commands root).
Proof. unfold parse_commands, parse_commands_with. repeat emits_step. Qed.

Lemma from_document_parse_extensions root :
  emits (from_document root) (parse_extensions root).
Proof. unfold parse_extensions. repeat emits_step. Qed.

Lemma from_document_export items root : emits (from_document root) (export_with items root).
Proof.
  unfold export_with, export_in, add_imports, add_initialization, add_post_initialization.
  apply emits_bind; [apply emits_write; exact I | intros _].
  apply emits_bind; [apply emits_write; exact I | intros _].
  apply emits_bind; [apply from_document_parse_basetypes | intros _].
  apply emits_bind; [apply from_document_parse_handles | intros _].
  apply emits_bind; [apply from_document_parse_flags | intros _].
  apply emits_bind; [apply from_document_parse_enums | intros _].
  apply emits_bind; [apply from_document_parse_funcpointers | intros _].
  apply emits_bind; [apply from_document_parse_structures_and_unions | intros _].
  apply emits_bind; [apply from_document_parse_commands | intros _].
  apply emits_bind; [apply from_document_parse_extensions | intros _].
  apply emits_write. exact I.
Qed.

(** X14.  A run prints nothing but the warnings of the resolution, and each of
    them is for the type of a member of a structure or union of the
    document that names no declared structure and no declared union. *)
Theorem warnings_are_for_undeclared_member_types (root : Element) (s : string) :
  In s (printed (snd (export root))) ->
  exists t,
    s = (t ++ " was not found")%string /\ referenced root t /\ undeclared root t.
Proof.
  destruct (from_document_export TYPES_SUFFIX root []) as (ext & E & F).
  unfold export. rewrite E. cbn [app]. intros H.
  unfold printed in H. apply in_flat_map in H as (e & He & Hs).
  rewrite Forall_forall in F. specialize (F e He).
  destruct e; simpl in Hs; try contradiction.
  destruct Hs as [-> | []]. exact F.
Qed.

Lemma warnings_are_for_undeclared_member_types_witness :
  exists t,
    "int was not found"%string = (t ++ " was not found")%string
    /\ referenced doc_sample t /\ undeclared doc_sample t.
Proof.
  apply (warnings_are_for_undeclared_member_types doc_sample "int was not found"%string).
  vm_compute. tauto.
Defined.

(** ** What [parse_commands] writes *)

Lemma last_default {A} (l : list A) (a d : A) : last (a :: l) d = last l a.
Proof.
  revert a d. induction l as [| b r IH]; intros a d; auto.
  change (last (a :: b :: r) d) with (last (b :: r) d). now rewrite !IH.
Qed.

Lemma group_commands_last_bootstrap hn cmds :
  forall info g info' g',
    group_commands hn cmds info g = Ok (info', g') ->
    info' = last (map Some (bootstraps hn cmds)) info.
Proof.
  induction cmds as [| c r IH]; intros info g info' g'; cbn [group_commands].
  - intros H. now inversion H.
  - unfold bootstraps. cbn [flat_map]. fold (bootstraps hn r).
    destruct (group_command hn c) as [[i | k cmd] | e | ] eqn:E; cbn [bindE];
      try discriminate; intros H.
    + apply IH in H. cbn [app map]. now rewrite last_default.
    + now apply IH in H.
Qed.

Lemma group_commands_raises hn (pre : list Element) :
  forall c post e info g,
    Forall (fun c' => exists r, group_command hn c' = Ok r) pre ->
    group_command hn c = Raise e ->
    group_commands hn (pre ++ c :: post) info g = Raise e.
Proof.
  induction pre as [| x r IH]; intros c post e info g F Hc.
  - cbn [app group_commands]. now rewrite Hc.
  - inversion F as [| ? ? (res & Hx) F']; subst.
    cbn [app group_commands]. rewrite Hx. cbn [bindE].
    destruct res; now apply IH.
Qed.

(** X15.  When [parse_commands] returns, it has written, after the title, one
    block per family in the order in which the document first meets the
    families, then the block of vkGetInstanceProcAddr; if several commands
    have that name, the block is that of the last one. *)
Theorem parse_commands_output (root : Element) (log log' : Log) :
  parse_commands root log = (Ok tt, log') ->
  exists commands groups name _type params,
    find root "commands" = Some commands
    /\ log' = log ++ Write commands_header
                  :: map (fun g => Write (CommandFamily (fst g) (snd g))) groups
                  ++ [Write (GetInstanceProcAddr name _type params)]
    /\ map fst groups
       = first_seen (assigned_keys (HANDLE_NAMES log) (children commands)) []
    /\ last (map Some (bootstraps (HANDLE_NAMES log) (children commands))) None
       = Some (name, _type, params).
Proof.
  intros H.
  assert (Hh : HANDLE_NAMES (log ++ [Write commands_header]) = HANDLE_NAMES log).
  { rewrite HANDLE_NAMES_app. simpl. apply app_nil_r. }
  destruct (find root "commands") as [commands |] eqn:Hf.
  2: { unfold parse_commands, parse_commands_with in H. rewrite bind_write, Hf in H. cbn [some_or] in H.
       rewrite bind_lift_Raise in H. discriminate. }
  destruct (group_commands (HANDLE_NAMES log) (children commands) None [])
    as [[info groups] | e | ] eqn:Hg.
  - destruct info as [[[name ty] params] |].
    + rewrite (parse_commands_writes root log commands name ty params groups Hf Hg) in H.
      inversion H; subst log'. exists commands, groups, name, ty, params.
      split; auto. split; auto. split.
      * now rewrite (families_in_first_seen_order _ _ _ _ _ _ Hg).
      * symmetry. exact (group_commands_last_bootstrap _ _ _ _ _ _ Hg).
    + unfold parse_commands, parse_commands_with in H.
      rewrite bind_write, Hf in H. cbn [some_or] in H.
      rewrite bind_lift_Ok, bind_state, Hh, Hg, bind_lift_Ok in H.
      unfold bind at 1 in H. rewrite write_families in H. cbn [some_or] in H.
      rewrite bind_lift_Raise in H. discriminate.
  - unfold parse_commands, parse_commands_with in H.
    rewrite bind_write, Hf in H. cbn [some_or] in H.
    rewrite bind_lift_Ok, bind_state, Hh, Hg, bind_lift_Raise in H. discriminate.
  - now apply group_commands_terminates in Hg.
Qed.

Lemma parse_commands_output_witness :
  exists commands groups name _type params,
    find doc_commands "commands" = Some commands
    /\ snd (parse_commands doc_commands
              [HandleName "Instance"; HandleName "Device"; HandleName "Semaphore"])
       = [HandleName "Instance"; HandleName "Device"; HandleName "Semaphore"]
           ++ Write commands_header
           :: map (fun g => Write (CommandFamily (fst g) (snd g))) groups
           ++ [Write (GetInstanceProcAddr name _type params)]
    /\ map fst groups
       = first_seen
           (assigned_keys
              (HANDLE_NAMES [HandleName "Instance"; HandleName "Device";
                             HandleName "Semaphore"])
              (children commands)) []
    /\ last (map Some
               (bootstraps
                  (HANDLE_NAMES [HandleName "Instance"; HandleName "Device";
                                 HandleName "Semaphore"])
                  (children commands))) None
       = Some (name, _type, params).
Proof.
  apply (parse_commands_output doc_commands
           [HandleName "Instance"; HandleName "Device"; HandleName "Semaphore"]%string).
  vm_compute. reflexivity.
Defined.

(** X16.  The blocks of the families are written after the loop over the
    commands: when a command raises, whatever the commands before and after
    it, [parse_commands] has written its title and no block.  A command
    other than vkGetInstanceProcAddr with no parameter that has a type is
    such a command: [_command_params[0]] is an IndexError. *)
Theorem parse_commands_writes_no_block_on_error
        (root commands : Element) (log : Log)
        (pre : list Element) (c : Element) (post : list Element) (e : Exn) :
  find root "commands" = Some commands ->
  children commands = pre ++ c :: post ->
  Forall (fun c' => exists r, group_command (HANDLE_NAMES log) c' = Ok r) pre ->
  group_command (HANDLE_NAMES log) c = Raise e ->
  parse_commands root log = (Raise e, log ++ [Write commands_header]).
Proof.
  intros Hf Hc Hpre He.
  assert (Hh : HANDLE_NAMES (log ++ [Write commands_header]) = HANDLE_NAMES log).
  { rewrite HANDLE_NAMES_app. simpl. apply app_nil_r. }
  unfold parse_commands, parse_commands_with.
  rewrite bind_write, Hf. cbn [some_or]. rewrite bind_lift_Ok, bind_state, Hh, Hc.
  rewrite (group_commands_raises _ _ _ _ _ _ _ Hpre He). now rewrite bind_lift_Raise.
Qed.

Lemma parse_commands_writes_no_block_on_error_witness :
  parse_commands doc_no_parameter [HandleName "Instance"]
  = (Raise IndexError, [HandleName "Instance"] ++ [Write commands_header]).
Proof.
  apply (parse_commands_writes_no_block_on_error doc_no_parameter
           (node "commands" []
              [command_decl "VkResult" "vkCreateInstance"
                 [param_decl "VkInstanceCreateInfo" "pCreateInfo"];
               command_decl "void" "vkNothing" [];
               command_decl "PFN_vkVoidFunction" "vkGetInstanceProcAddr"
                 [param_decl "VkInstance" "instance"; param_decl "char" "pName"]])
           [HandleName "Instance"%string]
           [command_decl "VkResult" "vkCreateInstance"
              [param_decl "VkInstanceCreateInfo" "pCreateInfo"]]
           (command_decl "void" "vkNothing" [])
           [command_decl "PFN_vkVoidFunction" "vkGetInstanceProcAddr"
              [param_decl "VkInstance" "instance"; param_decl "char" "pName"]]).
  - reflexivity.
  - reflexivity.
  - constructor; [| constructor]. eexists. vm_compute. reflexivity.
  - vm_compute. reflexivity.
Defined.

(** ** What [parse_extensions] writes *)

Lemma parse_extensions_loop (extensions : list Element) :
  forall log log',
    for_each extensions (fun extension =>
      require <- lift (some_or AttributeError (find extension "require")) ;;
      enum <- lift (some_or AttributeError (find require "enum")) ;;
      if is_str (get enum "value") "0" then ret tt
      else
        let extension_name := get extension "name" in
        offset <- lift (extension_offset extension) ;;
        enum_mems <- lift (mapE (extension_member offset) (iter require "enum")) ;;
        write (ExtensionDecl (str_of extension_name) enum_mems)) log = (Ok tt, log') ->
    exists blocks,
      log' = log ++ map Write blocks
      /\ Forall2 (fun extension block =>
                    exists require offset enum_mems,
                      find extension "require" = Some require
                      /\ extension_offset extension = Ok offset
                      /\ mapE (extension_member offset) (iter require "enum") = Ok enum_mems
                      /\ block = ExtensionDecl (str_of (get extension "name")) enum_mems)
                 (filter (fun x => negb (is_placeholder x)) extensions) blocks.
Proof.
  induction extensions as [| x r IH]; intros log log' H.
  - inversion H; subst. exists []. cbn. rewrite app_nil_r. split; auto.
  - cbn [for_each] in H. apply bind_Ok_inv in H as ([] & log1 & H1 & H2).
    destruct (IH _ _ H2) as (blocks & -> & F). clear H2 IH.
    apply bind_Ok_inv in H1 as (require & l1 & Hr & H1).
    unfold lift in Hr. inversion Hr as [[Hr' Hl]]. subst l1. clear Hr.
    apply bind_Ok_inv in H1 as (enum & l1 & He & H1).
    unfold lift in He. inversion He as [[He' Hl]]. subst l1. clear He.
    destruct (find x "require") as [require' |] eqn:Efr; [| discriminate].
    cbn [some_or] in Hr'. inversion Hr'; subst require'.
    destruct (find require "enum") as [enum' |] eqn:Efe; [| discriminate].
    cbn [some_or] in He'. inversion He'; subst enum'.
    cbn [filter]. unfold is_placeholder at 1. rewrite Efr, Efe.
    destruct (is_str (get enum "value") "0").
    + inversion H1; subst log1. cbn [negb]. now exists blocks.
    + apply bind_Ok_inv in H1 as (offset & l1 & Ho & H1).
      unfold lift in Ho. inversion Ho as [[Ho' Hl]]. subst l1. clear Ho.
      apply bind_Ok_inv in H1 as (mems & l1 & Hm & H1).
      unfold lift in Hm. inversion Hm as [[Hm' Hl]]. subst l1. clear Hm.
      unfold write, effect in H1. inversion H1; subst log1.
      exists (ExtensionDecl (str_of (get x "name")) mems :: blocks).
      cbn [negb map]. rewrite <- app_assoc. split; auto.
      constructor; auto. exists require, offset, mems. auto.
Qed.

(** X17.  When [parse_extensions] returns, it has written, after the title, one
    block per extension that is not a placeholder, in document order, and
    nothing for a placeholder (an extension whose first required
    enumeration has the value 0).  The block has the [name] attribute of
    the extension, [None] when there is none, and one line per [enum] of
    the [require] element. *)
Theorem parse_extensions_output (root : Element) (log log' : Log) :
  parse_extensions root log = (Ok tt, log') ->
  exists extensions blocks,
    find root "extensions" = Some extensions
    /\ log' = log ++ Write extensions_header :: map Write blocks
    /\ Forall2 (fun extension block =>
                  exists require offset enum_mems,
                    find extension "require" = Some require
                    /\ extension_offset extension = Ok offset
                    /\ mapE (extension_member offset) (iter require "enum") = Ok enum_mems
                    /\ block = ExtensionDecl (str_of (get extension "name")) enum_mems)
               (filter (fun x => negb (is_placeholder x)) (iter extensions "extension"))
               blocks.
Proof.
  unfold parse_extensions. rewrite bind_write. intros H.
  apply bind_Ok_inv in H as (extensions & l1 & Hf & H).
  unfold lift in Hf. inversion Hf as [[Hf' Hl]]. subst l1. clear Hf.
  destruct (find root "extensions") as [extensions' |]; [| discriminate].
  cbn [some_or] in Hf'. inversion Hf'; subst extensions'.
  destruct (parse_extensions_loop _ _ _ H) as (blocks & -> & F).
  exists extensions, blocks. split; auto. split; auto. now rewrite <- app_assoc.
Qed.

Lemma parse_extensions_output_witness :
  exists extensions blocks,
    find doc_sample "extensions" = Some extensions
    /\ snd (parse_extensions doc_sample [])
       = [] ++ Write extensions_header :: map Write blocks
    /\ Forall2 (fun extension block =>
                  exists require offset enum_mems,
                    find extension "require" = Some require
                    /\ extension_offset extension = Ok offset
                    /\ mapE (extension_member offset) (iter require "enum") = Ok enum_mems
                    /\ block = ExtensionDecl (str_of (get extension "name")) enum_mems)
               (filter (fun x => negb (is_placeholder x)) (iter extensions "extension"))
               blocks.
Proof.
  apply (parse_extensions_output doc_sample []).
  vm_compute. reflexivity.
Defined.

(** ** What a run that completes tells of the document *)

Lemma last_Some {A} (l : list A) (x : A) :
  last (map Some l) None = Some x -> In x l.
Proof.
  induction l as [| a r IH]; cbn [map]; [discriminate |].
  rewrite last_default. destruct r as [| b r'].
  - cbn. intros H. inversion H. now left.
  - intros H. right. apply IH. cbn [map] in *.
    rewrite last_default in H. now rewrite last_default.
Qed.

(** X18.  A run completes only on a document that has the elements [types],
    [commands] and [extensions], a name for every handle, a [name]
    attribute on every structure and union, and a command named
    vkGetInstanceProcAddr. *)
Theorem a_completed_run_had (root : Element) :
  fst (export root) = Ok tt ->
  (exists types, find root "types" = Some types)
  /\ (exists handles names,
         filter_types root "handle" = Ok handles /\ mapE name_of handles = Ok names)
  /\ (forall e, In e (structures_and_unions root) -> exists n, get e "name" = Some n)
  /\ (exists commands c,
         find root "commands" = Some commands /\ In c (children commands)
         /\ command_name c = Some "vkGetInstanceProcAddr"%string)
  /\ (exists extensions, find root "extensions" = Some extensions).
Proof.
  intros Hok. destruct (export root) as [out log] eqn:E. cbn [fst] in Hok. subst out.
  destruct (export_Ok root log E)
    as (l1 & l2 & l3 & l4 & l5 & l6 & l7 & l8 & H1 & H2 & _ & _ & _ & H6 & H7 & H8 & _).
  destruct (parse_handles_Ok _ _ _ H2) as (handles & names & Hf & Hm & _).
  split; [| split; [| split; [| split]]].
  - unfold filter_types in Hf. destruct (find root "types") as [types |]; [eauto | discriminate].
  - eauto.
  - intros e He. destruct (every_structure_is_declared_names root l5 l6 H6 e He) as (n & Hn).
    eauto.
  - destruct (parse_commands_output root l6 l7 H7)
      as (commands & groups & name & ty & params & Hc & _ & _ & Hl).
    apply last_Some in Hl. unfold bootstraps in Hl.
    apply in_flat_map in Hl as (c & Hin & Hb).
    destruct (group_command (HANDLE_NAMES l6) c) as [[i | ? ?] | |] eqn:Eg;
      try contradiction.
    exists commands, c. split; auto. split; auto.
    now apply (group_command_Bootstrap (HANDLE_NAMES l6) c i).
  - destruct (parse_extensions_output root l7 l8 H8) as (extensions & _ & Hx & _). eauto.
Qed.

Lemma a_completed_run_had_witness :
  exists commands c,
    find doc_sample "commands" = Some commands /\ In c (children commands)
    /\ command_name c = Some "vkGetInstanceProcAddr"%string.
Proof.
  refine (proj1 (proj2 (proj2 (proj2 (a_completed_run_had doc_sample _))))).
  vm_compute. reflexivity.
Defined.

(** ** The functions that do not read the state *)

Lemma reads_no_state_ret {A} (a : A) : reads_no_state (ret a).
Proof. exists (Ok a), []. intros log. unfold ret. now rewrite app_nil_r. Qed.

Lemma reads_no_state_lift {A} (x : Outcome A) : reads_no_state (lift x).
Proof. exists x, []. intros log. unfold lift. now rewrite app_nil_r. Qed.

Lemma reads_no_state_effect (e : Effect) : reads_no_state (effect e).
Proof. now exists (Ok tt), [e]. Qed.

Lemma reads_no_state_bind {A B} (m : M A) (k : A -> M B) :
  reads_no_state m -> (forall a, reads_no_state (k a)) -> reads_no_state (bind m k).
Proof.
  intros (out & ext & Hm) Hk. destruct out as [a | e |].
  - destruct (Hk a) as (out' & ext' & Hka). exists out', (ext ++ ext').
    intros log. unfold bind. now rewrite Hm, Hka, app_assoc.
  - exists (Raise e), ext. intros log. unfold bind. now rewrite Hm.
  - exists OutOfFuel, ext. intros log. unfold bind. now rewrite Hm.
Qed.

Lemma reads_no_state_for_each {A} (xs : list A) (body : A -> M unit) :
  (forall x, reads_no_state (body x)) -> reads_no_state (for_each xs body).
Proof.
  intros H. induction xs as [| x r IH]; simpl.
  - apply reads_no_state_ret.
  - apply reads_no_state_bind; auto.
Qed.

Ltac reads_no_state_step :=
  lazymatch goal with
  | |- reads_no_state (bind _ _) => apply reads_no_state_bind; [| intro]
  | |- reads_no_state (for_each _ _) => apply reads_no_state_for_each; intro
  | |- reads_no_state (ret _) => apply reads_no_state_ret
  | |- reads_no_state (lift _) => apply reads_no_state_lift
  | |- reads_no_state (write _) => apply reads_no_state_effect
  | |- reads_no_state (effect _) => apply reads_no_state_effect
  | |- reads_no_state (if ?b then _ else _) => destruct b
  | |- reads_no_state (match ?x with _ => _ end) => destruct x
  end.

(** X19.  [parse_basetypes], [parse_handles], [parse_flags], [parse_enums],
    [parse_funcpointers] and [parse_extensions] never read
    [DEFINED_IDENTIFIERS] nor anything else of the state: what each of them
    writes and registers, and how it ends, depends on the document only.
    So, unlike a structure or a union, an identifier that is already in
    the registry is declared and registered again by them. *)
Theorem simple_stages_read_no_state (root : Element) :
  reads_no_state (parse_basetypes root)
  /\ reads_no_state (parse_handles root)
  /\ reads_no_state (parse_flags root)
  /\ reads_no_state (parse_enums root)
  /\ reads_no_state (parse_funcpointers root)
  /\ reads_no_state (parse_extensions root).
Proof.
  unfold parse_basetypes, parse_handles, parse_flags, parse_enums, parse_enums_with,
    parse_funcpointers, parse_extensions.
  refine (conj _ (conj _ (conj _ (conj _ (conj _ _))))); repeat reads_no_state_step.
Qed.

(** ** The order of the families (C6) *)

Lemma iteration_order_nil (items : Groups -> Groups) :
  iteration_order items -> items [] = [].
Proof. intros H. apply Permutation_nil. apply Permutation_sym, H. Qed.

Lemma write_blocks (groups : Groups) (log : Log) :
  for_each groups (fun '(cmd_family, cmds) => write (CommandFamily cmd_family cmds)) log
  = (Ok tt, log ++ family_blocks groups).
Proof. apply write_families. Qed.

Lemma family_ordered_parse_commands root :
  family_ordered (fun items => parse_commands_with items root).
Proof.
  intros log.
  assert (Hh : HANDLE_NAMES (log ++ [Write commands_header]) = HANDLE_NAMES log).
  { rewrite HANDLE_NAMES_app. simpl. apply app_nil_r. }
  assert (Hfail : forall e,
             (forall items, parse_commands_with items root log
                            = (Raise e, log ++ [Write commands_header])) ->
             exists out pre commands_groups post,
               Forall not_a_family_block pre /\ Forall not_a_family_block post
               /\ forall items, iteration_order items ->
                    parse_commands_with items root log
                    = (out, log ++ pre ++ family_blocks (items commands_groups) ++ post)).
  { intros e H. exists (Raise e), [Write commands_header], [], [].
    split; [repeat constructor |]. split; [constructor |].
    intros items Hi. rewrite (iteration_order_nil items Hi). apply H. }
  destruct (find root "commands") as [commands |] eqn:Hf.
  2: { apply (Hfail TypeError). intros items. unfold parse_commands_with.
       rewrite bind_write, Hf. cbn [some_or]. now rewrite bind_lift_Raise. }
  destruct (group_commands (HANDLE_NAMES log) (children commands) None [])
    as [[info groups] | e | ] eqn:Hg.
  - destruct info as [[[name ty] params] |].
    + exists (Ok tt), [Write commands_header], groups,
        [Write (GetInstanceProcAddr name ty params)].
      split; [repeat constructor |]. split; [repeat constructor |].
      intros items _. unfold parse_commands_with.
      rewrite bind_write, Hf. cbn [some_or]. rewrite bind_lift_Ok, bind_state, Hh, Hg.
      rewrite bind_lift_Ok. unfold bind at 1. rewrite write_blocks.
      cbn [some_or]. rewrite bind_lift_Ok. unfold write, effect.
      now rewrite <- !app_assoc.
    + exists (Raise TypeError), [Write commands_header], groups, [].
      split; [repeat constructor |]. split; [constructor |].
      intros items _. unfold parse_commands_with.
      rewrite bind_write, Hf. cbn [some_or]. rewrite bind_lift_Ok, bind_state, Hh, Hg.
      rewrite bind_lift_Ok. unfold bind at 1. rewrite write_blocks.
      cbn [some_or]. rewrite bind_lift_Raise. now rewrite app_nil_r, <- !app_assoc.
  - apply (Hfail e). intros items. unfold parse_commands_with.
    rewrite bind_write, Hf. cbn [some_or]. rewrite bind_lift_Ok, bind_state, Hh, Hg.
    now rewrite bind_lift_Raise.
  - now apply group_commands_terminates in Hg.
Qed.

(** What comes before the commands has no block of a family and does not
    depend on the order. *)
Lemma family_ordered_after {A B} (m : M A) (k : (Groups -> Groups) -> A -> M B) :
  emits not_a_family_block m ->
  (forall a, family_ordered (fun items => k items a)) ->
  family_ordered (fun items => bind m (k items)).
Proof.
  intros Hm Hk log. destruct (Hm log) as (ext & E & F). unfold bind.
  destruct (m log) as [[a | e | ] log1]; cbn [snd] in E; subst log1.
  - destruct (Hk a (log ++ ext)) as (out & pre & groups & post & Fpre & Fpost & H).
    exists out, (ext ++ pre), groups, post.
    split; [now apply Forall_app |]. split; auto.
    intros items Hi. rewrite (H items Hi). now rewrite <- !app_assoc.
  - exists (Raise e), ext, [], []. split; auto. split; [constructor |].
    intros items Hi. rewrite (iteration_order_nil items Hi). cbn. now rewrite app_nil_r.
  - exists OutOfFuel, ext, [], []. split; auto. split; [constructor |].
    intros items Hi. rewrite (iteration_order_nil items Hi). cbn. now rewrite app_nil_r.
Qed.

(** What comes after the commands does not read the state. *)
Lemma family_ordered_before {A B} (m : (Groups -> Groups) -> M A) (k : A -> M B) :
  family_ordered m ->
  (forall a, reads_no_state (k a)) ->
  (forall a, emits not_a_family_block (k a)) ->
  family_ordered (fun items => bind (m items) k).
Proof.
  intros Hm Hk Hk' log.
  destruct (Hm log) as (out & pre & groups & post & Fpre & Fpost & H).
  destruct out as [a | e | ].
  - destruct (Hk a) as (out' & ext & Hka).
    assert (Fext : Forall not_a_family_block ext).
    { destruct (Hk' a []) as (ext' & E & F). rewrite Hka in E. cbn in E. now subst. }
    exists out', pre, groups, (post ++ ext).
    split; auto. split; [now apply Forall_app |].
    intros items Hi. unfold bind. rewrite (H items Hi), Hka. now rewrite <- !app_assoc.
  - exists (Raise e), pre, groups, post. split; auto. split; auto.
    intros items Hi. unfold bind. now rewrite (H items Hi).
  - exists OutOfFuel, pre, groups, post. split; auto. split; auto.
    intros items Hi. unfold bind. now rewrite (H items Hi).
Qed.

Lemma family_ordered_export suffixes root :
  family_ordered (fun families => export_in suffixes families root).
Proof.
  unfold export_in, add_imports, add_initialization, add_post_initialization.
  apply family_ordered_after; [apply emits_write; exact I | intros _].
  apply family_ordered_after; [apply emits_write; exact I | intros _].
  apply family_ordered_after;
    [unfold parse_basetypes; repeat emits_step | intros _].
  apply family_ordered_after;
    [unfold parse_handles; repeat emits_step | intros _].
  apply family_ordered_after;
    [unfold parse_flags; repeat emits_step | intros _].
  apply family_ordered_after;
    [unfold parse_enums_with; repeat emits_step | intros _].
  apply family_ordered_after;
    [unfold parse_funcpointers; repeat emits_step | intros _].
  apply family_ordered_after;
    [unfold parse_structures_and_unions; repeat emits_step | intros _].
  apply family_ordered_before.
  - apply family_ordered_parse_commands.
  - intros _. unfold parse_extensions. repeat reads_no_state_step.
  - intros _. unfold parse_extensions. repeat emits_step.
Qed.

(** C6, as amended.  What a run does is a function of the document and of
    the order in which it iterates over [commands_groups], and of nothing
    else.  Two runs on the same document, each iterating over
    [TYPES_SUFFIX] and over [commands_groups] in an order of its own, end
    in the same way and have the same effects, but for the blocks of the
    families, which each run writes in its own order; these are the blocks
    of the run that iterates in insertion order.  When the two runs iterate
    over [commands_groups] in the same order, as they do where a
    dictionary iterates in insertion order, they write the same
    characters. *)
Theorem generation_depends_on_the_order_of_the_families
        (root : Element) (suffixes1 suffixes2 : list (string * string))
        (families1 families2 : Groups -> Groups) :
  Permutation TYPES_SUFFIX suffixes1 -> Permutation TYPES_SUFFIX suffixes2 ->
  iteration_order families1 -> iteration_order families2 ->
  exists out pre commands_groups post,
    Forall not_a_family_block pre /\ Forall not_a_family_block post
    /\ export root = (out, pre ++ family_blocks commands_groups ++ post)
    /\ export_in suffixes1 families1 root []
       = (out, pre ++ family_blocks (families1 commands_groups) ++ post)
    /\ export_in suffixes2 families2 root []
       = (out, pre ++ family_blocks (families2 commands_groups) ++ post)
    /\ (families1 commands_groups = families2 commands_groups ->
        export_in suffixes1 families1 root [] = export_in suffixes2 families2 root []
        /\ file_contents (snd (export_in suffixes1 families1 root []))
           = file_contents (snd (export_in suffixes2 families2 root []))).
Proof.
  intros P1 P2 I1 I2.
  destruct (family_ordered_export TYPES_SUFFIX root [])
    as (out & pre & groups & post & Fpre & Fpost & H).
  exists out, pre, groups, post.
  assert (E0 : export root = (out, pre ++ family_blocks groups ++ post)).
  { unfold export, export_with.
    apply (H (fun commands_groups => commands_groups)).
    intros g. apply Permutation_refl. }
  assert (E1 : export_in suffixes1 families1 root []
               = (out, pre ++ family_blocks (families1 groups) ++ post)).
  { rewrite (export_order_independent suffixes1 families1 root P1). now apply H. }
  assert (E2 : export_in suffixes2 families2 root []
               = (out, pre ++ family_blocks (families2 groups) ++ post)).
  { rewrite (export_order_independent suffixes2 families2 root P2). now apply H. }
  refine (conj Fpre (conj Fpost (conj E0 (conj E1 (conj E2 _))))).
  intros E. rewrite E1, E2, E. split; reflexivity.
Qed.

Lemma generation_depends_on_the_order_of_the_families_witness :
  export_in [("f", "c_float"); ("ULL", "c_uint64"); ("U", "c_uint")]%string
            (fun commands_groups => commands_groups) doc_sample []
  = export_in TYPES_SUFFIX (fun commands_groups => commands_groups) doc_sample [].
Proof.
  assert (P : Permutation TYPES_SUFFIX
                [("f", "c_float"); ("ULL", "c_uint64"); ("U", "c_uint")]%string).
  { unfold TYPES_SUFFIX.
    eapply perm_trans; [apply perm_swap |].
    eapply perm_trans; [apply perm_skip; apply perm_swap |].
    apply perm_swap. }
  destruct (generation_depends_on_the_order_of_the_families doc_sample
              [("f", "c_float"); ("ULL", "c_uint64"); ("U", "c_uint")]%string TYPES_SUFFIX
              (fun commands_groups => commands_groups)
              (fun commands_groups => commands_groups)
              P (Permutation_refl _)
              (fun g => Permutation_refl g) (fun g => Permutation_refl g))
    as (out & pre & groups & post & _ & _ & _ & _ & _ & H).
  exact (proj1 (H eq_refl)).
Defined.

(** C6 as stated fails on [doc_sample]: a run that iterates over
    [commands_groups] in the reverse of the insertion order writes the
    block of the family Instance before that of the family Loader, and so
    other characters than the run that iterates in insertion order. *)
Lemma generation_order_counterexample : ~ independent_of_iteration_order doc_sample.
Proof.
  intros H.
  specialize (H TYPES_SUFFIX TYPES_SUFFIX (fun commands_groups => commands_groups)
                (@rev (string * list string))
                (Permutation_refl _) (Permutation_refl _)
                (fun g => Permutation_refl g)
                (fun g => Permutation_sym (Permutation_rev g))).
  apply String.eqb_eq in H. vm_compute in H. discriminate H.
Qed.
